(** * FireSim network simulation: big-token codec, software switch, NIC endpoint

    A shallow embedding of
      - [target-design/switch/flit.h]   (big-token codec, MAC lookup),
      - [target-design/switch/switch.cc] (the switch core [do_fast_switching]),
      - [sim/src/main/cc/endpoints/simplenic.cc] (the NIC endpoint),
    with the properties of the system stated and proved over it.

    Conventions.  C integers are [Z]; where the C code truncates (a store
    into a [uint8_t], a [uint16_t] or a [uint64_t]) the wrap-around is
    written out with [mod].  Buffers are [list Z] of byte values addressed
    by byte offset.  Every memory access is checked: an access outside its
    buffer, a dangling pointer, a division by zero or an index outside the
    port array is a [Fault], so that "the C code has defined behaviour" is
    the statement that the embedding returns [Ok].  Of the diagnostic
    [printf] calls only the memory reads of their arguments are modelled,
    not the output. *)

From Stdlib Require Import ZArith Lia Sorted Permutation Ascii String.
From stdpp Require Import base option list numbers gmap strings pretty.

Local Open Scope Z_scope.

(* [lia] then also decides goals with division and remainder by constants *)
Ltac Zify.zify_post_hook ::= Z.to_euclidean_division_equations.

(** ** Checked execution *)

Inductive fault : Set :=
| OutOfBounds   (* access outside a window buffer *)
| DatOverflow   (* access outside a packet's [dat] buffer *)
| NullPointer   (* a packet or buffer that is not allocated *)
| BadPort       (* index outside [ports] *)
| DivByZero
| OutOfFuel.    (* a loop of the model ran out of its iteration budget *)

Inductive res (A : Type) : Type :=
| Ok (a : A)
| Fault (f : fault).
Arguments Ok {A} a.
Arguments Fault {A} f.

#[global] Instance res_ret : MRet res := @Ok.
#[global] Instance res_bind : MBind res :=
  λ A B f m, match m with Ok a => f a | Fault e => Fault e end.
#[global] Instance res_fmap : FMap res :=
  λ A B f m, match m with Ok a => Ok (f a) | Fault e => Fault e end.

#[global] Instance fault_eq_dec : EqDecision fault.
Proof. solve_decision. Defined.

Definition is_Ok {A} (r : res A) : Prop := ∃ a, r = Ok a.

(** ** Byte buffers *)

Module Mem.

(** [*(buf + a)] for a [uint8_t *buf]. *)
Definition load_byte (buf : list Z) (a : Z) : res Z :=
  if decide (0 ≤ a) then
    match buf !! Z.to_nat a with
    | Some b => Ok b
    | None => Fault OutOfBounds
    end
  else Fault OutOfBounds.

(** [*(buf + a) = v], the value truncated to [uint8_t]. *)
Definition store_byte (buf : list Z) (a v : Z) : res (list Z) :=
  if decide (0 ≤ a < Z.of_nat (length buf)) then
    Ok (<[Z.to_nat a := v `mod` 256]> buf)
  else Fault OutOfBounds.

(** The [n] bytes at [buf + a]. *)
Definition load_bytes (buf : list Z) (a n : Z) : res (list Z) :=
  if decide (0 ≤ a ∧ 0 ≤ n ∧ a + n ≤ Z.of_nat (length buf)) then
    Ok (take (Z.to_nat n) (drop (Z.to_nat a) buf))
  else Fault OutOfBounds.

(** [memcpy(buf + a, bs, length bs)]. *)
Definition store_bytes (buf : list Z) (a : Z) (bs : list Z) : res (list Z) :=
  if decide (0 ≤ a ∧ a + Z.of_nat (length bs) ≤ Z.of_nat (length buf)) then
    Ok (take (Z.to_nat a) buf ++ bs ++ drop (Z.to_nat a + length bs) buf)
  else Fault OutOfBounds.

(** Little-endian value of a byte string: [*(uint64_t* )p] on the
    (little-endian) simulation host reads [le_combine] of 8 bytes. *)
Fixpoint le_combine (bs : list Z) : Z :=
  match bs with
  | [] => 0
  | b :: bs' => Z.lor b (Z.shiftl (le_combine bs') 8)
  end.

Definition load_u64 (buf : list Z) (a : Z) : res Z :=
  le_combine <$> load_bytes buf a 8.

Definition is_byte (b : Z) : Prop := 0 ≤ b < 256.
Definition bytes (buf : list Z) : Prop := Forall is_byte buf.

End Mem.

(** ** flit.h: the big-token codec *)

Module Flit.
Import Mem.

Definition BROADCAST_ADJUSTED : Z := 0xffff.

(* switch.cc: the build constants in force when flit.h is included *)
Definition MAX_BW : Z := 200.
Definition FLIT_SIZE_BITS : Z := 64.
Definition BIGTOKEN_SIZE_BITS : Z := 512.
Definition FLIT_SIZE_BYTES : Z := FLIT_SIZE_BITS `quot` 8.
Definition BIGTOKEN_SIZE_BYTES : Z := BIGTOKEN_SIZE_BITS `quot` 8.
Definition TOKENS_PER_BIGTOKEN : Z :=
  ((BIGTOKEN_SIZE_BYTES * 8) `quot` (FLIT_SIZE_BITS + 3)) `mod` 2 ^ 16.

Definition tok_base (tokenid : Z) : Z := tokenid `quot` TOKENS_PER_BIGTOKEN.
Definition tok_offset (tokenid : Z) : Z := tokenid `rem` TOKENS_PER_BIGTOKEN.

(** Byte offset of the big-token of [tokenid]: the [lrv] pointer. *)
Definition lrv (tokenid : Z) : Z := tok_base tokenid * BIGTOKEN_SIZE_BYTES.

Definition valid_bitoffset (tokenid : Z) : Z :=
  (FLIT_SIZE_BITS - TOKENS_PER_BIGTOKEN * 3) + tok_offset tokenid * 3.
Definition last_bitoffset (tokenid : Z) : Z :=
  (FLIT_SIZE_BITS - TOKENS_PER_BIGTOKEN * 3) + 2 + tok_offset tokenid * 3.

(** The arguments of the [printf] at the head of most functions of
    flit.h: four 64-bit words read at [p], [p + FLIT_SIZE_BYTES], ... *)
Definition peek_items (buf : list Z) (p : Z) : res unit :=
  _ ← load_u64 buf (p + 3 * FLIT_SIZE_BYTES);
  _ ← load_u64 buf (p + 2 * FLIT_SIZE_BYTES);
  _ ← load_u64 buf (p + 1 * FLIT_SIZE_BYTES);
  _ ← load_u64 buf (p + 0 * FLIT_SIZE_BYTES);
  Ok ().

(** [get_flit] returns a pointer into [recv_buf]: its byte offset. *)
Definition get_flit_ptr (tokenid : Z) : Z :=
  tok_base tokenid * BIGTOKEN_SIZE_BYTES
  + FLIT_SIZE_BYTES * (tok_offset tokenid + 1).

(** The [FLIT_SIZE_BYTES] bytes that the pointer returned by [get_flit]
    designates. *)
Definition get_flit (recv_buf : list Z) (tokenid : Z) : res (list Z) :=
  load_bytes recv_buf (get_flit_ptr tokenid) FLIT_SIZE_BYTES.

Definition write_flit (send_buf : list Z) (tokenid : Z) (flit_buf : list Z)
  : res (list Z) :=
  bs ← load_bytes flit_buf 0 FLIT_SIZE_BYTES;
  store_bytes send_buf
    (tok_base tokenid * BIGTOKEN_SIZE_BYTES
     + FLIT_SIZE_BYTES * (tok_offset tokenid + 1)) bs.

Definition write_valid_flit (send_buf : list Z) (tokenid : Z) : res (list Z) :=
  _ ← peek_items send_buf (lrv tokenid);
  let bitoffset := valid_bitoffset tokenid in
  let a := lrv tokenid + bitoffset `quot` 8 in
  b ← load_byte send_buf a;
  store_byte send_buf a (Z.lor b (Z.shiftl 1 (bitoffset `rem` 8))).

(** Declared [int] but without a [return]: only the effect is modelled. *)
Definition write_last_flit (send_buf : list Z) (tokenid : Z) (is_last : bool)
  : res (list Z) :=
  _ ← peek_items send_buf (lrv tokenid);
  let bitoffset := last_bitoffset tokenid in
  let a := lrv tokenid + bitoffset `quot` 8 in
  b ← load_byte send_buf a;
  store_byte send_buf a (Z.lor b (Z.shiftl (Z.b2z is_last) (bitoffset `rem` 8))).

(** The [return] converts the shifted byte to [bool]: true iff nonzero. *)
Definition is_valid_flit (recv_buf : list Z) (tokenid : Z) : res bool :=
  _ ← peek_items recv_buf (lrv tokenid);
  let bitoffset := valid_bitoffset tokenid in
  b ← load_byte recv_buf (lrv tokenid + bitoffset `quot` 8);
  Ok (bool_decide (Z.shiftr b (bitoffset `rem` 8) ≠ 0)).

Definition is_last_flit (recv_buf : list Z) (tokenid : Z) : res bool :=
  _ ← peek_items recv_buf (lrv tokenid);
  let bitoffset := last_bitoffset tokenid in
  b ← load_byte recv_buf (lrv tokenid + bitoffset `quot` 8);
  Ok (bool_decide (Z.shiftr b (bitoffset `rem` 8) ≠ 0)).

(** *** The wire format, as the data model describes it

    A big-token is a [BIGTOKEN_SIZE_BITS]-bit little-endian word; flit [i]
    of the big-token has its valid bit at bit
    [(FLIT_SIZE_BITS - TOKENS_PER_BIGTOKEN*3) + 3*i] and its last bit two
    positions above. *)

Definition bigtoken_word (buf : list Z) (tokenid : Z) : res Z :=
  le_combine <$> load_bytes buf (lrv tokenid) BIGTOKEN_SIZE_BYTES.

Definition valid_bit (buf : list Z) (tokenid : Z) : res bool :=
  w ← bigtoken_word buf tokenid;
  Ok (Z.testbit w ((FLIT_SIZE_BITS - TOKENS_PER_BIGTOKEN * 3)
                   + 3 * (tokenid `mod` TOKENS_PER_BIGTOKEN))).

Definition last_bit (buf : list Z) (tokenid : Z) : res bool :=
  w ← bigtoken_word buf tokenid;
  Ok (Z.testbit w ((FLIT_SIZE_BITS - TOKENS_PER_BIGTOKEN * 3)
                   + 3 * (tokenid `mod` TOKENS_PER_BIGTOKEN) + 2)).

(** The middle bit of a triple, which the codec never writes. *)
Definition reserved_bit (buf : list Z) (tokenid : Z) : res bool :=
  w ← bigtoken_word buf tokenid;
  Ok (Z.testbit w ((FLIT_SIZE_BITS - TOKENS_PER_BIGTOKEN * 3)
                   + 3 * (tokenid `mod` TOKENS_PER_BIGTOKEN) + 1)).

End Flit.


(** ** A monadic fold: the [for] loops of the sources *)

Fixpoint foldM {A S : Type} (f : A → S → res S) (l : list A) (s : S) : res S :=
  match l with
  | [] => Ok s
  | a :: l' => s' ← f a s; foldM f l' s'
  end.

(** ** switch.cc: the switch core *)

Module Switch.
Import Mem Flit.

Abbreviation loc := nat (only parsing).

(** Modelled from the spec: [struct switchpacket] of baseport.h, which is
    not among the sources; the fields are those that switch.cc reads and
    writes ([timestamp] is a [uint64_t], [dat] a pointer to the packet
    buffer, the others [int]s). *)
Record switchpacket : Type := SwitchPacket {
  timestamp : Z;
  dat : loc;
  amtwritten : Z;
  amtread : Z;
  sender : Z }.

(** The C heap, as far as the switch uses it: packet structs and byte
    buffers, each keyed by address. *)
Record heap : Type := Heap {
  pkts : gmap nat switchpacket;
  bufs : gmap nat (list Z) }.

(** Modelled from the spec: the public fields of [BasePort] (baseport.h).
    The two [std::queue]s are lists with the front at the head. *)
Record port : Type := Port {
  current_input_buf : list Z;
  current_output_buf : list Z;
  input_in_progress : option loc;
  inputqueue : list loc;
  outputqueue : list loc }.

(** What switchconfig.h and baseport.h define, the globals that [main] sets
    from the command line, and the values that successive calls of
    [rand()] return. *)
Record config : Type := Config {
  NUMPORTS : Z;
  NUMDOWNLINKS : Z;
  NUMUPLINKS : Z;
  mac2port : Z → Z;
  ETH_MAX_WORDS : Z;
  ETH_EXTRA_FLITS : Z;
  LINKLATENCY : Z;
  switchlat : Z;
  this_iter_cycles_start : Z;
  rand : nat → Z }.

(** One [outputqueue.push], recorded in program order. *)
Record push_event : Type := PushEvent {
  ev_port : Z;
  ev_packet : loc;
  ev_timestamp : Z }.

Record switch : Type := SwitchState {
  ports : list port;
  mem : heap;
  rand_calls : nat;
  pushlog : list push_event }.

Definition SWITCHLATENCY (c : config) : Z := switchlat c.
Definition NUM_TOKENS (c : config) : Z := LINKLATENCY c.
Definition NUM_BIGTOKENS (c : config) : Z := NUM_TOKENS c `quot` TOKENS_PER_BIGTOKEN.
Definition BUFSIZE_BYTES (c : config) : Z := NUM_BIGTOKENS c * BIGTOKEN_SIZE_BYTES.
Definition ADDUPLINK (c : config) : Z := if decide (NUMUPLINKS c > 0) then 1 else 0.

(** Flits that a packet buffer holds, and its size in bytes. *)
Definition DAT_FLITS (c : config) : Z := ETH_MAX_WORDS c + ETH_EXTRA_FLITS c.
Definition DAT_BYTES (c : config) : Z := FLIT_SIZE_BYTES * DAT_FLITS c.

(** *** Heap operations *)

Definition get_pkt (h : heap) (sp : loc) : res switchpacket :=
  match pkts h !! sp with
  | Some p => Ok p
  | None => Fault NullPointer
  end.

Definition get_buf (h : heap) (d : loc) : res (list Z) :=
  match bufs h !! d with
  | Some b => Ok b
  | None => Fault NullPointer
  end.

(** [malloc]/[calloc] return an address that is not in use. *)
Definition alloc_pkt (p : switchpacket) (h : heap) : loc * heap :=
  let l := fresh (dom (pkts h)) in
  (l, Heap (<[l := p]> (pkts h)) (bufs h)).

Definition alloc_buf (b : list Z) (h : heap) : loc * heap :=
  let l := fresh (dom (bufs h)) in
  (l, Heap (pkts h) (<[l := b]> (bufs h))).

(** [free(tsp->dat); free(tsp)]. *)
Definition free_packet (tsp : loc) (h : heap) : res heap :=
  p ← get_pkt h tsp;
  _ ← get_buf h (dat p);
  Ok (Heap (delete tsp (pkts h)) (delete (dat p) (bufs h))).

(** An access to a packet buffer: a miss is a [DatOverflow]. *)
Definition dat_access {A} (r : res A) : res A :=
  match r with
  | Ok a => Ok a
  | Fault _ => Fault DatOverflow
  end.

(** *** Ports *)

Definition get_port (s : switch) (i : Z) : res port :=
  if decide (0 ≤ i) then
    match ports s !! Z.to_nat i with
    | Some p => Ok p
    | None => Fault BadPort
    end
  else Fault BadPort.

Definition set_port (i : Z) (p : port) (s : switch) : switch :=
  SwitchState (<[Z.to_nat i := p]> (ports s)) (mem s) (rand_calls s) (pushlog s).

Definition set_mem (h : heap) (s : switch) : switch :=
  SwitchState (ports s) h (rand_calls s) (pushlog s).

Definition set_rand_calls (n : nat) (s : switch) : switch :=
  SwitchState (ports s) (mem s) n (pushlog s).

Definition log_push (e : push_event) (s : switch) : switch :=
  SwitchState (ports s) (mem s) (rand_calls s) (pushlog s ++ [e]).

Definition set_input_in_progress (o : option loc) (p : port) : port :=
  Port (current_input_buf p) (current_output_buf p) o (inputqueue p) (outputqueue p).

Definition set_inputqueue (q : list loc) (p : port) : port :=
  Port (current_input_buf p) (current_output_buf p) (input_in_progress p) q (outputqueue p).

Definition set_outputqueue (q : list loc) (p : port) : port :=
  Port (current_input_buf p) (current_output_buf p) (input_in_progress p) (inputqueue p) q.

Definition set_current_output_buf (b : list Z) (p : port) : port :=
  Port (current_input_buf p) b (input_in_progress p) (inputqueue p) (outputqueue p).

(** Modelled from the spec: [setup_send_buf], a virtual method whose
    implementations are in the port headers; it zeroes the next outbound
    window. *)
Definition setup_send_buf (c : config) (p : port) : port :=
  set_current_output_buf (replicate (Z.to_nat (BUFSIZE_BYTES c)) 0) p.

(** *** Phase 1: from the raw input window to packets *)

(** The body of [if (!(current_port->input_in_progress))]. *)
Definition start_packet (c : config) (portno tokenno : Z) (h : heap) (cp : port)
  : heap * port :=
  match input_in_progress cp with
  | Some _ => (h, cp)
  | None =>
      let '(d, h1) := alloc_buf (replicate (Z.to_nat (DAT_BYTES c)) 0) h in
      let '(sp, h2) :=
        alloc_pkt {| timestamp :=
                       (this_iter_cycles_start c + tokenno + SWITCHLATENCY c)
                         `mod` 2 ^ 64;
                     dat := d; amtwritten := 0; amtread := 0;
                     sender := portno |} h1 in
      (h2, set_input_in_progress (Some sp) cp)
  end.

(** [memcpy(sp->dat + ((sp->amtwritten++) * FLIT_SIZE_BYTES), flit,
    FLIT_SIZE_BYTES)], with [flit] the pointer [buf + flit_ptr]. *)
Definition append_flit (h : heap) (sp : loc) (buf : list Z) (flit_ptr : Z)
  : res heap :=
  p ← get_pkt h sp;
  d ← get_buf h (dat p);
  flit ← load_bytes buf flit_ptr FLIT_SIZE_BYTES;
  d' ← dat_access (store_bytes d (amtwritten p * FLIT_SIZE_BYTES) flit);
  Ok (Heap (<[sp := SwitchPacket (timestamp p) (dat p) (amtwritten p + 1)
                                 (amtread p) (sender p)]> (pkts h))
           (<[dat p := d']> (bufs h))).

(** The body of the loop over [tokenno]. *)
Definition reassemble_token (c : config) (portno tokenno : Z) (hp : heap * port)
  : res (heap * port) :=
  let input_port_buf := current_input_buf hp.2 in
  v ← is_valid_flit input_port_buf tokenno;
  if (v : bool) then
    let '(h, current_port) := start_packet c portno tokenno hp.1 hp.2 in
    match input_in_progress current_port with
    | None => Fault NullPointer
    | Some sp =>
        h' ← append_flit h sp input_port_buf (get_flit_ptr tokenno);
        l ← is_last_flit input_port_buf tokenno;
        if (l : bool) then
          Ok (h', set_input_in_progress None
                    (set_inputqueue (inputqueue current_port ++ [sp]) current_port))
        else Ok (h', current_port)
    end
  else Ok hp.

(** The loop [for (tokenno = 0; tokenno < NUM_TOKENS; tokenno++)] over the
    first [n] tokens (the code runs it with [n = NUM_TOKENS]). *)
Definition reassemble_upto (c : config) (portno n : Z) (hp : heap * port)
  : res (heap * port) :=
  foldM (reassemble_token c portno) (seqZ 0 n) hp.

Definition reassemble (c : config) (portno : Z) (hp : heap * port)
  : res (heap * port) :=
  reassemble_upto c portno (NUM_TOKENS c) hp.

(** The two [omp parallel for] loops over the ports.  Each iteration works
    on its own port, so they are run here one port after the other. *)
Definition setup_port (c : config) (portno : Z) (s : switch) : res switch :=
  cp ← get_port s portno;
  Ok (set_port portno (setup_send_buf c cp) s).

Definition reassemble_port (c : config) (portno : Z) (s : switch) : res switch :=
  cp ← get_port s portno;
  hp ← reassemble c portno (mem s, cp);
  Ok (set_port portno hp.2 (set_mem hp.1 s)).

Definition phase1 (c : config) (s : switch) : res switch :=
  s' ← foldM (setup_port c) (seqZ 0 (NUMPORTS c)) s;
  foldM (reassemble_port c) (seqZ 0 (NUMPORTS c)) s'.

(** *** The priority queue *)

Record tspacket : Type := TsPacket {
  ts_timestamp : Z;
  switchpack : loc }.

(** [tspacket::operator<]. *)
Definition tspacket_lt (a o : tspacket) : bool :=
  bool_decide (ts_timestamp a > ts_timestamp o).

(** [std::priority_queue<tspacket>], by its interface.  [pq_contents] lists
    the elements held; it is there to state what the operations do. *)
Class PriorityQueue (Q : Type) : Type := {
  pq_new : Q;
  pq_is_empty : Q → bool;
  pq_push : tspacket → Q → Q;
  pq_top : Q → option tspacket;
  pq_pop : Q → Q;
  pq_contents : Q → list tspacket }.

(** The contract of [std::priority_queue]: [top] is an element that is
    not [operator<] any other; which one among equals is not fixed. *)
Record pq_lawful (Q : Type) `{PriorityQueue Q} : Prop := PqLawful {
  pq_new_contents : pq_contents pq_new = [];
  pq_is_empty_spec : ∀ q, pq_is_empty q = true ↔ pq_contents q = [];
  pq_push_contents : ∀ x q, pq_contents (pq_push x q) ≡ₚ x :: pq_contents q;
  pq_top_none : ∀ q, pq_top q = None ↔ pq_contents q = [];
  pq_top_pop : ∀ q x, pq_top q = Some x → pq_contents q ≡ₚ x :: pq_contents (pq_pop q);
  pq_top_greatest : ∀ q x y,
    pq_top q = Some x → y ∈ pq_contents q → tspacket_lt x y = false }.

(** A reference implementation: an unordered list, searched for its
    greatest element. *)
Fixpoint list_top (l : list tspacket) : option tspacket :=
  match l with
  | [] => None
  | x :: l' =>
      match list_top l' with
      | None => Some x
      | Some y => if tspacket_lt x y then Some y else Some x
      end
  end.

Fixpoint list_pop (l : list tspacket) : list tspacket :=
  match l with
  | [] => []
  | x :: l' =>
      match list_top l' with
      | None => []
      | Some y => if tspacket_lt x y then x :: list_pop l' else l'
      end
  end.

#[global] Instance list_pq : PriorityQueue (list tspacket) := {
  pq_new := [];
  pq_is_empty l := bool_decide (l = []);
  pq_push x l := l ++ [x];
  pq_top := list_top;
  pq_pop := list_pop;
  pq_contents l := l }.

(** *** flit.h: [get_port_from_flit]

    It is defined in flit.h but reads the tables of switchconfig.h, hence
    its place here.  The second component of the result counts the calls of
    [rand()] made so far. *)

Definition bswap16 (x : Z) : Z :=
  Z.lor (Z.shiftl (Z.land x 0xff) 8) (Z.land (Z.shiftr x 8) 0xff).

Definition get_port_from_flit (c : config) (flit_buf : list Z) (current_port : Z)
    (calls : nat) : res (Z * nat) :=
  _ ← peek_items flit_buf 0;
  w ← load_u64 flit_buf 0;
  let is_multicast := Z.land (Z.shiftr w 16) 0x1 `mod` 2 ^ 16 in
  let flit_low := Z.land (Z.shiftr w 48) 0xFFFF `mod` 2 ^ 16 in
  let sendport := bswap16 flit_low in
  if decide (is_multicast ≠ 0) then Ok (BROADCAST_ADJUSTED, calls)
  else
    let sendport := Z.land sendport 0xFFFF in
    let sendport := mac2port c sendport `mod` 2 ^ 16 in
    if decide (sendport = NUMDOWNLINKS c) then
      if decide (NUMUPLINKS c = 0) then Fault DivByZero
      else
        let randval := rand c calls `rem` NUMUPLINKS c in
        Ok ((randval + NUMDOWNLINKS c) `mod` 2 ^ 16, S calls)
    else Ok (sendport, calls).

(** *** Phase 2: the input queues are drained into the priority queue *)

Section Routing.
Context {Q : Type} `{PriorityQueue Q}.

(** [sp = inputqueue.front(); inputqueue.pop(); pqueue.push({sp->timestamp, sp})] *)
Definition enqueue_packet (h : heap) (sp : loc) (q : Q) : res Q :=
  p ← get_pkt h sp;
  Ok (pq_push (TsPacket (timestamp p) sp) q).

Definition drain_port (i : Z) (sq : switch * Q) : res (switch * Q) :=
  cp ← get_port sq.1 i;
  q' ← foldM (enqueue_packet (mem sq.1)) (inputqueue cp) sq.2;
  Ok (set_port i (set_inputqueue [] cp) sq.1, q').

Definition phase2 (c : config) (s : switch) : res (switch * Q) :=
  foldM drain_port (seqZ 0 (NUMPORTS c)) (s, pq_new).

(** *** Phase 3: routing *)

(** [ports[i]->outputqueue.push(sp)] *)
Definition push_output (i : Z) (sp : loc) (ts : Z) (s : switch) : res switch :=
  cp ← get_port s i;
  Ok (log_push (PushEvent i sp ts)
        (set_port i (set_outputqueue (outputqueue cp ++ [sp]) cp) s)).

(** The body of the broadcast loop, for target port [i]. *)
Definition broadcast_copy (c : config) (tsp : loc) (i : Z) (s : switch)
  : res switch :=
  p ← get_pkt (mem s) tsp;
  if decide (i ≠ sender p) then
    src ← get_buf (mem s) (dat p);
    bs ← dat_access (load_bytes src 0 (DAT_BYTES c));
    let '(tsp2, h1) := alloc_pkt p (mem s) in
    let '(d2, h2) := alloc_buf bs h1 in
    let h3 := Heap (<[tsp2 := SwitchPacket (timestamp p) d2 (amtwritten p)
                                          (amtread p) (sender p)]> (pkts h2))
                   (bufs h2) in
    push_output i tsp2 (timestamp p) (set_mem h3 s)
  else Ok s.

(** The body of [while (!pqueue.empty())], after [top] and [pop]. *)
Definition route_packet (c : config) (tsp : loc) (s : switch) : res switch :=
  p ← get_pkt (mem s) tsp;
  d ← get_buf (mem s) (dat p);
  r ← get_port_from_flit c d 0 (rand_calls s);
  let send_to_port := r.1 in
  let s1 := set_rand_calls r.2 s in
  if decide (send_to_port = BROADCAST_ADJUSTED) then
    s2 ← foldM (broadcast_copy c tsp) (seqZ 0 (NUMDOWNLINKS c + ADDUPLINK c)) s1;
    h ← free_packet tsp (mem s2);
    Ok (set_mem h s2)
  else push_output send_to_port tsp (timestamp p) s1.

(** The loop runs until the queue is empty; [fuel] bounds the number of
    iterations of the model. *)
Fixpoint route_loop (c : config) (fuel : nat) (q : Q) (s : switch) : res switch :=
  if pq_is_empty q then Ok s
  else
    match fuel with
    | O => Fault OutOfFuel
    | S fuel' =>
        match pq_top q with
        | None => Fault NullPointer
        | Some e =>
            s' ← route_packet c (switchpack e) s;
            route_loop c fuel' (pq_pop q) s'
        end
    end.

(** Phases 2 and 3 of [do_fast_switching]. *)
Definition switching (c : config) (fuel : nat) (s : switch) : res switch :=
  sq ← phase2 c s;
  route_loop c fuel sq.2 sq.1.

(** [do_fast_switching]; [write_flits_to_output] is a method of baseport.h,
    which is not among the sources, and is taken as given. *)
Definition do_fast_switching (c : config)
    (write_flits_to_output : Z → switch → res switch)
    (fuel : nat) (s : switch) : res switch :=
  s1 ← phase1 c s;
  s2 ← switching c fuel s1;
  foldM write_flits_to_output (seqZ 0 (NUMPORTS c)) s2.

End Routing.

End Switch.

(** ** simplenic.cc: the NIC endpoint *)

Module SimpleNIC.
Import Mem.

Abbreviation loc := nat (only parsing).

Definition MAX_BANDWIDTH : Z := 800.
Definition PCIE_WIDTH_BITS : Z := 512.
Definition VAL_BITS : Z := 3.
Definition EXTRA_BYTES : Z := 1.
Definition FLIT_WIDTH_BITS : Z := 256.
Definition BUF_WIDTH_BITS : Z := 64.
Definition TOKENS_PER_BIGTOKEN : Z := PCIE_WIDTH_BITS `quot` (FLIT_WIDTH_BITS + VAL_BITS).

(** Conversion to [uint32_t]. *)
Definition u32 (z : Z) : Z := z `mod` 2 ^ 32.

(** *** [simplify_frac] *)

(** The loop [while (b > 0) { t = b; b = a % b; a = t; }]; the result is
    the final [a].  [fuel] bounds the iterations of the model. *)
Fixpoint gcd_loop (fuel : nat) (a b : Z) : option Z :=
  if decide (b > 0) then
    match fuel with
    | O => None
    | S fuel' => gcd_loop fuel' b (a `rem` b)
    end
  else Some a.

(** [simplify_frac(n, d, &nn, &dd)] returns the pair [( *nn, *dd)].  Each
    iteration makes [b] smaller, so [d] iterations are a sufficient
    budget. *)
Definition simplify_frac (n d : Z) : res (Z * Z) :=
  match gcd_loop (Z.to_nat d) n d with
  | None => Fault OutOfFuel
  | Some a =>
      if decide (a = 0) then Fault DivByZero
      else Ok (n `quot` a, d `quot` a)
  end.

(** *** The host platform

    The MMIO and DMA primitives of [simif_t], the peer process behind the
    shared-memory windows and the file system are outside the endpoint:
    they are an interface, and the endpoint is written over any
    implementation [E] of it. *)

Inductive mmio_reg : Set :=
| macaddr_upper | macaddr_lower | rlimit_settings | outgoing_count | incoming_count.

Class Host (E : Type) : Type := {
  (** [read(addr)] *)
  mmio_read : mmio_reg → E → Z * E;
  (** [write(addr, data)] *)
  mmio_write : mmio_reg → Z → E → E;
  (** [pull(addr, dst, nbytes)]: the bytes stored to [dst] and the return value *)
  dma_pull : Z → Z → E → (list Z * Z) * E;
  (** [push(addr, src, nbytes)], given the bytes at [src]: the return value *)
  dma_push : Z → list Z → Z → E → Z * E;
  (** The peer's next window, written to the switch-to-node buffer with the
      sentinel raised; [None] when the peer never does so. *)
  peer_publish : E → option (list Z * E);
  (** whether [fopen(path, "w")] succeeds *)
  fopen_ok : string → E → bool }.

Inductive event : Type :=
| EvWrite (r : mmio_reg) (v : Z)
| EvRead (r : mmio_reg) (v : Z)
| EvPull (dst : loc) (nbytes ret : Z)
| EvPush (src : loc) (nbytes ret : Z)
| EvPrint (msg : string).

(** Modelled from the spec: the fields of [simplenic_t], which simplenic.h
    declares.  [shm] holds the four windows (two in loopback, where the
    write buffers are the read buffers); [trace] records the calls made to
    the platform, in program order. *)
Record simplenic (E : Type) : Type := SimpleNic {
  sim : E;
  loopback : bool;
  niclog : option string;
  mac_lendian : Z;
  LINKLATENCY : Z;
  dma_addr : Z;
  rlimit_inc : Z;
  rlimit_period : Z;
  rlimit_size : Z;
  pcis_read_bufs : list loc;
  pcis_write_bufs : list loc;
  shm : gmap nat (list Z);
  currentround : Z;
  iter : Z;
  trace : list event }.
Arguments SimpleNic {E}.
Arguments sim {E}.
Arguments loopback {E}.
Arguments niclog {E}.
Arguments mac_lendian {E}.
Arguments LINKLATENCY {E}.
Arguments dma_addr {E}.
Arguments rlimit_inc {E}.
Arguments rlimit_period {E}.
Arguments rlimit_size {E}.
Arguments pcis_read_bufs {E}.
Arguments pcis_write_bufs {E}.
Arguments shm {E}.
Arguments currentround {E}.
Arguments iter {E}.
Arguments trace {E}.

Definition SIMLATENCY_BT {E} (n : simplenic E) : Z :=
  LINKLATENCY n `quot` TOKENS_PER_BIGTOKEN.
Definition BUF_BYTES {E} (n : simplenic E) : Z := SIMLATENCY_BT n * BUF_WIDTH_BITS.

(** *** The C library, as far as the constructor uses it *)

Definition is_space (a : ascii) : bool :=
  let n := N_of_ascii a in
  bool_decide (n = 32 ∨ 9 ≤ n ≤ 13)%N.

Definition digit_val (a : ascii) : option Z :=
  let n := Z.of_N (N_of_ascii a) in
  if decide (48 ≤ n ≤ 57) then Some (n - 48) else None.

Definition hex_val (a : ascii) : option Z :=
  let n := Z.of_N (N_of_ascii a) in
  if decide (48 ≤ n ≤ 57) then Some (n - 48)
  else if decide (97 ≤ n ≤ 102) then Some (n - 87)
  else if decide (65 ≤ n ≤ 70) then Some (n - 55)
  else None.

Fixpoint skip_spaces (s : string) : string :=
  match s with
  | String a s' => if is_space a then skip_spaces s' else s
  | EmptyString => s
  end.

Fixpoint string_drop (n : nat) (s : string) : string :=
  match n, s with
  | S n', String _ s' => string_drop n' s'
  | _, _ => s
  end.

Fixpoint atoi_digits (acc : Z) (s : string) : Z :=
  match s with
  | String a s' =>
      match digit_val a with
      | Some d => atoi_digits (10 * acc + d) s'
      | None => acc
      end
  | EmptyString => acc
  end.

(** Conversion to [int]: the low 32 bits, read as two's complement. *)
Definition to_int (z : Z) : Z := (z + 2 ^ 31) `mod` 2 ^ 32 - 2 ^ 31.

(** [strtol(s, NULL, 10)]: white space, an optional sign, decimal digits;
    a value outside [long] (64 bits) is replaced by [LONG_MIN] or
    [LONG_MAX]. *)
Definition strtol (s : string) : Z :=
  let value :=
    match skip_spaces s with
    | String "-" s' => - atoi_digits 0 s'
    | String "+" s' => atoi_digits 0 s'
    | s' => atoi_digits 0 s'
    end in
  Z.max (- 2 ^ 63) (Z.min (2 ^ 63 - 1) value).

(** [atoi(s)] is [(int) strtol(s, NULL, 10)].  For a value outside [int]
    the C standard leaves the result undefined; the model follows the C
    library of the host (glibc, 64-bit [long]), where the conversion to
    [int] keeps the low 32 bits. *)
Definition atoi (s : string) : Z := to_int (strtol s).

(** The digits of a [%x] item: the value read, if there is at least one
    digit, and the rest of the input. *)
Fixpoint scan_hex_digits (acc : option Z) (s : string) : option Z * string :=
  match s with
  | String a s' =>
      match hex_val a with
      | Some d => scan_hex_digits (Some (16 * default 0 acc + d)) s'
      | None => (acc, s)
      end
  | EmptyString => (acc, s)
  end.

Definition skip_0x (s : string) : string :=
  match s with
  | String "0" (String "x" s') => s'
  | String "0" (String "X" s') => s'
  | _ => s
  end.

(** A [%x] directive: white space, an optional sign, an optional [0x],
    hexadecimal digits; the value is stored as an [unsigned int]. *)
Definition scan_x (s : string) : option (Z * string) :=
  let s := skip_spaces s in
  let '(neg, s) :=
    match s with
    | String "-" s' => (true, s')
    | String "+" s' => (false, s')
    | _ => (false, s)
    end in
  match scan_hex_digits None (skip_0x s) with
  | (Some v, rest) => Some (u32 (if neg : bool then - v else v), rest)
  | (None, _) => None
  end.

(** [sscanf(s, "%x:%x:%x:%x:%x:%x%c", ...)] after [k] conversions, with the
    [n] remaining [%x] directives: the return value and the octets
    assigned.  The return value is 7 when a character follows the sixth
    octet ([%c] then stores it). *)
Fixpoint scan_octets (n : nat) (k : Z) (acc : list Z) (s : string) : Z * list Z :=
  match n with
  | O =>
      match s with
      | String _ _ => (k + 1, acc)
      | EmptyString => (k, acc)
      end
  | S n' =>
      match scan_x s with
      | None =>
          (if decide (k = 0) then
             match skip_spaces s with EmptyString => -1 | _ => 0 end
           else k, acc)
      | Some (v, rest) =>
          match n' with
          | O => scan_octets n' (k + 1) (acc ++ [v]) rest
          | S _ =>
              match rest with
              | String ":" rest' => scan_octets n' (k + 1) (acc ++ [v]) rest'
              | _ => (k + 1, acc ++ [v])
              end
          end
      end
  end.

Definition sscanf_mac (s : string) : Z * list Z := scan_octets 6 0 [] s.

(** *** The constructor *)

(** The local variables and the fields that the argument loop sets.
    [wild_store] records that [sscanf] stored through the uninitialised
    pointer [trailingjunk]. *)
Record ctor_vars : Type := CtorVars {
  niclogfile : option string;
  shmemportname : option string;
  netbw : Z;
  netburst : Z;
  v_loopback : bool;
  v_mac_lendian : Z;
  v_LINKLATENCY : Z;
  v_stderr : list string;
  wild_store : bool }.

Definition ctor_init : ctor_vars :=
  CtorVars None None MAX_BANDWIDTH 8 false 0 0 [] false.

Definition invalid_mac_msg : string :=
  "INVALID MAC ADDRESS SUPPLIED WITH +macaddrN=
".

(** [mac_lendian |= ((uint64_t)(uint8_t)mac_octets[i]) << (8*i)] for [i]
    from [i0] on. *)
Fixpoint or_octets (i0 : Z) (octets : list Z) (mac : Z) : Z :=
  match octets with
  | [] => mac
  | o :: octets' => or_octets (i0 + 1) octets' (Z.lor mac (Z.shiftl (o `mod` 256) (8 * i0)))
  end.

(** [arg.find(p) == 0] *)
Definition starts_with (p arg : string) : bool := String.prefix p arg.

Definition after (p arg : string) : string := string_drop (String.length p) arg.

Definition set_niclogfile (f : option string) (v : ctor_vars) : ctor_vars :=
  CtorVars f (shmemportname v) (netbw v) (netburst v) (v_loopback v)
    (v_mac_lendian v) (v_LINKLATENCY v) (v_stderr v) (wild_store v).

Definition set_shmemportname (f : option string) (v : ctor_vars) : ctor_vars :=
  CtorVars (niclogfile v) f (netbw v) (netburst v) (v_loopback v)
    (v_mac_lendian v) (v_LINKLATENCY v) (v_stderr v) (wild_store v).

Definition set_netbw (x : Z) (v : ctor_vars) : ctor_vars :=
  CtorVars (niclogfile v) (shmemportname v) x (netburst v) (v_loopback v)
    (v_mac_lendian v) (v_LINKLATENCY v) (v_stderr v) (wild_store v).

Definition set_netburst (x : Z) (v : ctor_vars) : ctor_vars :=
  CtorVars (niclogfile v) (shmemportname v) (netbw v) x (v_loopback v)
    (v_mac_lendian v) (v_LINKLATENCY v) (v_stderr v) (wild_store v).

Definition set_loopback (b : bool) (v : ctor_vars) : ctor_vars :=
  CtorVars (niclogfile v) (shmemportname v) (netbw v) (netburst v) b
    (v_mac_lendian v) (v_LINKLATENCY v) (v_stderr v) (wild_store v).

Definition set_mac_lendian (x : Z) (v : ctor_vars) : ctor_vars :=
  CtorVars (niclogfile v) (shmemportname v) (netbw v) (netburst v) (v_loopback v)
    x (v_LINKLATENCY v) (v_stderr v) (wild_store v).

Definition set_LINKLATENCY (x : Z) (v : ctor_vars) : ctor_vars :=
  CtorVars (niclogfile v) (shmemportname v) (netbw v) (netburst v) (v_loopback v)
    (v_mac_lendian v) x (v_stderr v) (wild_store v).

Definition set_stderr (err : list string) (v : ctor_vars) : ctor_vars :=
  CtorVars (niclogfile v) (shmemportname v) (netbw v) (netburst v) (v_loopback v)
    (v_mac_lendian v) (v_LINKLATENCY v) err (wild_store v).

Definition set_wild_store (b : bool) (v : ctor_vars) : ctor_vars :=
  CtorVars (niclogfile v) (shmemportname v) (netbw v) (netburst v) (v_loopback v)
    (v_mac_lendian v) (v_LINKLATENCY v) (v_stderr v) b.

(** The seven [if] statements of the body of [for (auto &arg: args)],
    each for the option name [p] it tests. *)

Definition arg_niclog (p arg : string) (v : ctor_vars) : ctor_vars :=
  if starts_with p arg then set_niclogfile (Some (after p arg)) v else v.

Definition arg_loopback (p arg : string) (v : ctor_vars) : ctor_vars :=
  if starts_with p arg then set_loopback true v else v.

Definition arg_macaddr (p arg : string) (v : ctor_vars) : ctor_vars :=
  if starts_with p arg then
    let r := sscanf_mac (after p arg) in
    let v := set_wild_store (bool_decide (r.1 = 7) || wild_store v) v in
    if decide (6 = r.1) then
      set_mac_lendian (or_octets 0 r.2 (v_mac_lendian v) `mod` 2 ^ 64) v
    else set_stderr (v_stderr v ++ [invalid_mac_msg]) v
  else v.

Definition arg_netbw (p arg : string) (v : ctor_vars) : ctor_vars :=
  if starts_with p arg then set_netbw (atoi (after p arg)) v else v.

Definition arg_netburst (p arg : string) (v : ctor_vars) : ctor_vars :=
  if starts_with p arg then set_netburst (atoi (after p arg)) v else v.

Definition arg_linklatency (p arg : string) (v : ctor_vars) : ctor_vars :=
  if starts_with p arg then set_LINKLATENCY (atoi (after p arg)) v else v.

Definition arg_shmemportname (p arg : string) (v : ctor_vars) : ctor_vars :=
  if starts_with p arg then set_shmemportname (Some (after p arg)) v else v.

(** The body of [for (auto &arg: args)]. *)
Definition handle_arg (simplenicno : Z) (v : ctor_vars) (arg : string) : ctor_vars :=
  let num_equals := (pretty simplenicno +:+ "=")%string in
  let niclog_arg := ("+niclog" +:+ num_equals)%string in
  let nicloopback_arg := ("+nic-loopback" +:+ pretty simplenicno)%string in
  let macaddr_arg := ("+macaddr" +:+ num_equals)%string in
  let netbw_arg := ("+netbw" +:+ num_equals)%string in
  let netburst_arg := ("+netburst" +:+ num_equals)%string in
  let linklatency_arg := ("+linklatency" +:+ num_equals)%string in
  let shmemportname_arg := ("+shmemportname" +:+ num_equals)%string in
  let v := arg_niclog niclog_arg arg v in
  let v := arg_loopback nicloopback_arg arg v in
  let v := arg_macaddr macaddr_arg arg v in
  let v := arg_netbw netbw_arg arg v in
  let v := arg_netburst netburst_arg arg v in
  let v := arg_linklatency linklatency_arg arg v in
  arg_shmemportname shmemportname_arg arg v.

Definition parse_args (simplenicno : Z) (args : list string) : ctor_vars :=
  foldl (handle_arg simplenicno) ctor_init args.

(** How the constructor ends: with an endpoint, by [abort()] (also from a
    failed [assert]), or in undefined behaviour.  The lines written to
    [stderr] come with the first two. *)
Inductive ctor_result (E : Type) : Type :=
| Constructed (n : simplenic E) (stderr : list string)
| CtorAbort (stderr : list string)
| CtorUndefined.
Arguments Constructed {E}.
Arguments CtorAbort {E}.
Arguments CtorUndefined {E}.

Section Endpoint.
Context {E : Type} `{Host E}.

(** The windows are zero-filled when the constructor maps them.  In
    loopback [pcis_write_bufs[j]] is the pointer [pcis_read_bufs[j]]; the
    shared-memory case maps four regions. *)
Definition map_windows (loopback : bool) (bytes : Z)
  : list loc * list loc * gmap nat (list Z) :=
  let w := replicate (Z.to_nat bytes) 0 in
  if loopback then
    ([0%nat; 1%nat], [0%nat; 1%nat], <[0%nat := w]> (<[1%nat := w]> ∅))
  else
    ([0%nat; 2%nat], [1%nat; 3%nat],
     <[0%nat := w]> (<[1%nat := w]> (<[2%nat := w]> (<[3%nat := w]> ∅)))).

(** [simplenic_t::simplenic_t].  [currentround] and [iter] start at 0 (their
    initialisers are in simplenic.h). *)
Definition simplenic_new (e : E) (args : list string) (simplenicno : Z)
    (dma_addr : Z) : ctor_result E :=
  let v := parse_args simplenicno args in
  if wild_store v then CtorUndefined
  else if negb (bool_decide (v_LINKLATENCY v > 0)) then CtorAbort (v_stderr v)
  else if negb (bool_decide (netburst v < 256)) then CtorAbort (v_stderr v)
  else if negb (bool_decide (netbw v ≤ MAX_BANDWIDTH)) then CtorAbort (v_stderr v)
  else
    match simplify_frac (netbw v) MAX_BANDWIDTH with
    | Fault _ => CtorUndefined
    | Ok (inc, period) =>
        let log_ok :=
          match niclogfile v with
          | Some f => fopen_ok f e
          | None => true
          end in
        if negb log_ok then
          CtorAbort (v_stderr v ++
                     [("Could not open NIC log file: " +:+ default "" (niclogfile v) +:+ "
")%string])
        else if negb (v_loopback v) && negb (bool_decide (is_Some (shmemportname v)))
        then CtorAbort (v_stderr v)
        else
          let bytes := (v_LINKLATENCY v `quot` TOKENS_PER_BIGTOKEN) * BUF_WIDTH_BITS
                       + EXTRA_BYTES in
          let '(rbufs, wbufs, m) := map_windows (v_loopback v) bytes in
          Constructed
            (SimpleNic e (v_loopback v) (niclogfile v) (v_mac_lendian v)
               (v_LINKLATENCY v) dma_addr inc period (netburst v)
               rbufs wbufs m 0 0 [])
            (v_stderr v)
    end.

(** *** [init] and [tick] *)

(** How a method ends: it returns, the process exits, the busy-wait on the
    peer's sentinel never ends, or an access faults.  [Continue] is the end
    of one iteration of the loop of [tick] that is followed by another. *)
Inductive step_result : Type :=
| Continue (n : simplenic E)
| Returned (n : simplenic E)
| Exited (status : Z) (n : simplenic E)
| Spinning (n : simplenic E)
| Crashed (f : fault).

Definition set_sim (e : E) (n : simplenic E) : simplenic E :=
  SimpleNic e (loopback n) (niclog n) (mac_lendian n) (LINKLATENCY n) (dma_addr n)
    (rlimit_inc n) (rlimit_period n) (rlimit_size n) (pcis_read_bufs n)
    (pcis_write_bufs n) (shm n) (currentround n) (iter n) (trace n).

Definition set_shm (m : gmap nat (list Z)) (n : simplenic E) : simplenic E :=
  SimpleNic (sim n) (loopback n) (niclog n) (mac_lendian n) (LINKLATENCY n) (dma_addr n)
    (rlimit_inc n) (rlimit_period n) (rlimit_size n) (pcis_read_bufs n)
    (pcis_write_bufs n) m (currentround n) (iter n) (trace n).

Definition set_currentround (r : Z) (n : simplenic E) : simplenic E :=
  SimpleNic (sim n) (loopback n) (niclog n) (mac_lendian n) (LINKLATENCY n) (dma_addr n)
    (rlimit_inc n) (rlimit_period n) (rlimit_size n) (pcis_read_bufs n)
    (pcis_write_bufs n) (shm n) r (iter n) (trace n).

Definition set_iter (i : Z) (n : simplenic E) : simplenic E :=
  SimpleNic (sim n) (loopback n) (niclog n) (mac_lendian n) (LINKLATENCY n) (dma_addr n)
    (rlimit_inc n) (rlimit_period n) (rlimit_size n) (pcis_read_bufs n)
    (pcis_write_bufs n) (shm n) (currentround n) i (trace n).

Definition emit (ev : event) (n : simplenic E) : simplenic E :=
  SimpleNic (sim n) (loopback n) (niclog n) (mac_lendian n) (LINKLATENCY n) (dma_addr n)
    (rlimit_inc n) (rlimit_period n) (rlimit_size n) (pcis_read_bufs n)
    (pcis_write_bufs n) (shm n) (currentround n) (iter n) (trace n ++ [ev]).

(** [read(addr)], assigned to a [uint32_t]. *)
Definition do_read (r : mmio_reg) (n : simplenic E) : Z * simplenic E :=
  let '(v, e) := mmio_read r (sim n) in
  (u32 v, emit (EvRead r (u32 v)) (set_sim e n)).


(** [bufs[i]] for one of the two pointer arrays. *)
Definition buf_ptr (bufs : list loc) (i : Z) : res loc :=
  if decide (0 ≤ i) then
    match bufs !! Z.to_nat i with
    | Some l => Ok l
    | None => Fault OutOfBounds
    end
  else Fault OutOfBounds.

Definition window (n : simplenic E) (l : loc) : res (list Z) :=
  match shm n !! l with
  | Some w => Ok w
  | None => Fault NullPointer
  end.

(** [buf[a] = v] in the window at [l]. *)
Definition poke (l : loc) (a v : Z) (n : simplenic E) : res (simplenic E) :=
  w ← window n l;
  w' ← store_byte w a v;
  Ok (set_shm (<[l := w']> (shm n)) n).

(** [pull(dma_addr, dst, nbytes)]: the platform stores at most [nbytes]
    bytes at [dst]; the result is the value returned, as a [uint32_t]. *)
Definition do_pull (dst : loc) (nbytes : Z) (n : simplenic E) : res (Z * simplenic E) :=
  let '((data, ret), e) := dma_pull (dma_addr n) nbytes (sim n) in
  w ← window n dst;
  w' ← store_bytes w 0 (take (Z.to_nat nbytes) data);
  Ok (u32 ret, emit (EvPull dst nbytes (u32 ret))
                 (set_shm (<[dst := w']> (shm n)) (set_sim e n))).

(** [push(dma_addr, src, nbytes)] *)
Definition do_push (src : loc) (nbytes : Z) (n : simplenic E) : res (Z * simplenic E) :=
  w ← window n src;
  bs ← load_bytes w 0 nbytes;
  let '(ret, e) := dma_push (dma_addr n) bs nbytes (sim n) in
  Ok (u32 ret, emit (EvPush src nbytes (u32 ret)) (set_sim e n)).



(** The busy-wait [while ( *polladdr == 0) { ; }] on the sentinel of the
    window at [l].  The peer's store is the only thing that ends it. *)
Definition poll_sentinel (l : loc) (n : simplenic E) : res (option (simplenic E)) :=
  w ← window n l;
  match peer_publish (sim n) with
  | Some (data, e) =>
      w1 ← store_bytes w 0 (take (Z.to_nat (BUF_BYTES n)) data);
      w2 ← store_byte w1 (BUF_BYTES n) 1;
      Ok (Some (set_shm (<[l := w2]> (shm n)) (set_sim e n)))
  | None =>
      s ← load_byte w (BUF_BYTES n);
      if decide (s = 0) then Ok None else Ok (Some n)
  end.

(** One iteration of [while (true)] in [tick]; [TOKENVERIFY] is not
    defined, [DEBUG_NIC_PRINT] is (its only effect here is [iter++]). *)
Definition tick_iter (n : simplenic E) : step_result :=
  let '(output_tokens_available, n) := do_read outgoing_count n in
  let '(ic, n) := do_read incoming_count n in
  let input_token_capacity := u32 (SIMLATENCY_BT n - ic) in
  let tokens_this_round := Z.min output_tokens_available input_token_capacity in
  if decide (tokens_this_round ≠ u32 (SIMLATENCY_BT n)) then Returned n
  else
    let n := set_iter (iter n + 1) n in
    match (dst ← buf_ptr (pcis_read_bufs n) (currentround n);
           r ← do_pull dst (u32 (BUF_WIDTH_BITS * tokens_this_round)) n;
           n' ← poke dst (BUF_BYTES n) 1 r.2;
           Ok (r.1, n')) with
    | Fault f => Crashed f
    | Ok (token_bytes_obtained_from_fpga, n) =>
        if decide (token_bytes_obtained_from_fpga ≠ u32 (tokens_this_round * BUF_WIDTH_BITS))
        then Exited 1 (emit (EvPrint "ERR MISMATCH! on reading tokens out.") n)
        else
          match (src ← buf_ptr (pcis_write_bufs n) (currentround n);
                 o ← (if loopback n then Ok (Some n) else poll_sentinel src n);
                 Ok (src, o)) with
          | Fault f => Crashed f
          | Ok (_, None) => Spinning n
          | Ok (src, Some n) =>
              match (r ← do_push src (u32 (BUF_WIDTH_BITS * tokens_this_round)) n;
                     n' ← poke src (BUF_BYTES n) 0 r.2;
                     Ok (r.1, n')) with
              | Fault f => Crashed f
              | Ok (token_bytes_sent_to_fpga, n) =>
                  if decide (token_bytes_sent_to_fpga
                             ≠ u32 (tokens_this_round * BUF_WIDTH_BITS))
                  then Exited 1 (emit (EvPrint "ERR MISMATCH! on writing tokens in.") n)
                  else Continue (set_currentround ((currentround n + 1) `rem` 2) n)
              end
          end
    end.

(** [tick]: iterations until one of them ends the call. *)
Fixpoint tick (fuel : nat) (n : simplenic E) : step_result :=
  match fuel with
  | O => Crashed OutOfFuel
  | S fuel' =>
      match tick_iter n with
      | Continue n' => tick fuel' n'
      | r => r
      end
  end.

End Endpoint.

End SimpleNIC.

(** * Properties *)

Lemma foldM_app {A S : Type} (f : A → S → res S) (l1 l2 : list A) (s : S) :
  foldM f (l1 ++ l2) s = (s' ← foldM f l1 s; foldM f l2 s').
Proof.
  revert s. induction l1 as [|a l1 IH]; intros s; simpl; [done|].
  destruct (f a s) as [s'|e]; simpl; [apply IH|done].
Qed.

Lemma bind_Ok_inv {A B : Type} (f : A → res B) (m : res A) (b : B) :
  (m ≫= f) = Ok b → ∃ a, m = Ok a ∧ f a = Ok b.
Proof. destruct m as [a|e]; simpl; [eauto|done]. Qed.

(** Two bit fields that do not overlap: [|] adds them. *)
Lemma lor_shiftl_field a b n :
  0 ≤ n → 0 ≤ b < 2 ^ n → Z.lor (Z.shiftl a n) b = a * 2 ^ n + b.
Proof.
  intros Hn Hb. rewrite <- Z.shiftl_mul_pow2 by lia.
  destruct (decide (b = 0)) as [->|Hb0]; [by rewrite Z.lor_0_r, Z.add_0_r|].
  assert (Z.log2 b < n) as Hlog by (apply Z.log2_lt_pow2; lia).
  rewrite <- Z.lxor_lor, <- Z.add_nocarry_lxor; [done| |].
  all: apply Z.bits_inj'; intros k Hk; rewrite Z.land_spec, Z.bits_0.
  all: destruct (decide (k < n)); [by rewrite Z.shiftl_spec_low by lia|].
  all: by rewrite (Z.bits_above_log2 b k), andb_false_r by lia.
Qed.

(** ** The codec *)

Module FlitFacts.
Import Mem Flit.

(** A one-big-token window in which only flit 1 is marked valid
    (bit 46 of the meta word, that is bit 6 of byte 5). *)
Definition only_flit1_valid : list Z :=
  [0; 0; 0; 0; 0; 0x40; 0; 0] ++ replicate 56 0.

(** A one-big-token window with all valid and last bits clear and the
    middle bit of the triple of flit 1 set (bit 47, that is bit 7 of
    byte 5). *)
Definition middle_bit_window : list Z :=
  [0; 0; 0; 0; 0; 0x80; 0; 0] ++ replicate 56 0.

Definition deadbeef : list Z := [0xde; 0xad; 0xbe; 0xef; 0; 0; 0; 0].

(** C6: at the window in which only flit 1 is valid, the valid bit and
    the last bit of flit 0 are both clear, yet [is_valid_flit] and
    [is_last_flit] both answer true for flit 0: the observers return the
    shifted meta byte converted to [bool], so they also see every bit
    above their own in the same byte. *)
Theorem observers_see_higher_bits :
  valid_bit only_flit1_valid 0 = Ok false ∧
  last_bit only_flit1_valid 0 = Ok false ∧
  is_valid_flit only_flit1_valid 0 = Ok true ∧
  is_last_flit only_flit1_valid 0 = Ok true.
Proof. do 3 (split; [vm_compute; reflexivity|]). vm_compute. reflexivity. Qed.

(** C1: the round trip at tokenid 0 with [last = false], on a window whose
    valid and last bits are all clear but which has the middle bit of
    another triple set: the flit and the valid flag read back, the valid
    and last bits of the other flits stay clear, but [is_last_flit]
    answers true where false was written. *)
Theorem roundtrip_last_flag_lost :
  (∀ t, t ∈ seqZ 0 7 →
     valid_bit middle_bit_window t = Ok false ∧
     last_bit middle_bit_window t = Ok false) ∧
  ∃ b1 b2 b3,
    write_flit middle_bit_window 0 deadbeef = Ok b1 ∧
    write_valid_flit b1 0 = Ok b2 ∧
    write_last_flit b2 0 false = Ok b3 ∧
    get_flit b3 0 = Ok deadbeef ∧
    is_valid_flit b3 0 = Ok true ∧
    (∀ t, t ∈ seqZ 1 6 → valid_bit b3 t = Ok false ∧ last_bit b3 t = Ok false) ∧
    last_bit b3 0 = Ok false ∧
    is_last_flit b3 0 = Ok true.
Proof.
  split.
  - intros t Ht. vm_compute in Ht.
    repeat (apply elem_of_cons in Ht as [->|Ht]; [by vm_compute|]).
    by apply elem_of_nil in Ht.
  - do 3 eexists.
    do 5 (split; [vm_compute; reflexivity|]).
    split; [|split; vm_compute; reflexivity].
    intros t Ht. vm_compute in Ht.
    repeat (apply elem_of_cons in Ht as [->|Ht]; [by vm_compute|]).
    by apply elem_of_nil in Ht.
Qed.

(** The codec scenario: on a zeroed window of two big-tokens, flit 10 is
    written with its valid and last flags; all three read back, and no
    other flit of the window has a valid or last bit. *)
Example roundtrip_zeroed_window :
  ∃ b1 b2 b3,
    write_flit (replicate 128 0) 10 deadbeef = Ok b1 ∧
    write_valid_flit b1 10 = Ok b2 ∧
    write_last_flit b2 10 true = Ok b3 ∧
    get_flit b3 10 = Ok deadbeef ∧
    is_valid_flit b3 10 = Ok true ∧
    is_last_flit b3 10 = Ok true ∧
    ∀ t, t ∈ seqZ 0 14 → t ≠ 10 → valid_bit b3 t = Ok false ∧ last_bit b3 t = Ok false.
Proof.
  do 3 eexists.
  do 6 (split; [vm_compute; reflexivity|]).
  intros t Ht Hne. vm_compute in Ht.
  repeat (apply elem_of_cons in Ht as [->|Ht]; [try done; by vm_compute|]).
  by apply elem_of_nil in Ht.
Qed.

End FlitFacts.

Module CodecFacts.
Import Mem Flit.

(** The big-token of token [t] lies within the window. *)
Definition holds_token (buf : list Z) (t : Z) : Prop :=
  0 ≤ t ∧ lrv t + BIGTOKEN_SIZE_BYTES ≤ Z.of_nat (length buf).

#[global] Instance holds_token_dec buf t : Decision (holds_token buf t).
Proof. unfold holds_token. apply _. Defined.

Ltac flit_consts :=
  unfold holds_token, lrv, get_flit_ptr, valid_bitoffset, last_bitoffset,
    tok_base, tok_offset in *;
  change TOKENS_PER_BIGTOKEN with 7 in *;
  change BIGTOKEN_SIZE_BYTES with 64 in *;
  change FLIT_SIZE_BYTES with 8 in *;
  change FLIT_SIZE_BITS with 64 in *.

(** *** Loads and stores *)

Lemma load_byte_Some buf a b :
  load_byte buf a = Ok b ↔ 0 ≤ a ∧ buf !! Z.to_nat a = Some b.
Proof.
  unfold load_byte. case_decide; [|split; [done|lia]].
  destruct (buf !! Z.to_nat a); split.
  - by intros [= ->].
  - by intros [_ [= ->]].
  - done.
  - by intros [_ ?].
Qed.

Lemma load_byte_in buf a :
  0 ≤ a < Z.of_nat (length buf) → ∃ b, load_byte buf a = Ok b ∧ buf !! Z.to_nat a = Some b.
Proof.
  intros Ha. unfold load_byte. rewrite decide_True by lia.
  destruct (buf !! Z.to_nat a) as [b|] eqn:Hb; [eauto|].
  apply lookup_ge_None in Hb. lia.
Qed.

Lemma load_byte_ext buf buf' a :
  buf' !! Z.to_nat a = buf !! Z.to_nat a → load_byte buf' a = load_byte buf a.
Proof. intros Heq. unfold load_byte. by rewrite Heq. Qed.

Lemma load_bytes_ext buf buf' p n :
  length buf' = length buf →
  (∀ i : nat, p ≤ Z.of_nat i < p + n → buf' !! i = buf !! i) →
  load_bytes buf' p n = load_bytes buf p n.
Proof.
  intros Hl Heq. unfold load_bytes. rewrite Hl.
  case_decide as Hb; [|done]. f_equal.
  apply list_eq. intros i. rewrite !lookup_take, !lookup_drop.
  case_decide; [|done]. apply Heq. lia.
Qed.

Lemma peek_items_spec buf p :
  peek_items buf p
  = if decide (0 ≤ p ∧ p + 32 ≤ Z.of_nat (length buf)) then Ok () else Fault OutOfBounds.
Proof.
  unfold peek_items, load_u64, load_bytes. change FLIT_SIZE_BYTES with 8.
  repeat (case_decide; simpl); try done; lia.
Qed.

Lemma peek_items_length buf buf' p :
  length buf' = length buf → peek_items buf' p = peek_items buf p.
Proof. intros Hl. by rewrite !peek_items_spec, Hl. Qed.

Lemma store_byte_lookup buf a v buf' :
  store_byte buf a v = Ok buf' →
  0 ≤ a < Z.of_nat (length buf) ∧ length buf' = length buf ∧
  buf' !! Z.to_nat a = Some (v `mod` 256) ∧
  ∀ i : nat, i ≠ Z.to_nat a → buf' !! i = buf !! i.
Proof.
  unfold store_byte. case_decide as Ha; [|done]. intros [= <-].
  split; [done|]. split; [by rewrite length_insert|].
  split; [by rewrite list_lookup_insert_eq by lia|].
  intros i Hi. by rewrite list_lookup_insert_ne.
Qed.

Lemma store_bytes_lookup buf a bs buf' :
  store_bytes buf a bs = Ok buf' →
  0 ≤ a ∧ a + Z.of_nat (length bs) ≤ Z.of_nat (length buf) ∧
  length buf' = length buf ∧
  (∀ i : nat, (i < length bs)%nat → buf' !! (Z.to_nat a + i)%nat = bs !! i) ∧
  ∀ i : nat, ¬ (a ≤ Z.of_nat i < a + Z.of_nat (length bs)) → buf' !! i = buf !! i.
Proof.
  unfold store_bytes. case_decide as Ha; [|done]. intros [= <-].
  split; [lia|]. split; [lia|].
  split; [rewrite !length_app, length_take, length_drop; lia|].
  split.
  - intros i Hi. rewrite lookup_app_r by (rewrite length_take; lia).
    rewrite length_take. rewrite lookup_app_l by lia. f_equal. lia.
  - intros i Hi. destruct (decide (Z.of_nat i < a)).
    + rewrite lookup_app_l by (rewrite length_take; lia).
      rewrite lookup_take_lt by lia. done.
    + rewrite lookup_app_r by (rewrite length_take; lia).
      rewrite length_take. rewrite lookup_app_r by lia.
      rewrite lookup_drop. f_equal. lia.
Qed.

Lemma bytes_store_byte buf a v buf' :
  bytes buf → store_byte buf a v = Ok buf' → bytes buf'.
Proof.
  unfold store_byte, bytes. case_decide; [|done]. intros Hb [= <-].
  apply Forall_insert; [done|]. unfold is_byte. lia.
Qed.

Lemma bytes_lookup buf i b : bytes buf → buf !! i = Some b → 0 ≤ b < 256.
Proof. intros Hb Hi. by apply (Forall_lookup_1 _ _ _ _ Hb Hi). Qed.

(** *** The meta word, bit by bit *)

Lemma le_combine_testbit l k :
  bytes l → 0 ≤ k →
  Z.testbit (le_combine l) k
  = Z.testbit (default 0 (l !! Z.to_nat (k `div` 8))) (k `mod` 8).
Proof.
  intros Hl. revert k. induction Hl as [|b l Hb Hl IH]; intros k Hk.
  - simpl. by rewrite !Z.bits_0.
  - cbn [le_combine]. rewrite Z.lor_spec. unfold is_byte in Hb.
    destruct (decide (k < 8)) as [Hlt|Hge].
    + rewrite Z.shiftl_spec_low by lia. rewrite orb_false_r.
      replace (k `div` 8) with 0 by lia. replace (k `mod` 8) with k by lia. done.
    + rewrite Z.shiftl_spec by lia. rewrite IH by lia.
      rewrite <- (Z.mod_small b (2 ^ 8)) at 1 by lia.
      rewrite Z.mod_pow2_bits_high by lia. simpl.
      replace (Z.to_nat (k `div` 8)) with (S (Z.to_nat ((k - 8) `div` 8))) by lia.
      replace ((k - 8) `mod` 8) with (k `mod` 8) by lia. done.
Qed.

(** A bit of the big-token word is a bit of one byte of the window. *)
Lemma bigtoken_word_testbit buf t k :
  holds_token buf t → bytes buf → 0 ≤ k < 512 →
  ∃ w b, bigtoken_word buf t = Ok w ∧
         load_byte buf (lrv t + k `div` 8) = Ok b ∧
         Z.testbit w k = Z.testbit b (k `mod` 8).
Proof.
  intros [Ht Hin] Hb Hk. unfold bigtoken_word, load_bytes.
  assert (0 ≤ lrv t) as Hl by (flit_consts; lia).
  change BIGTOKEN_SIZE_BYTES with 64 in *.
  rewrite decide_True by lia. simpl.
  destruct (load_byte_in buf (lrv t + k `div` 8)) as (b & Hlb & Hlk); [lia|].
  eexists _, b. split; [done|]. split; [done|].
  rewrite le_combine_testbit; [|by apply Forall_take, Forall_drop|lia].
  rewrite lookup_take_lt by lia. rewrite lookup_drop.
  replace (Z.to_nat (lrv t) + Z.to_nat (k `div` 8))%nat
    with (Z.to_nat (lrv t + k `div` 8)) by lia.
  by rewrite Hlk.
Qed.

Lemma bigtoken_word_out buf t :
  0 ≤ t → ¬ holds_token buf t → bigtoken_word buf t = Fault OutOfBounds.
Proof.
  intros Ht Hn. unfold bigtoken_word, load_bytes.
  rewrite decide_False; [done|]. intros (? & ? & ?). apply Hn. split; [done|lia].
Qed.

(** Bit [k] of the big-token word of token [t]. *)
Definition word_bit (buf : list Z) (t k : Z) : res bool :=
  w ← bigtoken_word buf t; Ok (Z.testbit w k).

Lemma valid_pos t : 0 ≤ t →
  (FLIT_SIZE_BITS - TOKENS_PER_BIGTOKEN * 3) + 3 * (t `mod` TOKENS_PER_BIGTOKEN)
  = valid_bitoffset t.
Proof. intros Ht. flit_consts. lia. Qed.

Lemma last_pos t : 0 ≤ t →
  (FLIT_SIZE_BITS - TOKENS_PER_BIGTOKEN * 3) + 3 * (t `mod` TOKENS_PER_BIGTOKEN) + 2
  = last_bitoffset t.
Proof. intros Ht. flit_consts. lia. Qed.

Lemma valid_bit_word_bit buf t :
  0 ≤ t → valid_bit buf t = word_bit buf t (valid_bitoffset t).
Proof. intros Ht. unfold valid_bit, word_bit. by rewrite valid_pos. Qed.

Lemma last_bit_word_bit buf t :
  0 ≤ t → last_bit buf t = word_bit buf t (last_bitoffset t).
Proof. intros Ht. unfold last_bit, word_bit. by rewrite last_pos. Qed.

Lemma word_bit_byte buf t k :
  holds_token buf t → bytes buf → 0 ≤ k < 512 →
  ∃ b, load_byte buf (lrv t + k `div` 8) = Ok b ∧ 0 ≤ b < 256 ∧
       word_bit buf t k = Ok (Z.testbit b (k `mod` 8)).
Proof.
  intros Hh Hb Hk.
  destruct (bigtoken_word_testbit buf t k Hh Hb Hk) as (w & b & Hw & Hlb & Hbit).
  exists b. split; [done|]. split.
  - apply load_byte_Some in Hlb as [_ Hlb]. by eapply bytes_lookup.
  - unfold word_bit. rewrite Hw. simpl. by rewrite Hbit.
Qed.

Lemma word_bit_out buf t k :
  0 ≤ t → ¬ holds_token buf t → word_bit buf t k = Fault OutOfBounds.
Proof. intros Ht Hn. unfold word_bit. by rewrite bigtoken_word_out. Qed.

(** *** Setting a flag *)

Lemma set_bit_testbit b k j (s : bool) :
  0 ≤ k < 8 → 0 ≤ j < 8 →
  Z.testbit (Z.lor b (Z.shiftl (Z.b2z s) k) `mod` 256) j
  = Z.testbit b j || (s && bool_decide (j = k)).
Proof.
  intros Hk Hj. change 256 with (2 ^ 8). rewrite Z.mod_pow2_bits_low by lia.
  rewrite Z.lor_spec. f_equal. destruct s; simpl.
  - rewrite Z.shiftl_1_l, Z.pow2_bits_eqb by lia.
    case_bool_decide; [apply Z.eqb_eq|apply Z.eqb_neq]; lia.
  - by rewrite Z.shiftl_0_l, Z.bits_0.
Qed.

(** The read-modify-write of the two flag writers, at bit [pos] of the
    big-token word of token [t]: the bit is or-ed with [s]; no other bit of
    the window changes, and with [s = false] nothing does. *)
Lemma set_flag_spec buf t pos (s : bool) :
  holds_token buf t → bytes buf → 0 ≤ pos < 512 →
  ∃ b buf',
    load_byte buf (lrv t + pos `quot` 8) = Ok b ∧
    store_byte buf (lrv t + pos `quot` 8) (Z.lor b (Z.shiftl (Z.b2z s) (pos `rem` 8)))
      = Ok buf' ∧
    length buf' = length buf ∧ bytes buf' ∧
    (s = false → buf' = buf) ∧
    (∀ i : nat, i ≠ Z.to_nat (lrv t + pos `quot` 8) → buf' !! i = buf !! i) ∧
    ∀ t' k, 0 ≤ t' → 0 ≤ k < 512 →
      word_bit buf' t' k
      = (λ old, old || (s && bool_decide (lrv t' = lrv t ∧ k = pos))) <$> word_bit buf t' k.
Proof.
  intros Hh Hb Hpos.
  rewrite Z.quot_div_nonneg, Z.rem_mod_nonneg by lia.
  destruct (word_bit_byte buf t pos Hh Hb Hpos) as (b & Hlb & Hbr & _).
  pose proof Hh as [Ht Hin].
  assert (0 ≤ lrv t) as Hl0 by (flit_consts; lia).
  change BIGTOKEN_SIZE_BYTES with 64 in Hin.
  set (a := lrv t + pos `div` 8) in *.
  set (v := Z.lor b (Z.shiftl (Z.b2z s) (pos `mod` 8))).
  destruct (store_byte buf a v) as [buf'|e] eqn:Hst.
  2:{ unfold store_byte in Hst. rewrite decide_True in Hst by (unfold a; lia). done. }
  pose proof (bytes_store_byte _ _ _ _ Hb Hst) as Hb'.
  destruct (store_byte_lookup _ _ _ _ Hst) as (Ha & Hlen & Hnew & Hoth).
  pose proof Hlb as Hlb0. apply load_byte_Some in Hlb as [_ Hlk].
  exists b, buf'. split; [done|]. split; [done|].
  split; [done|]. split; [done|]. split; [|split; [done|]].
  { intros ->. unfold store_byte in Hst. rewrite decide_True in Hst by done.
    injection Hst as <-. apply list_insert_id. rewrite Hlk. f_equal.
    unfold v. simpl. rewrite Z.shiftl_0_l, Z.lor_0_r. symmetry. by apply Z.mod_small. }
  intros t' k Ht' Hk.
  destruct (decide (holds_token buf t')) as [Hh'|Hn'].
  2:{ rewrite !word_bit_out; try done. unfold holds_token in *. by rewrite Hlen. }
  assert (holds_token buf' t') as Hh'' by (unfold holds_token in *; by rewrite Hlen).
  destruct (word_bit_byte buf t' k Hh' Hb Hk) as (b1 & Hlb1 & _ & ->).
  destruct (word_bit_byte buf' t' k Hh'' Hb' Hk) as (b2 & Hlb2 & _ & ->).
  simpl. f_equal.
  apply load_byte_Some in Hlb1 as [_ Hlk1]. apply load_byte_Some in Hlb2 as [_ Hlk2].
  assert (0 ≤ lrv t') as Hl0' by (flit_consts; lia).
  assert (lrv t `mod` 64 = 0 ∧ lrv t' `mod` 64 = 0) as [Hm Hm'] by (flit_consts; lia).
  destruct (decide (lrv t' + k `div` 8 = a)) as [Heq|Hne].
  - rewrite Heq, Hnew in Hlk2. injection Hlk2 as <-.
    rewrite Heq, Hlk in Hlk1. injection Hlk1 as <-.
    unfold v. rewrite set_bit_testbit by lia. f_equal. f_equal.
    unfold a in Heq. apply bool_decide_ext. lia.
  - rewrite Hoth in Hlk2 by (unfold a in *; lia).
    rewrite Hlk1 in Hlk2. injection Hlk2 as <-.
    rewrite bool_decide_eq_false_2; [by rewrite andb_false_r, orb_false_r|].
    intros [Hl ->]. apply Hne. unfold a. lia.
Qed.

(** *** The observers *)

Lemma shiftr_nonzero_iff b k :
  0 ≤ b < 256 → 0 ≤ k < 8 →
  Z.shiftr b k ≠ 0 ↔ ∃ j, k ≤ j < 8 ∧ Z.testbit b j = true.
Proof.
  intros Hb Hk. rewrite Z.shiftr_div_pow2 by lia.
  assert (0 < 2 ^ k) by lia.
  split.
  - intros Hnz. assert (2 ^ k ≤ b) as Hle by nia.
    assert (0 < b) as Hpos by lia.
    exists (Z.log2 b). split; [|by apply Z.bit_log2].
    split; [by apply Z.log2_le_pow2|].
    apply Z.log2_lt_pow2; [done|]. change (2 ^ 8) with 256. lia.
  - intros (j & Hj & Hbit).
    assert (0 < b) as Hpos.
    { destruct (decide (b = 0)) as [->|]; [by rewrite Z.bits_0 in Hbit|lia]. }
    assert (j ≤ Z.log2 b) as Hjl.
    { destruct (decide (j ≤ Z.log2 b)); [done|].
      rewrite Z.bits_above_log2 in Hbit by lia. done. }
    assert (2 ^ k ≤ b) as Hle.
    { apply Z.log2_le_pow2; lia. }
    nia.
Qed.

(** What an observer answers, in terms of the big-token word: it sees
    the bits from position [pos] to the end of the byte that holds it. *)
Lemma observer_tail buf t pos :
  holds_token buf t → bytes buf → 40 ≤ pos < 64 →
  ∃ b v, load_byte buf (lrv t + pos `quot` 8) = Ok b ∧
    bool_decide (Z.shiftr b (pos `rem` 8) ≠ 0) = v ∧
    (v = true ↔ ∃ j, pos ≤ j < 8 * (pos `div` 8 + 1) ∧ word_bit buf t j = Ok true).
Proof.
  intros Hh Hb Hpos.
  rewrite Z.quot_div_nonneg, Z.rem_mod_nonneg by lia.
  destruct (word_bit_byte buf t pos Hh Hb ltac:(lia)) as (b & Hlb & Hbr & _).
  exists b, (bool_decide (Z.shiftr b (pos `mod` 8) ≠ 0)).
  split; [done|]. split; [done|].
  rewrite bool_decide_eq_true, shiftr_nonzero_iff by lia.
  assert (∀ j, pos ≤ j < 8 * (pos `div` 8 + 1) →
            word_bit buf t j = Ok (Z.testbit b (j `mod` 8))) as Hw.
  { intros j Hj.
    destruct (word_bit_byte buf t j Hh Hb ltac:(lia)) as (b' & Hlb' & _ & ->).
    replace (j `div` 8) with (pos `div` 8) in Hlb' by lia.
    rewrite Hlb in Hlb'. by injection Hlb' as <-. }
  split.
  - intros (i & Hi & Hbit). exists (8 * (pos `div` 8) + i).
    split; [lia|]. rewrite Hw by lia. 
    replace ((8 * (pos `div` 8) + i) `mod` 8) with i by lia. by rewrite Hbit.
  - intros (j & Hj & Hbit). exists (j `mod` 8). split; [lia|].
    rewrite Hw in Hbit by lia. by injection Hbit.
Qed.

Lemma peek_in_token buf t : holds_token buf t → peek_items buf (lrv t) = Ok ().
Proof.
  intros [Ht Hin]. rewrite peek_items_spec.
  rewrite decide_True; [done|]. flit_consts. lia.
Qed.

Lemma valid_bitoffset_bounds t : 0 ≤ t → 43 ≤ valid_bitoffset t ≤ 61.
Proof. intros Ht. flit_consts. lia. Qed.

Lemma last_bitoffset_bounds t : 0 ≤ t → 45 ≤ last_bitoffset t ≤ 63.
Proof. intros Ht. flit_consts. lia. Qed.

Lemma is_valid_flit_tail buf t :
  holds_token buf t → bytes buf →
  ∃ v, is_valid_flit buf t = Ok v ∧
    (v = true ↔ ∃ j, valid_bitoffset t ≤ j < 8 * (valid_bitoffset t `div` 8 + 1) ∧
                     word_bit buf t j = Ok true).
Proof.
  intros Hh Hb. pose proof (valid_bitoffset_bounds t (proj1 Hh)).
  destruct (observer_tail buf t (valid_bitoffset t) Hh Hb ltac:(lia))
    as (b & v & Hlb & Hv & Hiff).
  exists v. split; [|done].
  unfold is_valid_flit. rewrite peek_in_token by done. cbn [mbind res_bind].
  rewrite Hlb. cbn [mbind res_bind]. by rewrite Hv.
Qed.

Lemma is_last_flit_tail buf t :
  holds_token buf t → bytes buf →
  ∃ v, is_last_flit buf t = Ok v ∧
    (v = true ↔ ∃ j, last_bitoffset t ≤ j < 8 * (last_bitoffset t `div` 8 + 1) ∧
                     word_bit buf t j = Ok true).
Proof.
  intros Hh Hb. pose proof (last_bitoffset_bounds t (proj1 Hh)).
  destruct (observer_tail buf t (last_bitoffset t) Hh Hb ltac:(lia))
    as (b & v & Hlb & Hv & Hiff).
  exists v. split; [|done].
  unfold is_last_flit. rewrite peek_in_token by done. cbn [mbind res_bind].
  rewrite Hlb. cbn [mbind res_bind]. by rewrite Hv.
Qed.

(** The observers read only the flag bytes. *)
Lemma observers_ext buf buf' t :
  0 ≤ t → length buf' = length buf →
  (∀ i : nat, lrv t + 5 ≤ Z.of_nat i < lrv t + 8 → buf' !! i = buf !! i) →
  is_valid_flit buf' t = is_valid_flit buf t ∧ is_last_flit buf' t = is_last_flit buf t.
Proof.
  intros Ht Hl Heq. unfold is_valid_flit, is_last_flit.
  rewrite !(peek_items_length buf buf') by done.
  assert (0 ≤ lrv t) by (flit_consts; lia).
  pose proof (valid_bitoffset_bounds t Ht). pose proof (last_bitoffset_bounds t Ht).
  rewrite !(load_byte_ext buf buf'); [done| |]; apply Heq; lia.
Qed.

Lemma get_flit_ext buf buf' t :
  length buf' = length buf →
  (∀ i : nat, get_flit_ptr t ≤ Z.of_nat i < get_flit_ptr t + 8 → buf' !! i = buf !! i) →
  get_flit buf' t = get_flit buf t.
Proof. intros Hl Heq. unfold get_flit. by apply load_bytes_ext. Qed.

(** [write_flit], byte by byte. *)
Lemma write_flit_lookup buf t flit_buf :
  holds_token buf t → (8 ≤ length flit_buf)%nat →
  ∃ buf', write_flit buf t flit_buf = Ok buf' ∧ length buf' = length buf ∧
    (∀ i : nat, (i < 8)%nat →
       buf' !! (Z.to_nat (get_flit_ptr t) + i)%nat = flit_buf !! i) ∧
    (∀ i : nat, ¬ (get_flit_ptr t ≤ Z.of_nat i < get_flit_ptr t + 8) →
       buf' !! i = buf !! i).
Proof.
  intros [Ht Hin] Hfl. unfold write_flit, load_bytes.
  change (tok_base t * BIGTOKEN_SIZE_BYTES + FLIT_SIZE_BYTES * (tok_offset t + 1))
    with (get_flit_ptr t).
  change FLIT_SIZE_BYTES with 8 in *.
  rewrite decide_True by lia. cbn [mbind res_bind].
  change (Z.to_nat 0) with 0%nat. rewrite drop_0.
  destruct (store_bytes buf _ (take (Z.to_nat 8) flit_buf)) as [buf'|e] eqn:Hst.
  2:{ unfold store_bytes in Hst. rewrite decide_True in Hst; [done|].
      rewrite length_take. flit_consts. lia. }
  destruct (store_bytes_lookup _ _ _ _ Hst) as (Ha & Hb & Hl & Hnew & Hoth).
  rewrite length_take in Hnew, Hoth.
  exists buf'. split; [done|]. split; [done|]. split.
  - intros i Hi. rewrite Hnew by lia. by rewrite lookup_take_lt by lia.
  - intros i Hi. apply Hoth. lia.
Qed.

Lemma get_flit_written (buf' : list Z) t (flit_buf : list Z) :
  0 ≤ t → get_flit_ptr t + 8 ≤ Z.of_nat (length buf') → (8 ≤ length flit_buf)%nat →
  (∀ i : nat, (i < 8)%nat →
     buf' !! (Z.to_nat (get_flit_ptr t) + i)%nat = flit_buf !! i) →
  get_flit buf' t = Ok (take 8 flit_buf).
Proof.
  intros Ht Hl Hfl Hnew. unfold get_flit, load_bytes. change FLIT_SIZE_BYTES with 8.
  assert (0 ≤ get_flit_ptr t) by (flit_consts; lia).
  rewrite decide_True by lia. f_equal.
  apply list_eq. intros i. change (Z.to_nat 8) with 8%nat.
  rewrite !lookup_take, lookup_drop. case_decide; [|done]. by apply Hnew.
Qed.

(** X1: [write_flit] followed by [get_flit] at the same token returns the
    eight bytes written.  The write stays within the window, keeps its
    length, and changes neither the flit of any other token nor the answer
    of [is_valid_flit] or [is_last_flit] for any token. *)
Theorem write_flit_get_flit buf t flit_buf :
  holds_token buf t → (8 ≤ length flit_buf)%nat →
  ∃ buf', write_flit buf t flit_buf = Ok buf' ∧ length buf' = length buf ∧
    get_flit buf' t = Ok (take 8 flit_buf) ∧
    (∀ t', 0 ≤ t' → t' ≠ t → get_flit buf' t' = get_flit buf t') ∧
    (∀ t', 0 ≤ t' → is_valid_flit buf' t' = is_valid_flit buf t' ∧
                    is_last_flit buf' t' = is_last_flit buf t').
Proof.
  intros Hh Hfl.
  destruct (write_flit_lookup buf t flit_buf Hh Hfl) as (buf' & Hw & Hl & Hnew & Hoth).
  destruct Hh as [Ht Hin].
  exists buf'. split; [done|]. split; [done|]. split; [|split].
  - apply get_flit_written; [done| |done..]. rewrite Hl. flit_consts. lia.
  - intros t' Ht' Hne. apply get_flit_ext; [done|].
    intros i Hi. apply Hoth. flit_consts. lia.
  - intros t' Ht'. apply observers_ext; [done..|].
    intros i Hi. apply Hoth. flit_consts. lia.
Qed.

Lemma write_valid_flit_spec buf t :
  holds_token buf t → bytes buf →
  ∃ buf', write_valid_flit buf t = Ok buf' ∧ length buf' = length buf ∧ bytes buf' ∧
    (∀ i : nat, i ≠ Z.to_nat (lrv t + valid_bitoffset t `quot` 8) → buf' !! i = buf !! i) ∧
    ∀ t' k, 0 ≤ t' → 0 ≤ k < 512 →
      word_bit buf' t' k
      = (λ old, old || bool_decide (lrv t' = lrv t ∧ k = valid_bitoffset t))
          <$> word_bit buf t' k.
Proof.
  intros Hh Hb. pose proof (valid_bitoffset_bounds t (proj1 Hh)).
  destruct (set_flag_spec buf t (valid_bitoffset t) true Hh Hb ltac:(lia))
    as (b & buf' & Hlb & Hst & Hl & Hb' & _ & Hoth & Hbits).
  exists buf'. split; [|done].
  unfold write_valid_flit. rewrite peek_in_token by done.
  cbn [mbind res_bind]. cbv zeta. rewrite Hlb. cbn [mbind res_bind]. exact Hst.
Qed.

Lemma write_last_flit_spec buf t (l : bool) :
  holds_token buf t → bytes buf →
  ∃ buf', write_last_flit buf t l = Ok buf' ∧ length buf' = length buf ∧ bytes buf' ∧
    (l = false → buf' = buf) ∧
    (∀ i : nat, i ≠ Z.to_nat (lrv t + last_bitoffset t `quot` 8) → buf' !! i = buf !! i) ∧
    ∀ t' k, 0 ≤ t' → 0 ≤ k < 512 →
      word_bit buf' t' k
      = (λ old, old || (l && bool_decide (lrv t' = lrv t ∧ k = last_bitoffset t)))
          <$> word_bit buf t' k.
Proof.
  intros Hh Hb. pose proof (last_bitoffset_bounds t (proj1 Hh)).
  destruct (set_flag_spec buf t (last_bitoffset t) l Hh Hb ltac:(lia))
    as (b & buf' & Hlb & Hst & Hl & Hb' & Hid & Hoth & Hbits).
  exists buf'. split; [|done].
  unfold write_last_flit. rewrite peek_in_token by done.
  cbn [mbind res_bind]. cbv zeta. rewrite Hlb. cbn [mbind res_bind]. exact Hst.
Qed.

(** A flag byte is not a byte of a flit. *)
Lemma flag_not_in_flit t t' pos (i : nat) :
  0 ≤ t → 0 ≤ t' → 40 ≤ pos < 64 →
  get_flit_ptr t' ≤ Z.of_nat i < get_flit_ptr t' + 8 →
  i ≠ Z.to_nat (lrv t + pos `quot` 8).
Proof. intros Ht Ht' Hpos Hi. flit_consts. lia. Qed.

Lemma word_bit_unchanged buf buf' t k (c : bool) :
  word_bit buf' t k = (λ old, old || c) <$> word_bit buf t k → c = false →
  word_bit buf' t k = word_bit buf t k.
Proof.
  intros -> ->. destruct (word_bit buf t k) as [old|]; simpl; [|done].
  by rewrite orb_false_r.
Qed.

(** X2: [write_valid_flit] sets the valid bit of its token in the
    big-token word, after which [is_valid_flit] answers true for it; no
    other bit of the window changes: the valid bits of the other tokens,
    all last bits and all flits are as before. *)
Theorem write_valid_flit_sets_one_bit buf t :
  holds_token buf t → bytes buf →
  ∃ buf', write_valid_flit buf t = Ok buf' ∧ length buf' = length buf ∧
    valid_bit buf' t = Ok true ∧ is_valid_flit buf' t = Ok true ∧
    (∀ t' k, 0 ≤ t' → 0 ≤ k < 512 → ¬ (lrv t' = lrv t ∧ k = valid_bitoffset t) →
       word_bit buf' t' k = word_bit buf t' k) ∧
    (∀ t', 0 ≤ t' → t' ≠ t → valid_bit buf' t' = valid_bit buf t') ∧
    (∀ t', 0 ≤ t' → last_bit buf' t' = last_bit buf t' ∧
                    get_flit buf' t' = get_flit buf t').
Proof.
  intros Hh Hb. pose proof Hh as [Ht Hin].
  pose proof (valid_bitoffset_bounds t Ht) as Hv.
  destruct (write_valid_flit_spec buf t Hh Hb) as (buf' & Hw & Hl & Hb' & Hoth & Hbits).
  assert (holds_token buf' t) as Hh' by (unfold holds_token; by rewrite Hl).
  assert (word_bit buf' t (valid_bitoffset t) = Ok true) as Hset.
  { rewrite Hbits by lia.
    destruct (word_bit_byte buf t (valid_bitoffset t) Hh Hb ltac:(lia)) as (b & _ & _ & ->).
    simpl. by rewrite bool_decide_eq_true_2, orb_true_r. }
  assert (∀ t' k, 0 ≤ t' → 0 ≤ k < 512 → ¬ (lrv t' = lrv t ∧ k = valid_bitoffset t) →
            word_bit buf' t' k = word_bit buf t' k) as Hframe.
  { intros t' k Ht' Hk Hne. eapply word_bit_unchanged; [by apply Hbits|].
    by apply bool_decide_eq_false_2. }
  exists buf'. split; [done|]. split; [done|].
  split; [by rewrite valid_bit_word_bit|].
  split.
  { destruct (is_valid_flit_tail buf' t Hh' Hb') as (v & -> & Hiff). f_equal.
    apply Hiff. exists (valid_bitoffset t). split; [lia|done]. }
  split; [done|]. split.
  - intros t' Ht' Hne. rewrite !valid_bit_word_bit by done.
    pose proof (valid_bitoffset_bounds t' Ht').
    apply Hframe; [done|lia|]. flit_consts. lia.
  - intros t' Ht'. split.
    + rewrite !last_bit_word_bit by done. pose proof (last_bitoffset_bounds t' Ht').
      apply Hframe; [done|lia|]. flit_consts. lia.
    + apply get_flit_ext; [done|]. intros i Hi. apply Hoth.
      by apply (flag_not_in_flit t t'); [..|lia|].
Qed.

(** X3: [write_last_flit] or-s its argument into the last bit: the bit
    afterwards is the old bit or [is_last], so a set bit is never cleared,
    and with [is_last = false] the window is unchanged; no other bit of
    the window and no flit changes. *)
Theorem write_last_flit_ors_flag buf t (l : bool) :
  holds_token buf t → bytes buf →
  ∃ old buf', last_bit buf t = Ok old ∧ write_last_flit buf t l = Ok buf' ∧
    last_bit buf' t = Ok (old || l) ∧
    (l = false → buf' = buf) ∧
    (∀ t' k, 0 ≤ t' → 0 ≤ k < 512 → ¬ (lrv t' = lrv t ∧ k = last_bitoffset t) →
       word_bit buf' t' k = word_bit buf t' k) ∧
    (∀ t', 0 ≤ t' → get_flit buf' t' = get_flit buf t').
Proof.
  intros Hh Hb. pose proof Hh as [Ht Hin].
  pose proof (last_bitoffset_bounds t Ht) as Hv.
  destruct (write_last_flit_spec buf t l Hh Hb)
    as (buf' & Hw & Hl & Hb' & Hid & Hoth & Hbits).
  destruct (word_bit_byte buf t (last_bitoffset t) Hh Hb ltac:(lia)) as (b & _ & _ & Hold).
  exists (Z.testbit b (last_bitoffset t `mod` 8)), buf'.
  split; [by rewrite last_bit_word_bit|]. split; [done|].
  split.
  { rewrite last_bit_word_bit, Hbits, Hold by lia. simpl.
    by rewrite bool_decide_eq_true_2, andb_true_r. }
  split; [done|]. split.
  - intros t' k Ht' Hk Hne. eapply word_bit_unchanged; [by apply Hbits|].
    by rewrite bool_decide_eq_false_2, andb_false_r.
  - intros t' Ht'. apply get_flit_ext; [done|]. intros i Hi. apply Hoth.
    by apply (flag_not_in_flit t t'); [..|lia|].
Qed.

(** X4: what the observers answer, in terms of the big-token word:
    [is_valid_flit] (resp. [is_last_flit]) is true exactly when some bit
    from the valid (resp. last) bit of the token up to the end of the byte
    that holds it is set.  In particular a set flag is never missed. *)
Theorem observers_see_byte_tail buf t :
  holds_token buf t → bytes buf →
  ∃ v l, is_valid_flit buf t = Ok v ∧ is_last_flit buf t = Ok l ∧
    (v = true ↔ ∃ j, valid_bitoffset t ≤ j < 8 * (valid_bitoffset t `div` 8 + 1) ∧
                     word_bit buf t j = Ok true) ∧
    (l = true ↔ ∃ j, last_bitoffset t ≤ j < 8 * (last_bitoffset t `div` 8 + 1) ∧
                     word_bit buf t j = Ok true) ∧
    (valid_bit buf t = Ok true → v = true) ∧
    (last_bit buf t = Ok true → l = true).
Proof.
  intros Hh Hb. pose proof Hh as [Ht Hin].
  destruct (is_valid_flit_tail buf t Hh Hb) as (v & Hv & Hvi).
  destruct (is_last_flit_tail buf t Hh Hb) as (l & Hl & Hli).
  exists v, l. split; [done|]. split; [done|]. split; [done|]. split; [done|].
  pose proof (valid_bitoffset_bounds t Ht). pose proof (last_bitoffset_bounds t Ht).
  split.
  - rewrite valid_bit_word_bit by done. intros Hbit. apply Hvi.
    exists (valid_bitoffset t). split; [lia|done].
  - rewrite last_bit_word_bit by done. intros Hbit. apply Hli.
    exists (last_bitoffset t). split; [lia|done].
Qed.

Lemma word_bit_ext buf buf' t k :
  holds_token buf t → bytes buf → bytes buf' → length buf' = length buf →
  0 ≤ k < 512 →
  buf' !! Z.to_nat (lrv t + k `div` 8) = buf !! Z.to_nat (lrv t + k `div` 8) →
  word_bit buf' t k = word_bit buf t k.
Proof.
  intros Hh Hb Hb' Hl Hk Heq.
  assert (holds_token buf' t) as Hh' by (unfold holds_token in *; by rewrite Hl).
  destruct (word_bit_byte buf t k Hh Hb Hk) as (b1 & Hlb1 & _ & ->).
  destruct (word_bit_byte buf' t k Hh' Hb' Hk) as (b2 & Hlb2 & _ & ->).
  apply load_byte_Some in Hlb1 as [_ Hlk1]. apply load_byte_Some in Hlb2 as [_ Hlk2].
  rewrite Heq, Hlk1 in Hlk2. by injection Hlk2 as <-.
Qed.

Lemma bytes_write_flit buf t flit_buf buf' :
  bytes buf → bytes flit_buf → write_flit buf t flit_buf = Ok buf' → bytes buf'.
Proof.
  intros Hb Hf. unfold write_flit, load_bytes, store_bytes.
  case_decide; [|done]. cbn [mbind res_bind]. case_decide; [|done]. intros [= <-].
  unfold bytes. rewrite !Forall_app. split; [by apply Forall_take|].
  split; [by apply Forall_take, Forall_drop|by apply Forall_drop].
Qed.

(** X5: the round trip of one flit.  If the bits from the last bit of
    token [t] to the end of its byte are clear, then after [write_flit],
    [write_valid_flit] and [write_last_flit] at [t], [get_flit] returns the
    flit, [is_valid_flit] answers true and [is_last_flit] answers the flag
    written. *)
Theorem roundtrip_clean_flags buf t flit (l : bool) :
  holds_token buf t → bytes buf → bytes flit → length flit = 8%nat →
  (∀ j, last_bitoffset t ≤ j < 8 * (last_bitoffset t `div` 8 + 1) →
        word_bit buf t j = Ok false) →
  ∃ b1 b2 b3,
    write_flit buf t flit = Ok b1 ∧ write_valid_flit b1 t = Ok b2 ∧
    write_last_flit b2 t l = Ok b3 ∧
    get_flit b3 t = Ok flit ∧ is_valid_flit b3 t = Ok true ∧ is_last_flit b3 t = Ok l.
Proof.
  intros Hh Hb Hbf Hfl Hclean. pose proof Hh as [Ht Hin].
  pose proof (valid_bitoffset_bounds t Ht) as Hvb.
  pose proof (last_bitoffset_bounds t Ht) as Hlb.
  destruct (write_flit_lookup buf t flit Hh ltac:(lia)) as (b1 & Hw1 & Hl1 & Hnew1 & Hoth1).
  pose proof (bytes_write_flit _ _ _ _ Hb Hbf Hw1) as Hb1.
  assert (holds_token b1 t) as Hh1 by (unfold holds_token; by rewrite Hl1).
  destruct (write_valid_flit_spec b1 t Hh1 Hb1) as (b2 & Hw2 & Hl2 & Hb2 & Hoth2 & Hbits2).
  assert (holds_token b2 t) as Hh2 by (unfold holds_token; by rewrite Hl2, Hl1).
  destruct (write_last_flit_spec b2 t l Hh2 Hb2)
    as (b3 & Hw3 & Hl3 & Hb3 & Hid3 & Hoth3 & Hbits3).
  assert (holds_token b3 t) as Hh3 by (unfold holds_token; by rewrite Hl3, Hl2, Hl1).
  exists b1, b2, b3. split; [done|]. split; [done|]. split; [done|].
  split; [|split].
  - rewrite (get_flit_ext b2 b3), (get_flit_ext b1 b2); try done.
    + rewrite <- (take_ge flit 8) at 1 by lia.
      apply get_flit_written; [done| |lia|done]. rewrite Hl1. flit_consts. lia.
    + intros i Hi. apply Hoth2. by apply (flag_not_in_flit t t); [..|lia|].
    + intros i Hi. apply Hoth3. by apply (flag_not_in_flit t t); [..|lia|].
  - destruct (is_valid_flit_tail b3 t Hh3 Hb3) as (v & -> & Hiff). f_equal.
    apply Hiff. exists (valid_bitoffset t). split; [lia|].
    rewrite Hbits3, Hbits2 by lia.
    destruct (word_bit_byte b1 t (valid_bitoffset t) Hh1 Hb1 ltac:(lia)) as (b & _ & _ & ->).
    simpl. by rewrite bool_decide_eq_true_2, orb_true_r.
  - destruct (is_last_flit_tail b3 t Hh3 Hb3) as (v & -> & Hiff). f_equal.
    assert (∀ j, last_bitoffset t ≤ j < 8 * (last_bitoffset t `div` 8 + 1) →
              word_bit b3 t j = Ok (l && bool_decide (j = last_bitoffset t))) as Hj.
    { intros j Hj. rewrite Hbits3, Hbits2 by lia.
      rewrite (word_bit_ext buf b1 t j); try done; try lia.
      2:{ apply Hoth1. flit_consts. lia. }
      rewrite Hclean by done. simpl.
      rewrite (bool_decide_eq_false_2 (_ ∧ j = valid_bitoffset t)).
      2:{ flit_consts. lia. }
      simpl. do 2 f_equal. apply bool_decide_ext. tauto. }
    destruct l.
    + apply Hiff. exists (last_bitoffset t). split; [lia|].
      rewrite Hj by lia. by rewrite bool_decide_eq_true_2.
    + destruct v; [|done]. destruct (proj1 Hiff eq_refl) as (j & Hjr & Hbit).
      rewrite Hj in Hbit by done. done.
Qed.

(** *** The theorems at a zeroed window of one big-token *)

Lemma zero_window_holds t : 0 ≤ t < 7 → holds_token (replicate 64 0) t.
Proof. intros Ht. unfold holds_token. rewrite length_replicate. flit_consts. lia. Qed.

Lemma zero_window_bytes n : bytes (replicate n 0).
Proof. apply Forall_replicate. unfold is_byte. lia. Qed.

Lemma write_flit_get_flit_witness :
  ∃ buf', write_flit (replicate 64 0) 3 [1; 2; 3; 4; 5; 6; 7; 8] = Ok buf' ∧
          get_flit buf' 3 = Ok [1; 2; 3; 4; 5; 6; 7; 8].
Proof.
  destruct (write_flit_get_flit (replicate 64 0) 3 [1; 2; 3; 4; 5; 6; 7; 8])
    as (buf' & Hw & _ & Hg & _).
  - apply zero_window_holds. lia.
  - simpl. lia.
  - exists buf'. split; [exact Hw|exact Hg].
Defined.

Lemma write_valid_flit_sets_one_bit_witness :
  ∃ buf', write_valid_flit (replicate 64 0) 3 = Ok buf' ∧ is_valid_flit buf' 3 = Ok true.
Proof.
  destruct (write_valid_flit_sets_one_bit (replicate 64 0) 3)
    as (buf' & Hw & _ & _ & Hv & _).
  - apply zero_window_holds. lia.
  - apply zero_window_bytes.
  - exists buf'. split; [exact Hw|exact Hv].
Defined.

Lemma write_last_flit_ors_flag_witness :
  write_last_flit (replicate 64 0) 3 false = Ok (replicate 64 0).
Proof.
  destruct (write_last_flit_ors_flag (replicate 64 0) 3 false)
    as (old & buf' & _ & Hw & _ & Hid & _).
  - apply zero_window_holds. lia.
  - apply zero_window_bytes.
  - rewrite Hw. f_equal. by apply Hid.
Defined.

Lemma observers_see_byte_tail_witness :
  ∃ v l, is_valid_flit FlitFacts.only_flit1_valid 1 = Ok v ∧
         is_last_flit FlitFacts.only_flit1_valid 1 = Ok l ∧ v = true.
Proof.
  destruct (observers_see_byte_tail FlitFacts.only_flit1_valid 1)
    as (v & l & Hv & Hl & _ & _ & Hc & _).
  - unfold holds_token. vm_compute. split; congruence.
  - apply (bool_decide_unpack _). vm_compute. reflexivity.
  - exists v, l. split; [exact Hv|]. split; [exact Hl|].
    apply Hc. vm_compute. reflexivity.
Defined.

Lemma roundtrip_clean_flags_witness :
  ∃ b1 b2 b3,
    write_flit (replicate 64 0) 3 [1; 2; 3; 4; 5; 6; 7; 8] = Ok b1 ∧
    write_valid_flit b1 3 = Ok b2 ∧ write_last_flit b2 3 false = Ok b3 ∧
    get_flit b3 3 = Ok [1; 2; 3; 4; 5; 6; 7; 8] ∧
    is_valid_flit b3 3 = Ok true ∧ is_last_flit b3 3 = Ok false.
Proof.
  apply (roundtrip_clean_flags (replicate 64 0) 3 [1; 2; 3; 4; 5; 6; 7; 8] false).
  - apply zero_window_holds. lia.
  - apply zero_window_bytes.
  - apply (bool_decide_unpack _). vm_compute. reflexivity.
  - reflexivity.
  - intros j Hj. change (last_bitoffset 3) with 54 in Hj.
    assert (j = 54 ∨ j = 55) as [-> | ->] by lia; vm_compute; reflexivity.
Defined.

End CodecFacts.

(** ** Phase 1: reassembly *)

Module ReassemblyFacts.
Import Mem Flit Switch.

(** What the loop sees at token [t]: the answers of the two observers. *)
Definition seen_valid (buf : list Z) (t : Z) : bool :=
  match is_valid_flit buf t with
  | Ok b => b
  | Fault _ => false
  end.

Definition seen_last (buf : list Z) (t : Z) : bool :=
  match is_last_flit buf t with
  | Ok b => b
  | Fault _ => false
  end.

(** The window holds the big-tokens of the tokens below [n]. *)
Definition covers (buf : list Z) (n : Z) : Prop :=
  ∀ t, 0 ≤ t < n → BIGTOKEN_SIZE_BYTES * (t `div` TOKENS_PER_BIGTOKEN + 1) ≤ Z.of_nat (length buf).

(** Flits already written to the packet under reassembly when the loop
    reaches token [n], given [a0] of them at the start of the window. *)
Fixpoint pending (buf : list Z) (a0 : Z) (n : nat) : Z :=
  match n with
  | O => a0
  | S n' =>
      if seen_valid buf (Z.of_nat n') then
        if seen_last buf (Z.of_nat n') then 0 else pending buf a0 n' + 1
      else pending buf a0 n'
  end.

(** The packet under reassembly, if any, is allocated with a full-size
    buffer and has [a] flits written. *)
Definition tracks (c : config) (hp : heap * port) (a : Z) : Prop :=
  match input_in_progress hp.2 with
  | None => a = 0
  | Some sp =>
      ∃ p d, pkts hp.1 !! sp = Some p ∧ amtwritten p = a ∧
             bufs hp.1 !! dat p = Some d ∧ length d = Z.to_nat (DAT_BYTES c)
  end.

(** The scenario of a packet that starts at the second flit of the
    window: only flit 1 is valid, and it is the last of its packet. *)
Definition cfg7 : config :=
  Config 2 2 0 (λ _, 1) 190 10 7 10 1000 (λ _, 0).

Definition flit1_window : list Z :=
  [0; 0; 0; 0; 0; 0x40; 0x01; 0] ++ replicate 8 0xaa
  ++ [1; 2; 3; 4; 5; 6; 7; 8] ++ replicate 40 0.

(** A window of 201 big-tokens in each of which flit 0 is valid and not
    last: one packet of 201 flits, not finished. *)
Definition cfg1407 : config :=
  Config 2 2 0 (λ _, 1) 190 10 1407 10 1000 (λ _, 0).

Definition long_packet_window : list Z :=
  mjoin (replicate 201 ([0; 0; 0; 0; 0; 0x08; 0; 0] ++ replicate 56 0)).

Ltac consts :=
  change TOKENS_PER_BIGTOKEN with 7 in *;
  change BIGTOKEN_SIZE_BYTES with 64 in *;
  change FLIT_SIZE_BYTES with 8 in *;
  change FLIT_SIZE_BITS with 64 in *.

Lemma meta_in_window buf n t k :
  covers buf n → 0 ≤ t < n → 0 ≤ k < 64 →
  ∃ b, load_byte buf (lrv t + k) = Ok b.
Proof.
  intros Hc Ht Hk. specialize (Hc t Ht).
  unfold load_byte, lrv, tok_base. consts.
  rewrite Z.quot_div_nonneg by lia.
  rewrite decide_True by lia.
  destruct (buf !! Z.to_nat (t `div` 7 * 64 + k)) as [b|] eqn:Hb; [eauto|].
  apply lookup_ge_None in Hb. lia.
Qed.

Lemma valid_bitoffset_range t :
  0 ≤ t → 0 ≤ valid_bitoffset t `quot` 8 < 64.
Proof.
  intros Ht. unfold valid_bitoffset, tok_offset. consts.
  rewrite Z.rem_mod_nonneg by lia.
  rewrite Z.quot_div_nonneg by lia. lia.
Qed.

Lemma last_bitoffset_range t :
  0 ≤ t → 0 ≤ last_bitoffset t `quot` 8 < 64.
Proof.
  intros Ht. unfold last_bitoffset, tok_offset. consts.
  rewrite Z.rem_mod_nonneg by lia.
  rewrite Z.quot_div_nonneg by lia. lia.
Qed.

Lemma peek_in_window buf n t :
  covers buf n → 0 ≤ t < n → peek_items buf (lrv t) = Ok ().
Proof.
  intros Hc Ht. specialize (Hc t Ht).
  unfold peek_items, load_u64, load_bytes, lrv, tok_base. consts.
  rewrite Z.quot_div_nonneg by lia.
  by rewrite !decide_True by lia.
Qed.

Lemma is_valid_flit_seen buf n t :
  covers buf n → 0 ≤ t < n → is_valid_flit buf t = Ok (seen_valid buf t).
Proof.
  intros Hc Ht. unfold seen_valid, is_valid_flit.
  rewrite (peek_in_window buf n t Hc Ht). cbn [mbind res_bind].
  destruct (meta_in_window buf n t (valid_bitoffset t `quot` 8) Hc Ht) as [b ->];
    [apply valid_bitoffset_range; lia|done].
Qed.

Lemma is_last_flit_seen buf n t :
  covers buf n → 0 ≤ t < n → is_last_flit buf t = Ok (seen_last buf t).
Proof.
  intros Hc Ht. unfold seen_last, is_last_flit.
  rewrite (peek_in_window buf n t Hc Ht). cbn [mbind res_bind].
  destruct (meta_in_window buf n t (last_bitoffset t `quot` 8) Hc Ht) as [b ->];
    [apply last_bitoffset_range; lia|done].
Qed.

Lemma flit_in_window buf n t :
  covers buf n → 0 ≤ t < n →
  ∃ flit, load_bytes buf (get_flit_ptr t) FLIT_SIZE_BYTES = Ok flit ∧ length flit = 8%nat.
Proof.
  intros Hc Ht. specialize (Hc t Ht).
  unfold load_bytes, get_flit_ptr, tok_base, tok_offset. consts.
  rewrite Z.quot_div_nonneg, Z.rem_mod_nonneg by lia.
  rewrite decide_True by lia.
  eexists; split; [done|].
  rewrite length_take, length_drop. lia.
Qed.

Lemma length_store_bytes buf a bs buf' :
  store_bytes buf a bs = Ok buf' → length buf' = length buf.
Proof.
  unfold store_bytes. case_decide; [|done]. intros [= <-].
  rewrite !length_app, length_take, length_drop. lia.
Qed.

Lemma start_packet_tracks c i t h p a :
  tracks c (h, p) a →
  ∃ sp pk d,
    input_in_progress (start_packet c i t h p).2 = Some sp ∧
    pkts (start_packet c i t h p).1 !! sp = Some pk ∧
    amtwritten pk = a ∧
    bufs (start_packet c i t h p).1 !! dat pk = Some d ∧
    length d = Z.to_nat (DAT_BYTES c) ∧
    current_input_buf (start_packet c i t h p).2 = current_input_buf p.
Proof.
  unfold tracks, start_packet; simpl.
  destruct (input_in_progress p) as [sp|] eqn:Hip.
  - intros (pk & d & ? & ? & ? & ?). exists sp, pk, d. simpl. by rewrite Hip.
  - intros ->. simpl. eexists _, _, _.
    split; [done|]. rewrite lookup_insert_eq. split; [done|].
    simpl. rewrite lookup_insert_eq. split; [done|].
    split; [done|]. split; [|done]. by rewrite length_replicate.
Qed.

(** The copy of a flit to index [amtwritten] is within the packet buffer
    exactly when [amtwritten < ETH_MAX_WORDS + ETH_EXTRA_FLITS]. *)
Lemma append_flit_bounds c h sp pk d buf ptr flit :
  pkts h !! sp = Some pk →
  bufs h !! dat pk = Some d →
  length d = Z.to_nat (DAT_BYTES c) →
  load_bytes buf ptr FLIT_SIZE_BYTES = Ok flit → length flit = 8%nat →
  0 ≤ amtwritten pk →
  if decide (amtwritten pk < DAT_FLITS c) then
    ∃ h' d',
      append_flit h sp buf ptr = Ok h' ∧
      pkts h' !! sp = Some (SwitchPacket (timestamp pk) (dat pk) (amtwritten pk + 1)
                                         (amtread pk) (sender pk)) ∧
      bufs h' !! dat pk = Some d' ∧ length d' = Z.to_nat (DAT_BYTES c)
  else append_flit h sp buf ptr = Fault DatOverflow.
Proof.
  intros Hpk Hd Hlen Hflit Hfl Ha.
  unfold append_flit, get_pkt, get_buf. rewrite Hpk; simpl. rewrite Hd; simpl.
  rewrite Hflit; simpl.
  unfold DAT_BYTES in Hlen. 
  destruct (store_bytes d (amtwritten pk * FLIT_SIZE_BYTES) flit) as [d'|e] eqn:Hst; simpl.
  - pose proof (length_store_bytes _ _ _ _ Hst) as Hl'.
    unfold store_bytes in Hst. case_decide as Hb; [|done]. 
    rewrite decide_True.
    2:{ revert Hb. rewrite Hlen, Hfl. change FLIT_SIZE_BYTES with 8. lia. }
    eexists _, d'. split; [done|]. simpl. rewrite !lookup_insert_eq.
    repeat split. unfold DAT_BYTES. lia.
  - unfold store_bytes in Hst. case_decide as Hb; [done|].
    rewrite decide_False; [done|].
    revert Hb. rewrite Hlen, Hfl. change FLIT_SIZE_BYTES with 8. lia.
Qed.

Lemma reassemble_token_step c i buf n t hp a :
  covers buf n → 0 ≤ t < n → current_input_buf hp.2 = buf →
  tracks c hp a → 0 ≤ a →
  if seen_valid buf t then
    if decide (a < DAT_FLITS c) then
      ∃ hp', reassemble_token c i t hp = Ok hp' ∧
             current_input_buf hp'.2 = buf ∧
             tracks c hp' (if seen_last buf t then 0 else a + 1)
    else reassemble_token c i t hp = Fault DatOverflow
  else reassemble_token c i t hp = Ok hp.
Proof.
  intros Hc Ht Hbuf Htr Ha. destruct hp as [h p]; simpl in *.
  unfold reassemble_token; simpl. rewrite Hbuf.
  rewrite (is_valid_flit_seen buf n t Hc Ht); simpl.
  destruct (seen_valid buf t); [|done].
  destruct (start_packet_tracks c i t h p a Htr)
    as (sp & pk & d & Hip & Hpk & Hamt & Hd & Hlen & Hcur).
  destruct (start_packet c i t h p) as [h1 p1]; simpl in *.
  rewrite Hip.
  destruct (flit_in_window buf n t Hc Ht) as (flit & Hflit & Hfl).
  pose proof (append_flit_bounds c h1 sp pk d buf (get_flit_ptr t) flit
                Hpk Hd Hlen Hflit Hfl) as Happ.
  rewrite Hamt in Happ. specialize (Happ Ha).
  destruct (decide (a < DAT_FLITS c)).
  - destruct Happ as (h' & d' & -> & Hpk' & Hd' & Hlen'); simpl.
    rewrite (is_last_flit_seen buf n t Hc Ht); simpl.
    destruct (seen_last buf t).
    + eexists; split; [done|]. simpl. split; [congruence|]. by unfold tracks.
    + eexists; split; [done|]. simpl. split; [congruence|].
      unfold tracks; simpl. rewrite Hip. eexists _, d'. by repeat split.
  - by rewrite Happ.
Qed.

Lemma pending_nonneg buf a0 n : 0 ≤ a0 → 0 ≤ pending buf a0 n.
Proof.
  intros Ha. induction n as [|n IH]; simpl; [done|].
  destruct (seen_valid _ _); [destruct (seen_last _ _)|]; lia.
Qed.

(** The loop over the first [n] tokens: it carries [pending] in
    [amtwritten], and faults at the first flit that finds the buffer full. *)
Lemma reassemble_upto_spec c i buf hp a0 (n : nat) :
  covers buf (Z.of_nat n) → current_input_buf hp.2 = buf →
  tracks c hp a0 → 0 ≤ a0 →
  (∃ hp', reassemble_upto c i (Z.of_nat n) hp = Ok hp' ∧
          current_input_buf hp'.2 = buf ∧
          tracks c hp' (pending buf a0 n) ∧
          ∀ k, (k < n)%nat → seen_valid buf (Z.of_nat k) = true →
               pending buf a0 k < DAT_FLITS c)
  ∨ (reassemble_upto c i (Z.of_nat n) hp = Fault DatOverflow ∧
     ∃ k, (k < n)%nat ∧ seen_valid buf (Z.of_nat k) = true ∧
          ¬ pending buf a0 k < DAT_FLITS c).
Proof.
  intros Hc Hbuf Htr Ha. unfold reassemble_upto.
  induction n as [|n IH].
  - left. exists hp. simpl. repeat split; [done..|]. intros k Hk; lia.
  - rewrite seqZ_S, Z.add_0_l, foldM_app. simpl.
    destruct IH as [(hp1 & -> & Hbuf1 & Htr1 & Hall)|(-> & k & Hk & Hv & Hbad)].
    + intros t Ht. apply Hc. lia.
    + simpl.
      pose proof (reassemble_token_step c i buf (Z.of_nat (S n)) (Z.of_nat n) hp1
                    (pending buf a0 n) Hc ltac:(lia) Hbuf1 Htr1
                    (pending_nonneg buf a0 n Ha)) as Hstep.
      destruct (seen_valid buf (Z.of_nat n)) eqn:Hv.
      * destruct (decide (pending buf a0 n < DAT_FLITS c)) as [Hlt|Hge].
        -- destruct Hstep as (hp' & -> & Hbuf' & Htr'). left. exists hp'. simpl.
           repeat split; [done..|].
           intros k Hk Hvk. destruct (decide (k = n)) as [->|]; [done|].
           apply Hall; [lia|done].
        -- right. rewrite Hstep. split; [done|]. exists n. repeat split; [lia|done..].
      * rewrite Hstep. left. exists hp1. simpl. repeat split; [done..|].
        intros k Hk Hvk. destruct (decide (k = n)) as [->|]; [congruence|].
        apply Hall; [lia|done].
    + right. split; [done|]. exists k. repeat split; [lia|done..].
Qed.

(** A window of [BUFSIZE_BYTES] bytes covers the [NUM_TOKENS] tokens of an
    iteration when the link latency is a multiple of the big-token size. *)
Lemma covers_full_window c buf :
  0 ≤ LINKLATENCY c → LINKLATENCY c `mod` 7 = 0 →
  Z.of_nat (length buf) = BUFSIZE_BYTES c →
  covers buf (NUM_TOKENS c).
Proof.
  unfold covers, BUFSIZE_BYTES, NUM_BIGTOKENS, NUM_TOKENS. consts.
  intros Hl Hm -> t Ht. rewrite Z.quot_div_nonneg by lia. lia.
Qed.

(** C2: in the window in which only flit 1 is marked valid (and last),
    phase 1 consumes flit 0 as well: [is_valid_flit] and [is_last_flit]
    answer true for it, so a one-flit packet with the bytes of the invalid
    flit 0 and the timestamp of token 0 is queued ahead of the packet of
    flit 1. *)
Theorem invalid_flit_reassembled :
  valid_bit flit1_window 0 = Ok false ∧
  valid_bit flit1_window 1 = Ok true ∧
  last_bit flit1_window 1 = Ok true ∧
  get_flit flit1_window 0 = Ok (replicate 8 0xaa) ∧
  get_flit flit1_window 1 = Ok [1; 2; 3; 4; 5; 6; 7; 8] ∧
  ∃ h p,
    reassemble cfg7 0 (Heap ∅ ∅, Port flit1_window [] None [] []) = Ok (h, p) ∧
    input_in_progress p = None ∧
    inputqueue p = [0%nat; 1%nat] ∧
    pkts h !! 0%nat = Some (SwitchPacket 1010 0 1 0 0) ∧
    take 8 <$> bufs h !! 0%nat = Some (replicate 8 0xaa) ∧
    pkts h !! 1%nat = Some (SwitchPacket 1011 1 1 0 0) ∧
    take 8 <$> bufs h !! 1%nat = Some [1; 2; 3; 4; 5; 6; 7; 8].
Proof.
  do 5 (split; [vm_compute; reflexivity|]).
  eexists _, _. split; [vm_compute; reflexivity|].
  do 5 (split; [vm_compute; reflexivity|]). vm_compute. reflexivity.
Qed.

(** The window [long_packet_window] is a full window of its configuration,
    and phase 1 writes past the packet buffer on it: the 201st flit of the
    packet is copied to index 200 of a buffer of 200 flits. *)
Lemma long_packet_overflows :
  Z.of_nat (length long_packet_window) = BUFSIZE_BYTES cfg1407 ∧
  DAT_FLITS cfg1407 = 200 ∧
  reassemble cfg1407 0 (Heap ∅ ∅, Port long_packet_window [] None [] [])
    = Fault DatOverflow.
Proof.
  split; [vm_compute; reflexivity|]. split; [vm_compute; reflexivity|].
  vm_compute. reflexivity.
Qed.

(** C10, amended: phase 1 does not check the write index.  The index of
    the copy made at token [t] is [pending] at [t], the number of flits
    consumed for the packet under reassembly.  If that number is below
    [ETH_MAX_WORDS + ETH_EXTRA_FLITS] at every consumed flit of the window,
    every copy is within the packet buffer and the loop completes;
    otherwise a copy falls outside the buffer. *)
Theorem reassembly_in_bounds_iff c i hp a0 :
  0 ≤ NUM_TOKENS c →
  covers (current_input_buf hp.2) (NUM_TOKENS c) →
  tracks c hp a0 → 0 ≤ a0 →
  let buf := current_input_buf hp.2 in
  let fits := ∀ t, 0 ≤ t < NUM_TOKENS c → seen_valid buf t = true →
                   pending buf a0 (Z.to_nat t) < DAT_FLITS c in
  (fits → ∃ hp', reassemble c i hp = Ok hp' ∧
                 tracks c hp' (pending buf a0 (Z.to_nat (NUM_TOKENS c))))
  ∧ (¬ fits → reassemble c i hp = Fault DatOverflow).
Proof.
  intros Hn Hc Htr Ha buf fits. unfold reassemble.
  rewrite <- (Z2Nat.id (NUM_TOKENS c)) in Hc |- * by done.
  destruct (reassemble_upto_spec c i buf hp a0 (Z.to_nat (NUM_TOKENS c)) Hc eq_refl Htr Ha)
    as [(hp' & Hr & _ & Htr' & Hall)|(Hr & k & Hk & Hv & Hbad)].
  - split.
    + intros _. exists hp'. rewrite Nat2Z.id. by split.
    + intros Hnf. destruct Hnf. intros t Ht Hv.
      apply Hall; [lia|]. by rewrite Z2Nat.id by lia.
  - split.
    + intros Hf. destruct Hbad. rewrite <- (Nat2Z.id k). apply Hf; [lia|done].
    + done.
Qed.

Lemma reassembly_in_bounds_witness :
  ∃ hp', reassemble cfg7 0 (Heap ∅ ∅, Port flit1_window [] None [] []) = Ok hp'
         ∧ tracks cfg7 hp' 0.
Proof.
  refine (proj1 (reassembly_in_bounds_iff cfg7 0
                   (Heap ∅ ∅, Port flit1_window [] None [] []) 0 _ _ _ _) _).
  - vm_compute; congruence.
  - intros t Ht. change (NUM_TOKENS cfg7) with 7 in Ht. simpl.
    change (length flit1_window) with 64%nat.
    change TOKENS_PER_BIGTOKEN with 7. change BIGTOKEN_SIZE_BYTES with 64. lia.
  - reflexivity.
  - lia.
  - intros t Ht Hv. change (NUM_TOKENS cfg7) with 7 in Ht.
    assert (t = 0 ∨ t = 1 ∨ t = 2 ∨ t = 3 ∨ t = 4 ∨ t = 5 ∨ t = 6) as Hcases by lia.
    destruct Hcases as [->|[->|[->|[->|[->|[->| ->]]]]]]; vm_compute; reflexivity.
Defined.

End ReassemblyFacts.

(** ** The priority queue, the MAC lookup and routing *)

Module RoutingFacts.
Import Mem Flit Switch.

(** What the code takes for granted of switchconfig.h and of [rand()]:
    the table maps every 16-bit MAC suffix to a port of the switch, port
    numbers stay below the broadcast sentinel, [rand()] is not negative,
    and a packet buffer holds at least the four flits that the
    diagnostics of [get_port_from_flit] read. *)
Record wf_config (c : config) : Prop := WfConfig {
  wf_down : 0 ≤ NUMDOWNLINKS c;
  wf_up : 0 ≤ NUMUPLINKS c;
  wf_numports : NUMPORTS c = NUMDOWNLINKS c + NUMUPLINKS c;
  wf_u16 : NUMPORTS c ≤ 0xffff;
  wf_mac2port : ∀ m, 0 ≤ m < 2 ^ 16 → 0 ≤ mac2port c m < NUMPORTS c;
  wf_rand : ∀ k, 0 ≤ rand c k;
  wf_dat : 4 ≤ DAT_FLITS c }.

(** The destination of a first flit, as the data model gives it: the 16
    bits [48, 64) of the first word, with their two bytes swapped. *)
Definition dest_mac_low (w : Z) : Z :=
  let x := (w `div` 2 ^ 48) `mod` 2 ^ 16 in
  (x `mod` 2 ^ 8) * 2 ^ 8 + x `div` 2 ^ 8.

(** The ports that receive a copy of a broadcast sent by [snd]. *)
Definition bcast_targets (c : config) (snd : Z) : list Z :=
  filter (λ i, i ≠ snd) (seqZ 0 (NUMDOWNLINKS c + ADDUPLINK c)).

(** *** The reference queue obeys the contract *)

Lemma list_top_None l : list_top l = None ↔ l = [].
Proof.
  destruct l as [|x l]; simpl; [done|].
  destruct (list_top l); [destruct (tspacket_lt _ _)|]; done.
Qed.

Lemma list_top_pop l x : list_top l = Some x → l ≡ₚ x :: list_pop l.
Proof.
  revert x. induction l as [|a l IH]; intros x; simpl; [done|].
  destruct (list_top l) as [y|] eqn:Hy.
  - destruct (tspacket_lt a y); intros [= <-]; [|done].
    rewrite (IH y eq_refl) at 1. apply perm_swap.
  - intros [= <-]. apply list_top_None in Hy. by subst.
Qed.

Lemma list_top_greatest l x y :
  list_top l = Some x → y ∈ l → tspacket_lt x y = false.
Proof.
  unfold tspacket_lt. revert x. induction l as [|a l IH]; intros x; simpl; [done|].
  destruct (list_top l) as [m|] eqn:Hm.
  - specialize (IH m eq_refl).
    destruct (tspacket_lt a m) eqn:Ham; unfold tspacket_lt in Ham;
      intros [= <-]; intros [->|Hy]%elem_of_cons.
    + apply bool_decide_eq_true in Ham. apply bool_decide_eq_false. lia.
    + by apply IH.
    + apply bool_decide_eq_false. lia.
    + apply bool_decide_eq_false in Ham.
      specialize (IH Hy). apply bool_decide_eq_false in IH.
      apply bool_decide_eq_false. lia.
  - intros [= <-]. apply list_top_None in Hm. subst l.
    intros ->%list_elem_of_singleton. apply bool_decide_eq_false. lia.
Qed.

Lemma list_pq_lawful : pq_lawful (list tspacket).
Proof.
  constructor; simpl.
  - done.
  - intros q. by rewrite bool_decide_eq_true.
  - intros x q. by rewrite Permutation_app_comm.
  - apply list_top_None.
  - apply list_top_pop.
  - apply list_top_greatest.
Qed.

(** *** [get_port_from_flit] *)

Lemma land_1_testbit w : Z.land (Z.shiftr w 16) 1 = Z.b2z (Z.testbit w 16).
Proof.
  change 1 with (Z.ones 1). rewrite Z.land_ones by lia.
  change (2 ^ 1) with 2. rewrite <- Z.bit0_mod.
  by rewrite Z.shiftr_spec by lia.
Qed.

Lemma lor_shiftl_low a b :
  0 ≤ b < 2 ^ 8 → Z.lor (Z.shiftl a 8) b = a * 2 ^ 8 + b.
Proof. intros Hb. by apply lor_shiftl_field. Qed.

Lemma bswap16_arith x :
  0 ≤ x < 2 ^ 16 → bswap16 x = (x `mod` 2 ^ 8) * 2 ^ 8 + x `div` 2 ^ 8.
Proof.
  intros Hx. unfold bswap16.
  change 255 with (Z.ones 8). rewrite !Z.land_ones by lia.
  rewrite Z.shiftr_div_pow2 by lia.
  rewrite lor_shiftl_low by lia.
  rewrite (Z.mod_small (x `div` 2 ^ 8)) by lia. done.
Qed.

Lemma land_ffff x : Z.land x 65535 = x `mod` 2 ^ 16.
Proof. change 65535 with (Z.ones 16). by rewrite Z.land_ones by lia. Qed.

Lemma flit_low_arith w :
  Z.land (Z.shiftr w 48) 65535 `mod` 2 ^ 16 = (w `div` 2 ^ 48) `mod` 2 ^ 16.
Proof.
  rewrite land_ffff, Z.shiftr_div_pow2 by lia. by rewrite Z.mod_mod by lia.
Qed.

Lemma dest_mac_low_range w : 0 ≤ dest_mac_low w < 2 ^ 16.
Proof. unfold dest_mac_low. lia. Qed.

(** What [get_port_from_flit] computes from the first word [w] of a
    packet, for a well-formed configuration. *)
Lemma peek_items_first flit_buf :
  (32 ≤ length flit_buf)%nat → peek_items flit_buf 0 = Ok ().
Proof.
  intros Hl. unfold peek_items, load_u64, load_bytes. change FLIT_SIZE_BYTES with 8.
  by rewrite !decide_True by lia.
Qed.

Lemma load_u64_first flit_buf :
  (8 ≤ length flit_buf)%nat →
  load_u64 flit_buf 0 = Ok (le_combine (take 8 flit_buf)).
Proof.
  intros Hl. unfold load_u64, load_bytes.
  rewrite decide_True by lia. done.
Qed.

Lemma get_port_from_flit_spec c flit_buf current_port k :
  wf_config c →
  (32 ≤ length flit_buf)%nat →
  let w := le_combine (take 8 flit_buf) in
  ∃ port k',
    get_port_from_flit c flit_buf current_port k = Ok (port, k') ∧
    0 ≤ port ≤ 0xffff ∧
    (port = BROADCAST_ADJUSTED ↔ Z.testbit w 16 = true) ∧
    (Z.testbit w 16 = false →
       (mac2port c (dest_mac_low w) ≠ NUMDOWNLINKS c →
          port = mac2port c (dest_mac_low w) ∧ k' = k) ∧
       (mac2port c (dest_mac_low w) = NUMDOWNLINKS c →
          port = NUMDOWNLINKS c + rand c k `mod` NUMUPLINKS c ∧ k' = S k) ∧
       0 ≤ port < NUMPORTS c).
Proof.
  intros Hwf Hl w. unfold get_port_from_flit.
  rewrite (peek_items_first flit_buf Hl). cbn [mbind res_bind].
  rewrite (load_u64_first flit_buf) by lia. cbn [mbind res_bind]. fold w.
  rewrite land_1_testbit, flit_low_arith.
  pose proof (dest_mac_low_range w) as Hm.
  rewrite bswap16_arith by lia. fold (dest_mac_low w).
  rewrite land_ffff.
  rewrite (Z.mod_small (dest_mac_low w)) by done.
  pose proof (wf_mac2port c Hwf _ Hm) as Hp.
  pose proof (wf_u16 c Hwf) as Hu. pose proof (wf_numports c Hwf) as Hn.
  pose proof (wf_down c Hwf) as Hd. pose proof (wf_up c Hwf) as Hup.
  rewrite (Z.mod_small (mac2port c (dest_mac_low w))) by lia.
  unfold BROADCAST_ADJUSTED.
  rewrite (Z.mod_small (Z.b2z _)) by (destruct (Z.testbit w 16); simpl; lia).
  destruct (Z.testbit w 16) eqn:Hbit; cbn [Z.b2z].
  - rewrite decide_True by done.
    eexists _, _. split; [done|]. split; [lia|]. split; [done|]. done.
  - rewrite decide_False by lia.
    destruct (decide (mac2port c (dest_mac_low w) = NUMDOWNLINKS c)) as [Heq|Hne].
    + rewrite decide_False by lia.
      pose proof (wf_rand c Hwf k) as Hr.
      rewrite Z.rem_mod_nonneg by lia.
      rewrite Z.mod_small by lia.
      eexists _, _. split; [done|]. split; [lia|]. split; [split; [lia|done]|].
      intros _. split; [done|]. split; [intros _; split; [lia|done]|lia].
    + eexists _, _. split; [done|]. split; [lia|]. split; [split; [lia|done]|].
      intros _. split; [done|]. split; [done|lia].
Qed.

(** The configuration of the unicast scenario: four downlinks, no uplink,
    MAC suffix 0x0201 on port 2. *)
Definition cfg4 : config :=
  Config 4 4 0 (λ m, if decide (m = 0x0201) then 2 else 0) 190 10 7 10 1000 (λ _, 0).

Lemma cfg4_wf : wf_config cfg4.
Proof.
  constructor; simpl; try lia; try done.
  intros m _. case_decide; lia.
Qed.

(** A first flit whose word has bit 16 clear and 0x0102 in bits [48, 64). *)
Definition flit_to_0201 : list Z := [0; 0; 0; 0; 0; 0; 0x02; 0x01] ++ replicate 24 0.

(** C5: for a well-formed configuration and a buffer that holds a first
    flit, [get_port_from_flit] returns the broadcast sentinel exactly when
    bit 16 of the first word is set; otherwise it returns the table entry
    of [dest_mac_low] when that entry is not [NUMDOWNLINKS], and a port of
    the uplink range when it is. *)
Theorem get_port_from_flit_correct c flit_buf current_port k :
  wf_config c → (32 ≤ length flit_buf)%nat →
  let w := le_combine (take 8 flit_buf) in
  ∃ port k',
    get_port_from_flit c flit_buf current_port k = Ok (port, k') ∧
    (port = BROADCAST_ADJUSTED ↔ Z.testbit w 16 = true) ∧
    (Z.testbit w 16 = false →
       if decide (mac2port c (dest_mac_low w) = NUMDOWNLINKS c)
       then NUMDOWNLINKS c ≤ port < NUMDOWNLINKS c + NUMUPLINKS c
       else port = mac2port c (dest_mac_low w)).
Proof.
  intros Hwf Hl w.
  destruct (get_port_from_flit_spec c flit_buf current_port k Hwf Hl)
    as (port & k' & Heq & _ & Hb & Hu). fold w in Hb, Hu.
  exists port, k'. split; [done|]. split; [done|].
  intros Hbit. destruct (Hu Hbit) as (Hne & He & Hr).
  case_decide as Hd.
  - destruct (He Hd) as [-> _].
    pose proof (wf_rand c Hwf k). pose proof (wf_up c Hwf).
    pose proof (wf_mac2port c Hwf _ (dest_mac_low_range w)).
    pose proof (wf_numports c Hwf). lia.
  - by destruct (Hne Hd).
Qed.

Lemma get_port_from_flit_witness :
  ∃ k', get_port_from_flit cfg4 flit_to_0201 0 0 = Ok (2, k').
Proof.
  destruct (get_port_from_flit_correct cfg4 flit_to_0201 0 0 cfg4_wf)
    as (port & k' & Heq & _ & Hu).
  - simpl. lia.
  - exists k'. rewrite Heq. f_equal. f_equal.
    specialize (Hu ltac:(vm_compute; reflexivity)).
    rewrite decide_False in Hu by (vm_compute; congruence).
    rewrite Hu. vm_compute. reflexivity.
Defined.

(** *** Routing one packet *)

Lemma get_port_Ok s i :
  0 ≤ i < Z.of_nat (length (ports s)) → ∃ cp, get_port s i = Ok cp ∧ ports s !! Z.to_nat i = Some cp.
Proof.
  intros Hi. unfold get_port. rewrite decide_True by lia.
  destruct (ports s !! Z.to_nat i) as [cp|] eqn:Hcp; [eauto|].
  apply lookup_ge_None in Hcp. lia.
Qed.

Lemma push_output_Ok i sp ts s :
  0 ≤ i < Z.of_nat (length (ports s)) →
  ∃ cp, ports s !! Z.to_nat i = Some cp ∧
        push_output i sp ts s =
          Ok (SwitchState
                (<[Z.to_nat i := set_outputqueue (outputqueue cp ++ [sp]) cp]> (ports s))
                (mem s) (rand_calls s) (pushlog s ++ [PushEvent i sp ts])).
Proof.
  intros Hi. destruct (get_port_Ok s i Hi) as (cp & Hg & Hcp).
  exists cp. split; [done|]. unfold push_output. by rewrite Hg.
Qed.

(** The packets appended to the output queue of port [j]. *)
Definition copies_for (j : Z) (copies : list (Z * loc * loc)) : list loc :=
  omap (λ x, if decide (x.1.1 = j) then Some x.1.2 else None) copies.

(** [s'] is [s] after the broadcast loop has made the copies [copies]
    (target port, packet, buffer) of the packet [p] with buffer [d]. *)
Record copied (p : switchpacket) (d : list Z) (s s' : switch)
    (copies : list (Z * loc * loc)) : Prop := Copied {
  cp_rand : rand_calls s' = rand_calls s;
  cp_log : pushlog s' =
           pushlog s ++ ((λ x, PushEvent x.1.1 x.1.2 (timestamp p)) <$> copies);
  cp_len : length (ports s') = length (ports s);
  cp_ports : ∀ j cp, ports s !! j = Some cp →
      ports s' !! j =
        Some (set_outputqueue (outputqueue cp ++ copies_for (Z.of_nat j) copies) cp);
  cp_pkts_mono : ∀ l x, pkts (mem s) !! l = Some x → pkts (mem s') !! l = Some x;
  cp_bufs_mono : ∀ l x, bufs (mem s) !! l = Some x → bufs (mem s') !! l = Some x;
  cp_pkts_other : ∀ l, l ∉ copies.*1.*2 → pkts (mem s') !! l = pkts (mem s) !! l;
  cp_bufs_other : ∀ l, l ∉ copies.*2 → bufs (mem s') !! l = bufs (mem s) !! l;
  cp_fresh : Forall (λ x,
      pkts (mem s) !! x.1.2 = None ∧ bufs (mem s) !! x.2 = None ∧
      pkts (mem s') !! x.1.2 =
        Some (SwitchPacket (timestamp p) x.2 (amtwritten p) (amtread p) (sender p)) ∧
      bufs (mem s') !! x.2 = Some d) copies;
  cp_nodup_pkt : NoDup copies.*1.*2;
  cp_nodup_dat : NoDup copies.*2 }.

Lemma set_outputqueue_app q1 q2 cp :
  set_outputqueue (outputqueue (set_outputqueue q1 cp) ++ q2) (set_outputqueue q1 cp)
  = set_outputqueue (q1 ++ q2) cp.
Proof. done. Qed.

Lemma set_outputqueue_id cp : set_outputqueue (outputqueue cp ++ []) cp = cp.
Proof. destruct cp. unfold set_outputqueue. simpl. by rewrite app_nil_r. Qed.

Lemma copied_refl p d s : copied p d s s [].
Proof.
  constructor; simpl; try done.
  - by rewrite app_nil_r.
  - intros j cp Hj. by rewrite set_outputqueue_id.
  - constructor.
  - constructor.
Qed.

(** One iteration of the broadcast loop. *)
Lemma broadcast_copy_step c tsp p d i s :
  pkts (mem s) !! tsp = Some p →
  bufs (mem s) !! dat p = Some d →
  length d = Z.to_nat (DAT_BYTES c) → 0 ≤ DAT_BYTES c →
  0 ≤ i < Z.of_nat (length (ports s)) →
  ∃ s', broadcast_copy c tsp i s = Ok s' ∧
        copied p d s s'
          (if decide (i ≠ sender p)
           then [(i, fresh (dom (pkts (mem s))), fresh (dom (bufs (mem s))))]
           else []).
Proof.
  intros Hp Hd Hlen Hpos Hi. unfold broadcast_copy, get_pkt, get_buf.
  rewrite Hp; simpl. case_decide as Hne; [|exists s; split; [done|apply copied_refl]].
  rewrite Hd; simpl.
  unfold load_bytes. rewrite decide_True by lia. simpl.
  rewrite drop_0, take_ge by lia.
  set (q := fresh (dom (pkts (mem s)))). set (d2 := fresh (dom (bufs (mem s)))).
  assert (pkts (mem s) !! q = None) as Hq
    by (apply not_elem_of_dom; apply is_fresh).
  assert (bufs (mem s) !! d2 = None) as Hd2
    by (apply not_elem_of_dom; apply is_fresh).
  match goal with |- context [push_output i q ?ts ?st] =>
    destruct (push_output_Ok i q ts st) as (cp & Hcp & ->) end; [simpl; lia|].
  simpl in Hcp. eexists; split; [done|].
  constructor; simpl.
  - done.
  - done.
  - by rewrite length_insert.
  - intros j cp' Hj. unfold copies_for; simpl.
    destruct (decide (Z.to_nat i = j)) as [<-|Hji].
    + rewrite list_lookup_insert_eq by (apply lookup_lt_is_Some; eauto).
      rewrite decide_True by lia. congruence.
    + rewrite list_lookup_insert_ne by done.
      rewrite decide_False by lia. by rewrite set_outputqueue_id.
  - intros l x Hl. rewrite insert_insert_eq.
    rewrite lookup_insert_ne; [done|congruence].
  - intros l x Hl. rewrite lookup_insert_ne; [done|congruence].
  - intros l Hl. rewrite insert_insert_eq.
    rewrite lookup_insert_ne; [done|]. intros <-. apply Hl. by left.
  - intros l Hl. rewrite lookup_insert_ne; [done|]. intros <-. apply Hl. by left.
  - constructor; [|constructor]. simpl.
    rewrite insert_insert_eq, !lookup_insert_eq. done.
  - apply NoDup_singleton.
  - apply NoDup_singleton.
Qed.

Lemma copies_for_app j cs1 cs2 :
  copies_for j (cs1 ++ cs2) = copies_for j cs1 ++ copies_for j cs2.
Proof. unfold copies_for. apply omap_app. Qed.

Lemma copied_trans p d s s1 s2 cs1 cs2 :
  copied p d s s1 cs1 → copied p d s1 s2 cs2 → copied p d s s2 (cs1 ++ cs2).
Proof.
  intros H1 H2.
  pose proof (cp_fresh _ _ _ _ _ H1) as Hf1. pose proof (cp_fresh _ _ _ _ _ H2) as Hf2.
  rewrite Forall_forall in Hf1, Hf2.
  constructor.
  - rewrite (cp_rand _ _ _ _ _ H2). apply (cp_rand _ _ _ _ _ H1).
  - rewrite (cp_log _ _ _ _ _ H2), (cp_log _ _ _ _ _ H1), fmap_app. by rewrite app_assoc.
  - rewrite (cp_len _ _ _ _ _ H2). apply (cp_len _ _ _ _ _ H1).
  - intros j cp Hj.
    rewrite (cp_ports _ _ _ _ _ H2 j _ (cp_ports _ _ _ _ _ H1 j cp Hj)).
    rewrite set_outputqueue_app, copies_for_app. by rewrite app_assoc.
  - intros l x Hl. by apply (cp_pkts_mono _ _ _ _ _ H2), (cp_pkts_mono _ _ _ _ _ H1).
  - intros l x Hl. by apply (cp_bufs_mono _ _ _ _ _ H2), (cp_bufs_mono _ _ _ _ _ H1).
  - intros l Hl. rewrite !fmap_app in Hl. apply not_elem_of_app in Hl as [Hl1 Hl2].
    rewrite (cp_pkts_other _ _ _ _ _ H2) by done. by apply (cp_pkts_other _ _ _ _ _ H1).
  - intros l Hl. rewrite !fmap_app in Hl. apply not_elem_of_app in Hl as [Hl1 Hl2].
    rewrite (cp_bufs_other _ _ _ _ _ H2) by done. by apply (cp_bufs_other _ _ _ _ _ H1).
  - apply Forall_app. split; apply Forall_forall; intros x Hx.
    + destruct (Hf1 x Hx) as (? & ? & ? & ?). repeat split; [done..| |].
      * by apply (cp_pkts_mono _ _ _ _ _ H2).
      * by apply (cp_bufs_mono _ _ _ _ _ H2).
    + destruct (Hf2 x Hx) as (Hn1 & Hn2 & ? & ?). repeat split; [| |done..].
      * destruct (pkts (mem s) !! x.1.2) eqn:E; [|done].
        apply (cp_pkts_mono _ _ _ _ _ H1) in E. congruence.
      * destruct (bufs (mem s) !! x.2) eqn:E; [|done].
        apply (cp_bufs_mono _ _ _ _ _ H1) in E. congruence.
  - rewrite !fmap_app. apply NoDup_app. split; [apply (cp_nodup_pkt _ _ _ _ _ H1)|].
    split; [|apply (cp_nodup_pkt _ _ _ _ _ H2)].
    intros q (x1 & -> & Hx1)%list_elem_of_fmap (x2 & Heq & Hx2)%list_elem_of_fmap.
    apply list_elem_of_fmap in Hx1 as (x1' & -> & Hx1).
    apply list_elem_of_fmap in Hx2 as (x2' & -> & Hx2).
    destruct (Hf1 x1' Hx1) as (_ & _ & Hs1 & _).
    destruct (Hf2 x2' Hx2) as (Hn & _). rewrite <- Heq in Hn. congruence.
  - rewrite !fmap_app. apply NoDup_app. split; [apply (cp_nodup_dat _ _ _ _ _ H1)|].
    split; [|apply (cp_nodup_dat _ _ _ _ _ H2)].
    intros q (x1 & -> & Hx1)%list_elem_of_fmap (x2 & Heq & Hx2)%list_elem_of_fmap.
    destruct (Hf1 x1 Hx1) as (_ & _ & _ & Hs1).
    destruct (Hf2 x2 Hx2) as (_ & Hn & _). rewrite <- Heq in Hn. congruence.
Qed.

(** The broadcast loop over the target ports [l]. *)
Lemma broadcast_loop c tsp p d l s :
  pkts (mem s) !! tsp = Some p →
  bufs (mem s) !! dat p = Some d →
  length d = Z.to_nat (DAT_BYTES c) → 0 ≤ DAT_BYTES c →
  Forall (λ i, 0 ≤ i < Z.of_nat (length (ports s))) l →
  ∃ s' copies,
    foldM (broadcast_copy c tsp) l s = Ok s' ∧
    copied p d s s' copies ∧
    copies.*1.*1 = filter (λ i, i ≠ sender p) l.
Proof.
  intros Hp Hd Hlen Hpos. revert s Hp Hd.
  induction l as [|i l IH]; intros s Hp Hd Hl.
  - exists s, []. split; [done|]. split; [apply copied_refl|done].
  - apply Forall_cons in Hl as [Hi Hl]. simpl.
    destruct (broadcast_copy_step c tsp p d i s Hp Hd Hlen Hpos Hi) as (s1 & -> & H1).
    simpl.
    destruct (IH s1) as (s2 & cs & -> & H2 & Hcs).
    + by apply (cp_pkts_mono _ _ _ _ _ H1).
    + by apply (cp_bufs_mono _ _ _ _ _ H1).
    + by rewrite (cp_len _ _ _ _ _ H1).
    + eexists _, _. split; [done|]. split; [by eapply copied_trans|].
      rewrite !fmap_app, Hcs, filter_cons. by case_decide.
Qed.

Lemma bcast_targets_spec c snd i :
  i ∈ bcast_targets c snd ↔ 0 ≤ i < NUMDOWNLINKS c + ADDUPLINK c ∧ i ≠ snd.
Proof.
  unfold bcast_targets. rewrite list_elem_of_filter, elem_of_seqZ.
  split; intros [H1 H2]; (split; [|done]); lia.
Qed.

Lemma bcast_targets_NoDup c snd : NoDup (bcast_targets c snd).
Proof. apply NoDup_filter, NoDup_seqZ. Qed.

Lemma adduplink_bound c : wf_config c → NUMDOWNLINKS c + ADDUPLINK c ≤ NUMPORTS c.
Proof.
  intros Hwf. rewrite (wf_numports c Hwf). pose proof (wf_up c Hwf).
  unfold ADDUPLINK. case_decide; lia.
Qed.

Lemma copies_for_absent i (copies : list (Z * loc * loc)) :
  i ∉ copies.*1.*1 → copies_for i copies = [].
Proof.
  induction copies as [|x cs IH]; [done|].
  rewrite !fmap_cons, not_elem_of_cons. intros [Hne Hi].
  unfold copies_for; simpl. rewrite decide_False by done. by apply IH.
Qed.

Lemma copies_for_present i (copies : list (Z * loc * loc)) :
  NoDup copies.*1.*1 → i ∈ copies.*1.*1 →
  ∃ q d2, (i, q, d2) ∈ copies ∧ copies_for i copies = [q].
Proof.
  induction copies as [|[[j q] d2] cs IH]; [by intros _ ?%elem_of_nil|].
  rewrite !fmap_cons. simpl. intros [Hj Hnd]%NoDup_cons [->|Hi]%elem_of_cons.
  - exists q, d2. split; [by left|].
    unfold copies_for; simpl. rewrite decide_True by done.
    f_equal. by apply copies_for_absent.
  - destruct (IH Hnd Hi) as (q' & d2' & Hin & Hcf).
    exists q', d2'. split; [by right|].
    unfold copies_for; simpl. rewrite decide_False; [done|].
    intros <-. done.
Qed.

(** A packet that [get_port_from_flit] classifies as broadcast. *)
Lemma route_packet_broadcast c tsp p d s k' :
  wf_config c → Z.of_nat (length (ports s)) = NUMPORTS c →
  pkts (mem s) !! tsp = Some p → bufs (mem s) !! dat p = Some d →
  length d = Z.to_nat (DAT_BYTES c) →
  get_port_from_flit c d 0 (rand_calls s) = Ok (BROADCAST_ADJUSTED, k') →
  ∃ s1 copies,
    copied p d (set_rand_calls k' s) s1 copies ∧
    copies.*1.*1 = bcast_targets c (sender p) ∧
    route_packet c tsp s =
      Ok (set_mem (Heap (delete tsp (pkts (mem s1))) (delete (dat p) (bufs (mem s1)))) s1).
Proof.
  intros Hwf Hlen Hp Hd Hdl Hg. unfold route_packet, get_pkt, get_buf.
  rewrite Hp; simpl. rewrite Hd; simpl. rewrite Hg; simpl.
  pose proof (wf_dat c Hwf) as Hdat.
  destruct (broadcast_loop c tsp p d (seqZ 0 (NUMDOWNLINKS c + ADDUPLINK c))
              (set_rand_calls k' s)) as (s1 & copies & -> & Hc & Hcs); try done.
  - unfold DAT_BYTES. change FLIT_SIZE_BYTES with 8. lia.
  - apply Forall_forall. intros i Hi%elem_of_seqZ. simpl.
    pose proof (adduplink_bound c Hwf). lia.
  - exists s1, copies. split; [done|]. split; [done|]. simpl.
    unfold free_packet, get_pkt, get_buf.
    rewrite (cp_pkts_mono _ _ _ _ _ Hc tsp p Hp); simpl.
    rewrite (cp_bufs_mono _ _ _ _ _ Hc (dat p) d Hd); simpl. done.
Qed.

(** C4: when routing classifies a packet as broadcast, every port below
    [NUMDOWNLINKS + ADDUPLINK] other than the sender has exactly one packet
    appended to its output queue and no other port has any; each appended
    packet is a newly allocated struct with the timestamp, sender,
    amtwritten and amtread of the original and a newly allocated buffer
    with the bytes of the original; the original packet and its buffer are
    freed; and no port above [NUMDOWNLINKS], hence no uplink other than
    the first, receives a copy. *)
Theorem broadcast_fanout c tsp p d s k' :
  wf_config c → Z.of_nat (length (ports s)) = NUMPORTS c →
  pkts (mem s) !! tsp = Some p → bufs (mem s) !! dat p = Some d →
  length d = Z.to_nat (DAT_BYTES c) →
  get_port_from_flit c d 0 (rand_calls s) = Ok (BROADCAST_ADJUSTED, k') →
  ∃ s' copies,
    route_packet c tsp s = Ok s' ∧
    (∀ j cp, ports s !! j = Some cp →
       ports s' !! j =
         Some (set_outputqueue (outputqueue cp ++ copies_for (Z.of_nat j) copies) cp)) ∧
    (∀ i, 0 ≤ i < NUMDOWNLINKS c + ADDUPLINK c → i ≠ sender p →
       ∃ q d2, (i, q, d2) ∈ copies ∧ copies_for i copies = [q]) ∧
    (∀ i, ¬ (0 ≤ i < NUMDOWNLINKS c + ADDUPLINK c ∧ i ≠ sender p) →
       copies_for i copies = []) ∧
    (∀ i, NUMDOWNLINKS c < i → copies_for i copies = []) ∧
    Forall (λ x,
      pkts (mem s) !! x.1.2 = None ∧ bufs (mem s) !! x.2 = None ∧
      pkts (mem s') !! x.1.2 =
        Some (SwitchPacket (timestamp p) x.2 (amtwritten p) (amtread p) (sender p)) ∧
      bufs (mem s') !! x.2 = Some d) copies ∧
    NoDup copies.*1.*2 ∧ NoDup copies.*2 ∧
    pkts (mem s') !! tsp = None ∧ bufs (mem s') !! dat p = None.
Proof.
  intros Hwf Hlen Hp Hd Hdl Hg.
  destruct (route_packet_broadcast c tsp p d s k' Hwf Hlen Hp Hd Hdl Hg)
    as (s1 & copies & Hc & Hcs & ->).
  pose proof (bcast_targets_NoDup c (sender p)) as Hnd. rewrite <- Hcs in Hnd.
  assert (∀ i, ¬ (0 ≤ i < NUMDOWNLINKS c + ADDUPLINK c ∧ i ≠ sender p) →
               copies_for i copies = []) as Habs.
  { intros i Hi. apply copies_for_absent. rewrite Hcs, bcast_targets_spec. done. }
  eexists _, copies. split; [done|]. simpl.
  split; [apply (cp_ports _ _ _ _ _ Hc)|].
  split.
  { intros i Hi Hne. apply copies_for_present; [done|].
    rewrite Hcs, bcast_targets_spec. done. }
  split; [done|].
  split.
  { intros i Hi. apply Habs. unfold ADDUPLINK. case_decide; lia. }
  split.
  { pose proof (cp_fresh _ _ _ _ _ Hc) as Hf. simpl in Hf.
    eapply Forall_impl; [exact Hf|]. simpl.
    intros x (Hn1 & Hn2 & Hs1 & Hs2). repeat split; [done..| |].
    - rewrite lookup_delete_ne; [done|]. intros Heq. rewrite Heq in Hp. congruence.
    - rewrite lookup_delete_ne; [done|]. intros Heq. rewrite Heq in Hd. congruence. }
  split; [apply (cp_nodup_pkt _ _ _ _ _ Hc)|].
  split; [apply (cp_nodup_dat _ _ _ _ _ Hc)|].
  by rewrite !lookup_delete_eq.
Qed.

(** The state of the broadcast scenario: four ports, and on the heap one
    packet received on port 0 whose first flit has the multicast bit set. *)
Definition bcast_pkt : switchpacket := SwitchPacket 1010 0 1 0 0.

Definition bcast_dat : list Z := [0; 0; 0x01; 0; 0; 0; 0; 0] ++ replicate 1592 0.

Definition bcast_state : switch :=
  SwitchState (replicate 4 (Port [] [] None [] []))
    (Heap {[ 0%nat := bcast_pkt ]} {[ 0%nat := bcast_dat ]}) 0 [].

Lemma broadcast_fanout_witness :
  ∃ s' q,
    route_packet cfg4 0%nat bcast_state = Ok s' ∧
    outputqueue <$> ports s' !! 0%nat = Some [] ∧
    outputqueue <$> ports s' !! 1%nat = Some [q] ∧
    pkts (mem s') !! 0%nat = None.
Proof.
  destruct (broadcast_fanout cfg4 0%nat bcast_pkt bcast_dat bcast_state 0%nat cfg4_wf)
    as (s' & copies & Hr & Hports & Hone & Hnone & _ & _ & _ & _ & Hfree & _).
  - reflexivity.
  - reflexivity.
  - reflexivity.
  - reflexivity.
  - vm_compute. reflexivity.
  - destruct (Hone 1) as (q1 & ? & _ & H1); [vm_compute; split; congruence|done|].
    pose proof (Hnone 0 ltac:(simpl; lia)) as H0.
    exists s', q1. split; [done|].
    pose proof (Hports 0%nat _ eq_refl) as P0. pose proof (Hports 1%nat _ eq_refl) as P1.
    change (Z.of_nat 0) with 0 in P0. change (Z.of_nat 1) with 1 in P1.
    rewrite H0 in P0. rewrite H1 in P1. rewrite P0, P1. done.
Defined.

(** *** The routing loop keeps the pushes in timestamp order *)

(** A queued packet is allocated, carries the timestamp it is queued
    under, and owns an allocated buffer of full size. *)
Definition live (c : config) (h : heap) (e : tspacket) : Prop :=
  ∃ p d, pkts h !! switchpack e = Some p ∧ timestamp p = ts_timestamp e ∧
         bufs h !! dat p = Some d ∧ length d = Z.to_nat (DAT_BYTES c).

(** The invariant of [while (!pqueue.empty())], for the packets [es] still
    in the queue: they are distinct live packets with distinct buffers,
    the pushes made so far are in timestamp order, and none of them is
    later than a packet still queued. *)
Record routing_inv (c : config) (s : switch) (es : list tspacket) : Prop := RoutingInv {
  ri_ports : Z.of_nat (length (ports s)) = NUMPORTS c;
  ri_nodup : NoDup (switchpack <$> es);
  ri_live : Forall (live c (mem s)) es;
  ri_dat_inj : ∀ e1 e2 p1 p2, e1 ∈ es → e2 ∈ es →
      pkts (mem s) !! switchpack e1 = Some p1 →
      pkts (mem s) !! switchpack e2 = Some p2 →
      dat p1 = dat p2 → switchpack e1 = switchpack e2;
  ri_sorted : Sorted Z.le (ev_timestamp <$> pushlog s);
  ri_bound : ∀ ev e, ev ∈ pushlog s → e ∈ es → ev_timestamp ev ≤ ts_timestamp e }.

Lemma Sorted_app_const (l1 l2 : list Z) (t : Z) :
  Sorted Z.le l1 → (∀ a, a ∈ l1 → a ≤ t) → (∀ b, b ∈ l2 → b = t) →
  Sorted Z.le (l1 ++ l2).
Proof.
  intros Hs Hle Heq.
  assert (Sorted Z.le l2) as Hs2.
  { induction l2 as [|b l2 IH]; constructor.
    - apply IH. intros b' Hb'. apply Heq. by right.
    - destruct l2 as [|b' l2]; constructor.
      rewrite (Heq b), (Heq b'); [lia|by right; left|by left]. }
  induction l1 as [|a l1 IH]; [done|]. simpl.
  apply Sorted_inv in Hs as [Hs Hhd]. constructor.
  - apply IH; [done|]. intros a' Ha'. apply Hle. by right.
  - destruct l1 as [|a' l1]; simpl.
    + destruct l2 as [|b l2]; constructor.
      rewrite (Heq b) by (by left). apply Hle. by left.
    + constructor. by apply HdRel_inv in Hhd.
Qed.

Lemma route_packet_unicast c tsp p d s port k' :
  Z.of_nat (length (ports s)) = NUMPORTS c →
  pkts (mem s) !! tsp = Some p → bufs (mem s) !! dat p = Some d →
  get_port_from_flit c d 0 (rand_calls s) = Ok (port, k') →
  port ≠ BROADCAST_ADJUSTED → 0 ≤ port < NUMPORTS c →
  ∃ cp, ports s !! Z.to_nat port = Some cp ∧
        route_packet c tsp s =
          Ok (SwitchState
                (<[Z.to_nat port := set_outputqueue (outputqueue cp ++ [tsp]) cp]> (ports s))
                (mem s) k' (pushlog s ++ [PushEvent port tsp (timestamp p)])).
Proof.
  intros Hlen Hp Hd Hg Hne Hport. unfold route_packet, get_pkt, get_buf.
  rewrite Hp; simpl. rewrite Hd; simpl. rewrite Hg; simpl.
  rewrite decide_False by done.
  destruct (push_output_Ok port tsp (timestamp p) (set_rand_calls k' s))
    as (cp & Hcp & ->); [simpl; lia|].
  exists cp. split; [done|]. done.
Qed.

(** One iteration of the routing loop: [x] is the packet on top of the
    queue, [es'] the packets that stay in it. *)
Lemma route_step c s es x es' :
  wf_config c → routing_inv c s es → es ≡ₚ x :: es' →
  (∀ y, y ∈ es → ts_timestamp x ≤ ts_timestamp y) →
  ∃ s', route_packet c (switchpack x) s = Ok s' ∧ routing_inv c s' es'.
Proof.
  intros Hwf [Hports Hnd Hlive Hinj Hsorted Hbound] Hperm Hmin.
  assert (x ∈ es) as Hx by (rewrite Hperm; by left).
  assert (∀ e, e ∈ es' → e ∈ es) as Hsub by (intros e He; rewrite Hperm; by right).
  rewrite Hperm, fmap_cons in Hnd. apply NoDup_cons in Hnd as [Hxn Hnd'].
  rewrite Forall_forall in Hlive.
  destruct (Hlive x Hx) as (p & d & Hp & Hts & Hd & Hdl).
  pose proof (wf_dat c Hwf) as Hdat.
  assert (32 ≤ length d)%nat as Hl32.
  { rewrite Hdl. unfold DAT_BYTES. change FLIT_SIZE_BYTES with 8. lia. }
  destruct (get_port_from_flit_spec c d 0 (rand_calls s) Hwf Hl32)
    as (port & k' & Hg & Hrange & Hb & Hu).
  assert (∀ e, e ∈ es' → switchpack e ≠ switchpack x) as Hother.
  { intros e He Heq. apply Hxn. rewrite <- Heq. by apply list_elem_of_fmap_2. }
  assert (∀ e pe, e ∈ es' → pkts (mem s) !! switchpack e = Some pe → dat pe ≠ dat p)
    as Hdat_other.
  { intros e pe He Hpe Heq. apply (Hother e He).
    apply (Hinj e x pe p); auto. }
  destruct (decide (port = BROADCAST_ADJUSTED)) as [->|Hne].
  - destruct (route_packet_broadcast c (switchpack x) p d s k' Hwf Hports Hp Hd Hdl Hg)
      as (s1 & copies & Hc & Hcs & ->).
    eexists; split; [done|].
    assert (∀ e, e ∈ es' →
              delete (switchpack x) (pkts (mem s1)) !! switchpack e
              = pkts (mem s) !! switchpack e) as Hpk.
    { intros e He. rewrite lookup_delete_ne by (apply not_eq_sym, Hother, He).
      destruct (Hlive e (Hsub e He)) as (pe & de & Hpe & _). rewrite Hpe.
      by apply (cp_pkts_mono _ _ _ _ _ Hc). }
    constructor; simpl.
    + by rewrite (cp_len _ _ _ _ _ Hc).
    + done.
    + apply Forall_forall. intros e He.
      destruct (Hlive e (Hsub e He)) as (pe & de & Hpe & Htse & Hde & Hdle).
      exists pe, de. simpl. rewrite Hpk by done. split; [done|]. split; [done|].
      split; [|done].
      rewrite lookup_delete_ne by (apply not_eq_sym; by eapply Hdat_other).
      by apply (cp_bufs_mono _ _ _ _ _ Hc).
    + intros e1 e2 p1 p2 He1 He2. rewrite !Hpk by done. apply Hinj; auto.
    + rewrite (cp_log _ _ _ _ _ Hc); simpl. rewrite fmap_app.
      apply (Sorted_app_const _ _ (ts_timestamp x)); [done| |].
      * intros a (ev & -> & Hev)%list_elem_of_fmap. by apply Hbound.
      * intros b (ev & -> & Hev)%list_elem_of_fmap.
        apply list_elem_of_fmap in Hev as (y & -> & _). done.
    + intros ev e. rewrite (cp_log _ _ _ _ _ Hc); simpl.
      intros [Hev|Hev]%elem_of_app He.
      * apply Hbound; auto.
      * apply list_elem_of_fmap in Hev as (y & -> & _). simpl. rewrite Hts.
        apply Hmin; auto.
  - assert (0 ≤ port < NUMPORTS c) as Hport.
    { destruct (Z.testbit _ 16) eqn:Hbit; [by destruct Hne; apply Hb|].
      by destruct (Hu eq_refl) as (_ & _ & ?). }
    destruct (route_packet_unicast c (switchpack x) p d s port k' Hports Hp Hd Hg Hne Hport)
      as (cp & Hcp & ->).
    eexists; split; [done|].
    constructor; simpl.
    + by rewrite length_insert.
    + done.
    + apply Forall_forall. intros e He. apply (Hlive e (Hsub e He)).
    + intros e1 e2 p1 p2 He1 He2. apply Hinj; auto.
    + rewrite fmap_app.
      apply (Sorted_app_const _ _ (ts_timestamp x)); [done| |].
      * intros a (ev & -> & Hev)%list_elem_of_fmap. by apply Hbound.
      * intros b ->%list_elem_of_singleton. done.
    + intros ev e [Hev| ->%list_elem_of_singleton]%elem_of_app He.
      * apply Hbound; auto.
      * simpl. rewrite Hts. apply Hmin; auto.
Qed.

Section Loop.
Context {Q : Type} `{PriorityQueue Q} (Hlaw : pq_lawful Q).

Lemma route_loop_spec c fuel :
  wf_config c →
  ∀ (q : Q) s,
    routing_inv c s (pq_contents q) →
    (length (pq_contents q) ≤ fuel)%nat →
    ∃ s', route_loop c fuel q s = Ok s' ∧ routing_inv c s' [].
Proof.
  intros Hwf. induction fuel as [|fuel IH]; intros q s Hinv Hlen.
  - assert (pq_contents q = []) as Hnil by (apply length_zero_iff_nil; lia).
    simpl. rewrite (proj2 (pq_is_empty_spec Q Hlaw q) Hnil).
    exists s. split; [done|]. by rewrite <- Hnil.
  - simpl. destruct (pq_is_empty q) eqn:Hemp.
    + apply (pq_is_empty_spec Q Hlaw) in Hemp. exists s. split; [done|]. by rewrite <- Hemp.
    + destruct (pq_top q) as [x|] eqn:Htop.
      2:{ apply (pq_top_none Q Hlaw) in Htop.
          apply (pq_is_empty_spec Q Hlaw) in Htop. congruence. }
      pose proof (pq_top_pop Q Hlaw q x Htop) as Hperm.
      destruct (route_step c s _ x _ Hwf Hinv Hperm) as (s1 & -> & Hinv1).
      { intros y Hy. pose proof (pq_top_greatest Q Hlaw q x y Htop Hy) as Hgt.
        unfold tspacket_lt in Hgt. apply bool_decide_eq_false in Hgt. lia. }
      simpl. apply IH; [done|].
      apply Permutation_length in Hperm. simpl in Hperm. lia.
Qed.

End Loop.

Lemma routing_inv_perm c s es es' :
  es ≡ₚ es' → routing_inv c s es → routing_inv c s es'.
Proof.
  intros Hperm [Hports Hnd Hlive Hinj Hsorted Hbound].
  constructor; try done.
  - by rewrite <- Hperm.
  - by rewrite <- Hperm.
  - intros e1 e2 p1 p2 He1 He2. apply Hinj; by rewrite Hperm.
  - intros ev e Hev He. apply Hbound; [done|by rewrite Hperm].
Qed.

(** *** Phase 2 *)

(** The packets waiting in the input queues, port by port. *)
Definition queued (s : switch) : list loc := mjoin (inputqueue <$> ports s).

(** The queue entry that phase 2 makes for the packet at [sp]. *)
Definition entry (h : heap) (sp : loc) : tspacket :=
  TsPacket (default 0 (timestamp <$> pkts h !! sp)) sp.

(** The packets waiting are distinct, allocated, and own distinct
    allocated buffers of full size: the state in which phase 1 leaves the
    input queues. *)
Record queues_owned (c : config) (s : switch) : Prop := QueuesOwned {
  qo_nodup : NoDup (queued s);
  qo_live : Forall (λ sp, ∃ p d, pkts (mem s) !! sp = Some p ∧
                                 bufs (mem s) !! dat p = Some d ∧
                                 length d = Z.to_nat (DAT_BYTES c)) (queued s);
  qo_dat_inj : ∀ sp1 sp2 p1 p2, sp1 ∈ queued s → sp2 ∈ queued s →
      pkts (mem s) !! sp1 = Some p1 → pkts (mem s) !! sp2 = Some p2 →
      dat p1 = dat p2 → sp1 = sp2 }.

Section Drain.
Context {Q : Type} `{PriorityQueue Q} (Hlaw : pq_lawful Q).

Lemma enqueue_packet_Ok h sp p (q : Q) :
  pkts h !! sp = Some p →
  enqueue_packet h sp q = Ok (pq_push (TsPacket (timestamp p) sp) q).
Proof. intros Hp. unfold enqueue_packet, get_pkt. by rewrite Hp. Qed.

Lemma enqueue_all h iq (q : Q) :
  Forall (λ sp, is_Some (pkts h !! sp)) iq →
  ∃ q', foldM (enqueue_packet h) iq q = Ok q' ∧
        pq_contents q' ≡ₚ pq_contents q ++ (entry h <$> iq).
Proof.
  revert q. induction iq as [|sp iq IH]; intros q Hall.
  - exists q. split; [done|]. by rewrite app_nil_r.
  - apply Forall_cons in Hall as [[p Hp] Hall]. simpl.
    rewrite (enqueue_packet_Ok h sp p q Hp); simpl.
    destruct (IH (pq_push (TsPacket (timestamp p) sp) q) Hall) as (q' & -> & Hq').
    exists q'. split; [done|]. rewrite Hq', (pq_push_contents Q Hlaw).
    assert (entry h sp = TsPacket (timestamp p) sp) as ->
      by (unfold entry; by rewrite Hp).
    by rewrite <- Permutation_middle.
Qed.

Lemma drain_ports s (q0 : Q) (k : nat) :
  Forall (λ sp, is_Some (pkts (mem s) !! sp)) (queued s) →
  (k ≤ length (ports s))%nat →
  ∃ s' q',
    foldM drain_port (seqZ 0 (Z.of_nat k)) (s, q0) = Ok (s', q') ∧
    mem s' = mem s ∧ pushlog s' = pushlog s ∧ rand_calls s' = rand_calls s ∧
    length (ports s') = length (ports s) ∧
    (∀ j, ports s' !! j =
          if decide (j < k)%nat then set_inputqueue [] <$> ports s !! j
          else ports s !! j) ∧
    pq_contents q' ≡ₚ
      pq_contents q0 ++ (entry (mem s) <$> mjoin (inputqueue <$> take k (ports s))).
Proof.
  intros Hall. induction k as [|k IH]; intros Hk.
  - exists s, q0. split; [done|]. repeat split; try done. simpl. by rewrite app_nil_r.
  - destruct IH as (s1 & q1 & Hf & Hmem & Hlog & Hrand & Hlen & Hports & Hq1); [lia|].
    rewrite seqZ_S, Z.add_0_l, foldM_app, Hf. simpl.
    destruct (ports s !! k) as [cp|] eqn:Hcp.
    2:{ apply lookup_ge_None in Hcp. lia. }
    unfold drain_port at 1, get_port; simpl.
    rewrite decide_True by lia. rewrite Nat2Z.id, Hports, decide_False by lia.
    rewrite Hcp; simpl. rewrite Hmem.
    destruct (enqueue_all (mem s) (inputqueue cp) q1) as (q2 & -> & Hq2).
    { rewrite Forall_forall in Hall. apply Forall_forall. intros sp Hsp.
      apply Hall. unfold queued. apply list_elem_of_join.
      exists (inputqueue cp). split; [done|].
      apply list_elem_of_fmap_2. by eapply list_elem_of_lookup_2. }
    simpl. eexists _, _. split; [done|]. simpl.
    split; [done|]. split; [done|]. split; [done|].
    split; [by rewrite length_insert|]. split.
    + intros j. rewrite Nat2Z.id. destruct (decide (j = k)) as [->|Hjk].
      * rewrite list_lookup_insert_eq by lia. rewrite decide_True by lia.
        by rewrite Hcp.
      * rewrite list_lookup_insert_ne by done. rewrite Hports.
        repeat case_decide; try done; lia.
    + rewrite Hq2, Hq1. rewrite (take_S_r _ _ cp) by done.
      rewrite fmap_app, join_app, fmap_app. simpl. rewrite app_nil_r.
      by rewrite app_assoc.
Qed.

End Drain.

Lemma Sorted_le_lookup (l : list Z) i j a b :
  Sorted Z.le l → l !! i = Some a → l !! j = Some b → (i ≤ j)%nat → a ≤ b.
Proof.
  intros Hs%Sorted_StronglySorted; [|intros ???; lia].
  revert i j. induction Hs as [|x l Hs IH Hall]; intros i j Hi Hj Hij; [done|].
  destruct i as [|i], j as [|j]; simpl in *; try lia.
  - injection Hi as <-. injection Hj as <-. lia.
  - injection Hi as <-. rewrite Forall_forall in Hall.
    apply Hall. by eapply list_elem_of_lookup_2.
  - apply (IH i j); [done..|lia].
Qed.

(** The timestamp-ordering scenario: packet A (at address 0, timestamp
    1015) waits on port 0 and packet B (at address 1, timestamp 1011) on
    port 1; both are addressed to MAC suffix 0x0201, that is port 2. *)
Definition order_state : switch :=
  SwitchState
    [Port [] [] None [0%nat] []; Port [] [] None [1%nat] [];
     Port [] [] None [] []; Port [] [] None [] []]
    (Heap {[ 0%nat := SwitchPacket 1015 0 1 0 0; 1%nat := SwitchPacket 1011 1 1 0 1 ]}
          {[ 0%nat := flit_to_0201 ++ replicate 1568 0;
             1%nat := flit_to_0201 ++ replicate 1568 0 ]})
    0 [].

Lemma switchpack_entry h (l : list loc) : switchpack <$> (entry h <$> l) = l.
Proof. induction l as [|sp l IH]; [done|]. rewrite !fmap_cons. by rewrite IH. Qed.

Lemma order_state_owned : queues_owned cfg4 order_state.
Proof.
  constructor.
  - apply (bool_decide_unpack _). vm_compute. reflexivity.
  - repeat constructor; eexists _, _; (split; [reflexivity|split; reflexivity]).
  - intros sp1 sp2 p1 p2 H1 H2.
    change (queued order_state) with [0%nat; 1%nat] in H1, H2.
    apply elem_of_cons in H1 as [->|H1]; [|apply list_elem_of_singleton in H1 as ->];
    (apply elem_of_cons in H2 as [->|H2]; [|apply list_elem_of_singleton in H2 as ->]);
    try done; intros [= <-] [= <-]; done.
Qed.

(** In the scenario, B is pushed to port 2 before A. *)
Example order_scenario :
  pushlog <$> switching (Q:=list tspacket) cfg4 2 order_state
  = Ok [PushEvent 2 1 1011; PushEvent 2 0 1015].
Proof. vm_compute. reflexivity. Qed.

End RoutingFacts.

Module OwnershipFacts.
Import Mem Flit Switch ReassemblyFacts RoutingFacts.

(** The packets that a port holds: complete on the input side, under
    reassembly, and waiting for output. *)
Definition held (p : port) : list loc :=
  inputqueue p ++ option_list (input_in_progress p) ++ outputqueue p.

Definition packets (s : switch) : list loc := mjoin (held <$> ports s).

(** The packets of a port that phase 1 is done with. *)
Definition settled (p : port) : list loc := inputqueue p ++ outputqueue p.

(** The packets [l] are distinct, each is an allocated struct, and each
    owns an allocated buffer of full size that no other of them points
    to. *)
Record owned (c : config) (h : heap) (l : list loc) : Prop := Owned {
  ow_nodup : NoDup l;
  ow_live : ∀ sp, sp ∈ l →
    ∃ p d, pkts h !! sp = Some p ∧ bufs h !! dat p = Some d ∧
           length d = Z.to_nat (DAT_BYTES c);
  ow_dat_inj : ∀ sp1 sp2 p1 p2, sp1 ∈ l → sp2 ∈ l →
    pkts h !! sp1 = Some p1 → pkts h !! sp2 = Some p2 →
    dat p1 = dat p2 → sp1 = sp2 }.

(** The packets [l] and their buffers are in [h'] as they are in [h]. *)
Definition untouched (h h' : heap) (l : list loc) : Prop :=
  ∀ sp pk, sp ∈ l → pkts h !! sp = Some pk →
    pkts h' !! sp = Some pk ∧ bufs h' !! dat pk = bufs h !! dat pk.

Lemma owned_submseteq c h l l' : l' ⊆+ l → owned c h l → owned c h l'.
Proof.
  intros Hsub [Hnd Hlive Hinj].
  assert (∀ x, x ∈ l' → x ∈ l) as Hin by (intros x Hx; by eapply elem_of_submseteq).
  constructor.
  - destruct (submseteq_Permutation _ _ Hsub) as [k Hk]. rewrite Hk in Hnd.
    by apply NoDup_app in Hnd as [? _].
  - intros sp Hsp. by apply Hlive, Hin.
  - intros sp1 sp2 p1 p2 H1 H2. apply Hinj; by apply Hin.
Qed.

Lemma owned_perm c h l l' : l ≡ₚ l' → owned c h l → owned c h l'.
Proof. intros Hp. apply owned_submseteq. by rewrite Hp. Qed.

Lemma owned_alloc c h l sp pk b :
  owned c h l → pkts h !! sp = None → bufs h !! dat pk = None →
  length b = Z.to_nat (DAT_BYTES c) →
  owned c (Heap (<[sp := pk]> (pkts h)) (<[dat pk := b]> (bufs h))) (sp :: l).
Proof.
  intros [Hnd Hlive Hinj] Hsp Hd Hb.
  assert (∀ x, x ∈ l → x ≠ sp) as Hne.
  { intros x Hx ->. destruct (Hlive sp Hx) as (p & d & Hp & _). congruence. }
  assert (∀ x p, x ∈ l → pkts h !! x = Some p → dat p ≠ dat pk) as Hdne.
  { intros x p Hx Hp Heq. destruct (Hlive x Hx) as (p' & d & Hp' & Hd' & _).
    rewrite Hp in Hp'. injection Hp' as <-. congruence. }
  constructor; simpl.
  - apply NoDup_cons_2; [|done]. intros Hx. by apply (Hne sp).
  - intros x [->|Hx]%elem_of_cons.
    + exists pk, b. by rewrite !lookup_insert_eq.
    + destruct (Hlive x Hx) as (p & d & Hp & Hd' & Hl).
      exists p, d. rewrite lookup_insert_ne by (apply not_eq_sym; auto).
      split; [done|]. rewrite lookup_insert_ne by (apply not_eq_sym; eauto). done.
  - intros x1 x2 p1 p2 [->|H1]%elem_of_cons [->|H2]%elem_of_cons; try done.
    + rewrite lookup_insert_eq, lookup_insert_ne by (apply not_eq_sym; auto).
      intros [= <-] Hp2 Heq. destruct (Hdne x2 p2 H2 Hp2). done.
    + rewrite lookup_insert_eq, lookup_insert_ne by (apply not_eq_sym; auto).
      intros Hp1 [= <-] Heq. by destruct (Hdne x1 p1 H1 Hp1).
    + rewrite !lookup_insert_ne by (apply not_eq_sym; auto). by apply Hinj.
Qed.

Lemma untouched_alloc c h l sp pk b :
  owned c h l → pkts h !! sp = None → bufs h !! dat pk = None →
  untouched h (Heap (<[sp := pk]> (pkts h)) (<[dat pk := b]> (bufs h))) l.
Proof.
  intros [_ Hlive _] Hsp Hd x p Hx Hp. simpl.
  destruct (Hlive x Hx) as (p' & d & Hp' & Hd' & _).
  rewrite Hp in Hp'. injection Hp' as <-.
  rewrite !lookup_insert_ne by congruence. done.
Qed.

Lemma owned_update c h l sp pk pk' d' :
  owned c h l → pkts h !! sp = Some pk → dat pk' = dat pk →
  length d' = Z.to_nat (DAT_BYTES c) →
  owned c (Heap (<[sp := pk']> (pkts h)) (<[dat pk := d']> (bufs h))) l.
Proof.
  intros [Hnd Hlive Hinj] Hsp Hdat Hlen.
  assert (∀ x p, <[sp := pk']> (pkts h) !! x = Some p →
            ∃ p0, pkts h !! x = Some p0 ∧ dat p = dat p0) as Hold.
  { intros x p. destruct (decide (x = sp)) as [->|Hne].
    - rewrite lookup_insert_eq. intros [= <-]. eauto.
    - rewrite lookup_insert_ne by done. eauto. }
  constructor; simpl; [done| |].
  - intros x Hx. destruct (Hlive x Hx) as (p & d & Hp & Hd & Hl).
    destruct (decide (x = sp)) as [->|Hne].
    + exists pk', d'. rewrite lookup_insert_eq, Hdat, lookup_insert_eq. done.
    + exists p. rewrite lookup_insert_ne by done.
      destruct (decide (dat p = dat pk)) as [->|Hdne].
      * exists d'. by rewrite lookup_insert_eq.
      * exists d. by rewrite lookup_insert_ne.
  - intros x1 x2 p1 p2 H1 H2 Hp1 Hp2 Heq.
    destruct (Hold _ _ Hp1) as (q1 & Hq1 & E1). destruct (Hold _ _ Hp2) as (q2 & Hq2 & E2).
    apply (Hinj x1 x2 q1 q2); auto. congruence.
Qed.

Lemma untouched_update c h l sp pk pk' d' :
  owned c h (sp :: l) → pkts h !! sp = Some pk →
  untouched h (Heap (<[sp := pk']> (pkts h)) (<[dat pk := d']> (bufs h))) l.
Proof.
  intros [Hnd Hlive Hinj] Hsp x p Hx Hp. simpl.
  apply NoDup_cons in Hnd as [Hnin _].
  assert (x ≠ sp) as Hne by (intros ->; done).
  rewrite lookup_insert_ne by done. split; [done|].
  rewrite lookup_insert_ne; [done|]. intros Heq. apply Hne.
  apply (Hinj x sp p pk); auto; [by right|by left].
Qed.

Lemma owned_free c h l x p :
  owned c h (x :: l) → pkts h !! x = Some p →
  owned c (Heap (delete x (pkts h)) (delete (dat p) (bufs h))) l
  ∧ untouched h (Heap (delete x (pkts h)) (delete (dat p) (bufs h))) l.
Proof.
  intros [Hnd Hlive Hinj] Hx.
  apply NoDup_cons in Hnd as [Hnin Hnd].
  assert (∀ y q, y ∈ l → pkts h !! y = Some q → y ≠ x ∧ dat q ≠ dat p) as Hne.
  { intros y q Hy Hq. split; [by intros ->|]. intros Heq.
    assert (y = x) as -> by (apply (Hinj y x q p); auto; [by right|by left]). done. }
  split.
  - constructor; simpl; [done| |].
    + intros y Hy. destruct (Hlive y ltac:(by right)) as (q & d & Hq & Hd & Hl).
      destruct (Hne y q Hy Hq). exists q, d. by rewrite !lookup_delete_ne.
    + intros y1 y2 q1 q2 H1 H2 Hq1 Hq2.
      apply lookup_delete_Some in Hq1 as [_ Hq1]. apply lookup_delete_Some in Hq2 as [_ Hq2].
      apply Hinj; auto; by right.
  - intros y q Hy Hq. simpl. destruct (Hne y q Hy Hq).
    by rewrite !lookup_delete_ne.
Qed.

Lemma untouched_refl h l : untouched h h l.
Proof. by intros sp pk _ Hp. Qed.

Lemma untouched_trans h1 h2 h3 l :
  untouched h1 h2 l → untouched h2 h3 l → untouched h1 h3 l.
Proof.
  intros H12 H23 sp pk Hsp Hp.
  destruct (H12 sp pk Hsp Hp) as [Hp2 Hb2].
  destruct (H23 sp pk Hsp Hp2) as [Hp3 Hb3]. split; [done|congruence].
Qed.

Lemma untouched_sub h h' l l' :
  (∀ x, x ∈ l' → x ∈ l) → untouched h h' l → untouched h h' l'.
Proof. intros Hsub Hu sp pk Hsp. apply Hu. by apply Hsub. Qed.

(** *** Phase 1 *)

(** What phase 1 may do to a port: append to its input queue. *)
Definition port_grows (p p' : port) : Prop :=
  (∃ new, inputqueue p' = inputqueue p ++ new) ∧
  outputqueue p' = outputqueue p ∧
  current_input_buf p' = current_input_buf p.

Lemma port_grows_refl p : port_grows p p.
Proof. split; [exists []; by rewrite app_nil_r|done]. Qed.

Lemma port_grows_trans p1 p2 p3 : port_grows p1 p2 → port_grows p2 p3 → port_grows p1 p3.
Proof.
  intros ([n1 H1] & ? & ?) ([n2 H2] & ? & ?). split; [|split; congruence].
  exists (n1 ++ n2). by rewrite H2, H1, app_assoc.
Qed.

Lemma port_grows_settled p p' x : port_grows p p' → x ∈ settled p → x ∈ settled p'.
Proof.
  intros ([new Hn] & Ho & _). unfold settled. rewrite Hn, Ho, !elem_of_app. tauto.
Qed.

Lemma settled_held p x : x ∈ settled p → x ∈ held p.
Proof. unfold settled, held. rewrite !elem_of_app. tauto. Qed.

Lemma fresh_pkt h : pkts h !! fresh (dom (pkts h)) = None.
Proof. apply not_elem_of_dom, is_fresh. Qed.

Lemma fresh_buf h : bufs h !! fresh (dom (bufs h)) = None.
Proof. apply not_elem_of_dom, is_fresh. Qed.

Lemma start_packet_owned c i t h p h1 p1 others :
  start_packet c i t h p = (h1, p1) →
  owned c h (held p ++ others) →
  ∃ sp, input_in_progress p1 = Some sp ∧
    inputqueue p1 = inputqueue p ∧ outputqueue p1 = outputqueue p ∧
    current_input_buf p1 = current_input_buf p ∧
    current_output_buf p1 = current_output_buf p ∧
    owned c h1 (held p1 ++ others) ∧
    untouched h h1 (settled p ++ others).
Proof.
  unfold start_packet. destruct (input_in_progress p) as [sp|] eqn:Hip.
  - intros [= <- <-] Ho. exists sp. do 5 (split; [done|]).
    split; [done|apply untouched_refl].
  - unfold alloc_buf, alloc_pkt. simpl. intros [= <- <-] Ho.
    eexists. split; [done|]. do 4 (split; [done|]).
    set (pk := SwitchPacket _ _ _ _ _).
    assert (dat pk = fresh (dom (bufs h))) as Hd by done. rewrite <- Hd.
    split.
    + eapply owned_perm; [|apply (owned_alloc c h (held p ++ others)); try done].
      * unfold held; simpl. rewrite Hip. simpl.
        rewrite <- !app_assoc. simpl. by rewrite <- Permutation_middle.
      * apply fresh_pkt.
      * rewrite Hd. apply fresh_buf.
      * by rewrite length_replicate.
    + eapply untouched_sub; [|apply (untouched_alloc c h (held p ++ others)); try done].
      * intros x. rewrite !elem_of_app. intros [?%settled_held|?]; auto.
      * apply fresh_pkt.
      * rewrite Hd. apply fresh_buf.
Qed.

Lemma append_flit_inv h sp buf ptr h' :
  append_flit h sp buf ptr = Ok h' →
  ∃ pk d d', pkts h !! sp = Some pk ∧ bufs h !! dat pk = Some d ∧
    length d' = length d ∧
    h' = Heap (<[sp := SwitchPacket (timestamp pk) (dat pk) (amtwritten pk + 1)
                                    (amtread pk) (sender pk)]> (pkts h))
              (<[dat pk := d']> (bufs h)).
Proof.
  unfold append_flit, get_pkt, get_buf.
  destruct (pkts h !! sp) as [pk|] eqn:Hpk; simpl; [|done].
  destruct (bufs h !! dat pk) as [d|] eqn:Hd; simpl; [|done].
  destruct (load_bytes _ _ _) as [flit|]; simpl; [|done].
  destruct (store_bytes _ _ _) as [d'|] eqn:Hst; simpl; [|done].
  intros [= <-]. exists pk, d, d'. split; [done|]. split; [done|].
  split; [by eapply length_store_bytes|done].
Qed.

Lemma reassemble_token_owned c i t h p h' p' others :
  reassemble_token c i t (h, p) = Ok (h', p') →
  owned c h (held p ++ others) →
  owned c h' (held p' ++ others) ∧ port_grows p p' ∧
  current_output_buf p' = current_output_buf p ∧
  untouched h h' (settled p ++ others).
Proof.
  unfold reassemble_token. simpl.
  destruct (is_valid_flit _ _) as [[]|]; simpl; [| |done].
  2:{ intros [= <- <-] Ho. split; [done|]. split; [apply port_grows_refl|].
      split; [done|apply untouched_refl]. }
  destruct (start_packet c i t h p) as [h1 p1] eqn:Hsp. intros Hr Ho.
  destruct (start_packet_owned c i t h p h1 p1 others Hsp Ho)
    as (sp & Hip & Hiq & Hoq & Hcb & Hob & Ho1 & Hu1).
  rewrite Hip in Hr.
  destruct (append_flit _ _ _ _) as [h2|] eqn:Happ; simpl in Hr; [|done].
  destruct (append_flit_inv _ _ _ _ _ Happ) as (pk & d & d' & Hpk & Hd & Hl & ->).
  assert (held p1 ++ others ≡ₚ sp :: settled p1 ++ others) as Hperm.
  { unfold held, settled. rewrite Hip. simpl.
    rewrite <- !app_assoc. simpl. by rewrite <- Permutation_middle. }
  assert (length d = Z.to_nat (DAT_BYTES c)) as Hdl.
  { destruct (ow_live _ _ _ Ho1 sp) as (pk' & d0 & Hpk' & Hd0 & Hl0).
    - rewrite Hperm. by left.
    - rewrite Hpk in Hpk'. injection Hpk' as <-. rewrite Hd in Hd0. by injection Hd0 as <-. }
  set (h2 := Heap _ _) in *.
  assert (owned c h2 (held p1 ++ others)) as Ho2.
  { apply (owned_update c h1 _ sp pk); try done. congruence. }
  assert (untouched h h2 (settled p ++ others)) as Hu2.
  { eapply untouched_trans; [exact Hu1|].
    eapply untouched_sub; [|apply (untouched_update c h1 (settled p1 ++ others) sp pk);
                             [by eapply owned_perm|done]].
    unfold settled. by rewrite Hiq, Hoq. }
  destruct (is_last_flit _ _) as [[]|]; simpl in Hr; [| |done]; injection Hr as <- <-.
  - split; [|split; [|split; [done|done]]].
    + eapply owned_perm; [|exact Ho2]. unfold held. rewrite Hip. simpl.
      by rewrite <- !app_assoc.
    + split; [|done]. simpl. rewrite Hiq. eauto.
  - split; [done|]. split; [|split; [done|done]].
    split; [|done]. exists []. by rewrite app_nil_r.
Qed.

Lemma reassemble_tokens_owned c i ts : ∀ h p h' p' others,
  foldM (reassemble_token c i) ts (h, p) = Ok (h', p') →
  owned c h (held p ++ others) →
  owned c h' (held p' ++ others) ∧ port_grows p p' ∧
  untouched h h' (settled p ++ others).
Proof.
  induction ts as [|t ts IH]; intros h p h' p' others; simpl.
  - intros [= <- <-] Ho. split; [done|]. split; [apply port_grows_refl|apply untouched_refl].
  - destruct (reassemble_token c i t (h, p)) as [[h1 p1]|] eqn:Ht; simpl; [|done].
    intros Hr Ho.
    destruct (reassemble_token_owned _ _ _ _ _ _ _ _ Ht Ho) as (Ho1 & Hg1 & _ & Hu1).
    destruct (IH _ _ _ _ _ Hr Ho1) as (Ho2 & Hg2 & Hu2).
    split; [done|]. split; [by eapply port_grows_trans|].
    eapply untouched_trans; [exact Hu1|]. eapply untouched_sub; [|exact Hu2].
    intros x. rewrite !elem_of_app. intros [?|?]; [left|by right].
    by eapply port_grows_settled.
Qed.

(** The packets of a switch, with those of port [n] first. *)
Lemma join_lookup_perm {A} (f : port → list A) (l : list port) n x :
  l !! n = Some x →
  mjoin (f <$> l) ≡ₚ f x ++ mjoin (f <$> (take n l ++ drop (S n) l)).
Proof.
  intros Hx. rewrite <- (take_drop_middle l n x Hx) at 1.
  rewrite !fmap_app, !join_app, fmap_cons. simpl.
  by rewrite Permutation_app_swap_app.
Qed.

Lemma join_insert_perm {A} (f : port → list A) (l : list port) n x :
  (n < length l)%nat →
  mjoin (f <$> <[n := x]> l) ≡ₚ f x ++ mjoin (f <$> (take n l ++ drop (S n) l)).
Proof.
  intros Hn. rewrite (join_lookup_perm f (<[n := x]> l) n x).
  - by rewrite take_insert_ge, drop_insert_lt by lia.
  - by rewrite list_lookup_insert_eq.
Qed.

Lemma settled_packets l x :
  x ∈ mjoin (settled <$> l) → x ∈ mjoin (held <$> l).
Proof.
  rewrite !list_elem_of_join. intros (k & Hx & Hk).
  apply list_elem_of_fmap in Hk as (p & -> & Hp).
  exists (held p). split; [by apply settled_held|by apply list_elem_of_fmap_2].
Qed.

(** What the switch core may do to the state between two of its steps. *)
Record core_step (s s' : switch) : Prop := CoreStep {
  cs_ports : Forall2 port_grows (ports s) (ports s');
  cs_log : pushlog s' = pushlog s;
  cs_rand : rand_calls s' = rand_calls s;
  cs_untouched : untouched (mem s) (mem s') (mjoin (settled <$> ports s)) }.

Lemma Forall2_port_grows_refl l : Forall2 port_grows l l.
Proof. apply Forall_Forall2_diag, Forall_forall. intros p _. apply port_grows_refl. Qed.

Lemma core_step_refl s : core_step s s.
Proof. constructor; [apply Forall2_port_grows_refl|done|done|apply untouched_refl]. Qed.

Lemma ports_grow_settled l l' x :
  Forall2 port_grows l l' → x ∈ mjoin (settled <$> l) → x ∈ mjoin (settled <$> l').
Proof.
  intros Hf. induction Hf as [|p p' l l' Hp Hf IH]; [done|].
  rewrite !fmap_cons. simpl. rewrite !elem_of_app.
  intros [?|?]; [left; by eapply port_grows_settled|right; by apply IH].
Qed.

Lemma core_step_trans s1 s2 s3 : core_step s1 s2 → core_step s2 s3 → core_step s1 s3.
Proof.
  intros [Hp1 Hl1 Hr1 Hu1] [Hp2 Hl2 Hr2 Hu2]. constructor; try congruence.
  - eapply Forall2_trans; [|exact Hp1|exact Hp2]. apply port_grows_trans.
  - eapply untouched_trans; [exact Hu1|]. eapply untouched_sub; [|exact Hu2].
    intros x. by apply ports_grow_settled.
Qed.

Lemma get_port_inv s i cp :
  get_port s i = Ok cp → 0 ≤ i ∧ ports s !! Z.to_nat i = Some cp.
Proof.
  unfold get_port. case_decide; [|done].
  destruct (ports s !! Z.to_nat i); [|done]. by intros [= ->].
Qed.

Lemma ports_grow_insert l n p p' :
  l !! n = Some p → port_grows p p' → Forall2 port_grows l (<[n := p']> l).
Proof.
  intros Hp Hg. rewrite <- (list_insert_id l n p Hp) at 1.
  apply Forall2_insert; [apply Forall2_port_grows_refl|done].
Qed.

Lemma reassemble_port_owned c i s s' :
  owned c (mem s) (packets s) → reassemble_port c i s = Ok s' →
  owned c (mem s') (packets s') ∧ core_step s s'.
Proof.
  intros Ho. unfold reassemble_port.
  destruct (get_port s i) as [cp|] eqn:Hg; simpl; [|done].
  apply get_port_inv in Hg as [Hi Hcp].
  destruct (reassemble c i (mem s, cp)) as [[h' p']|] eqn:Hr; simpl; [|done].
  intros [= <-]. unfold packets in *. simpl.
  set (n := Z.to_nat i) in *.
  set (others := mjoin (held <$> (take n (ports s) ++ drop (S n) (ports s)))).
  assert (n < length (ports s))%nat as Hn by (by eapply lookup_lt_Some).
  destruct (reassemble_tokens_owned c i _ _ _ _ _ others Hr) as (Ho' & Hg' & Hu').
  { eapply owned_perm; [|exact Ho]. by apply join_lookup_perm. }
  split.
  - eapply owned_perm; [|exact Ho']. symmetry. by apply join_insert_perm.
  - constructor; simpl; [|done|done|].
    + by apply (ports_grow_insert _ _ cp).
    + eapply untouched_sub; [|exact Hu'].
      intros x Hx. rewrite (join_lookup_perm settled _ n cp Hcp) in Hx.
      apply elem_of_app in Hx as [?|?%settled_packets]; apply elem_of_app; auto.
Qed.

Lemma setup_port_owned c i s s' :
  owned c (mem s) (packets s) → setup_port c i s = Ok s' →
  owned c (mem s') (packets s') ∧ core_step s s'.
Proof.
  intros Ho. unfold setup_port.
  destruct (get_port s i) as [cp|] eqn:Hg; simpl; [|done].
  apply get_port_inv in Hg as [Hi Hcp]. intros [= <-]. simpl.
  assert (Z.to_nat i < length (ports s))%nat as Hn by (by eapply lookup_lt_Some).
  split.
  - unfold packets in *. simpl. eapply owned_perm; [|exact Ho].
    rewrite join_insert_perm by done. symmetry.
    by rewrite (join_lookup_perm held _ _ cp Hcp).
  - constructor; simpl; [|done|done|apply untouched_refl].
    apply (ports_grow_insert _ _ cp); [done|].
    split; [exists []; simpl; by rewrite app_nil_r|done].
Qed.

Lemma foldM_invariant {A S : Type} (f : A → S → res S) (I : S → Prop)
    (R : S → S → Prop) :
  (∀ s, R s s) → (∀ s1 s2 s3, R s1 s2 → R s2 s3 → R s1 s3) →
  (∀ a s s', I s → f a s = Ok s' → I s' ∧ R s s') →
  ∀ l s s', I s → foldM f l s = Ok s' → I s' ∧ R s s'.
Proof.
  intros Hrefl Htrans Hstep l. induction l as [|a l IH]; intros s s' Hs; simpl.
  - intros [= <-]. auto.
  - destruct (f a s) as [s1|] eqn:Hf; simpl; [|done]. intros Hr.
    destruct (Hstep a s s1 Hs Hf) as [H1 R1]. destruct (IH s1 s' H1 Hr) as [H2 R2].
    split; [done|]. by eapply Htrans.
Qed.

Lemma phase1_owned c s s' :
  owned c (mem s) (packets s) → phase1 c s = Ok s' →
  owned c (mem s') (packets s') ∧ core_step s s'.
Proof.
  intros Ho. unfold phase1.
  destruct (foldM (setup_port c) _ s) as [s1|] eqn:H1; simpl; [|done]. intros H2.
  destruct (foldM_invariant (setup_port c) (λ s, owned c (mem s) (packets s)) core_step
              core_step_refl core_step_trans (λ a s s', setup_port_owned c a s s')
              _ _ _ Ho H1) as [Ho1 R1].
  destruct (foldM_invariant (reassemble_port c) (λ s, owned c (mem s) (packets s)) core_step
              core_step_refl core_step_trans (λ a s s', reassemble_port_owned c a s s')
              _ _ _ Ho1 H2) as [Ho2 R2].
  split; [done|]. by eapply core_step_trans.
Qed.

(** *** Phases 2 and 3 *)

(** The packets pushed to port [j] by the events [evs], in order. *)
Definition pushed_to (j : nat) (evs : list push_event) : list loc :=
  ev_packet <$> filter (λ e, ev_port e = Z.of_nat j) evs.

(** [s'] is [s] after the pushes [evs]: each port has the packets pushed
    to it appended to its output queue and is otherwise as it was; the
    packets that the ports held are untouched, and every pushed packet is
    allocated and carries the timestamp it was pushed with. *)
Record routed (s s' : switch) (evs : list push_event) : Prop := Routed {
  rt_log : pushlog s' = pushlog s ++ evs;
  rt_range : ∀ ev, ev ∈ evs → 0 ≤ ev_port ev < Z.of_nat (length (ports s));
  rt_len : length (ports s') = length (ports s);
  rt_ports : ∀ j cp, ports s !! j = Some cp →
    ports s' !! j = Some (set_outputqueue (outputqueue cp ++ pushed_to j evs) cp);
  rt_untouched : untouched (mem s) (mem s') (packets s);
  rt_stamped : ∀ ev, ev ∈ evs →
    ∃ pk, pkts (mem s') !! ev_packet ev = Some pk ∧ timestamp pk = ev_timestamp ev }.

Lemma pushed_to_app j e1 e2 : pushed_to j (e1 ++ e2) = pushed_to j e1 ++ pushed_to j e2.
Proof. unfold pushed_to. by rewrite filter_app, fmap_app. Qed.

Lemma held_set_outputqueue q cp x :
  x ∈ held (set_outputqueue q cp) ↔
  x ∈ inputqueue cp ∨ x ∈ option_list (input_in_progress cp) ∨ x ∈ q.
Proof. unfold held. simpl. by rewrite !elem_of_app. Qed.

Lemma elem_of_packets s x :
  x ∈ packets s ↔ ∃ j cp, ports s !! j = Some cp ∧ x ∈ held cp.
Proof.
  unfold packets. rewrite list_elem_of_join. split.
  - intros (l & Hx & Hl). apply list_elem_of_fmap in Hl as (cp & -> & Hcp).
    apply list_elem_of_lookup in Hcp as [j Hj]. eauto.
  - intros (j & cp & Hj & Hx). exists (held cp). split; [done|].
    apply list_elem_of_fmap_2. by eapply list_elem_of_lookup_2.
Qed.

Lemma routed_packets s s' evs x : routed s s' evs → x ∈ packets s → x ∈ packets s'.
Proof.
  intros Hr. rewrite !elem_of_packets. intros (j & cp & Hj & Hx).
  eexists j, _. split; [by apply (rt_ports _ _ _ Hr)|].
  apply held_set_outputqueue. unfold held in Hx.
  rewrite !elem_of_app in Hx. rewrite !elem_of_app. tauto.
Qed.

Lemma routed_pushed s s' evs ev : routed s s' evs → ev ∈ evs → ev_packet ev ∈ packets s'.
Proof.
  intros Hr Hev. pose proof (rt_range _ _ _ Hr ev Hev) as Hrg.
  destruct (ports s !! Z.to_nat (ev_port ev)) as [cp|] eqn:Hcp.
  2:{ apply lookup_ge_None in Hcp. lia. }
  apply elem_of_packets. eexists _, _. split; [by apply (rt_ports _ _ _ Hr)|].
  apply held_set_outputqueue. right. right. apply elem_of_app. right.
  unfold pushed_to. apply list_elem_of_fmap_2. apply list_elem_of_filter.
  split; [lia|done].
Qed.

Lemma routed_refl s : routed s s [].
Proof.
  constructor; simpl.
  - by rewrite app_nil_r.
  - by intros ev ?%elem_of_nil.
  - done.
  - intros j cp Hj. rewrite Hj. f_equal. unfold pushed_to. simpl.
    destruct cp. unfold set_outputqueue. simpl. by rewrite app_nil_r.
  - apply untouched_refl.
  - by intros ev ?%elem_of_nil.
Qed.

Lemma routed_trans s1 s2 s3 e1 e2 :
  routed s1 s2 e1 → routed s2 s3 e2 → routed s1 s3 (e1 ++ e2).
Proof.
  intros H1 H2. constructor.
  - by rewrite (rt_log _ _ _ H2), (rt_log _ _ _ H1), app_assoc.
  - intros ev [?|?]%elem_of_app; [by apply (rt_range _ _ _ H1)|].
    rewrite <- (rt_len _ _ _ H1). by apply (rt_range _ _ _ H2).
  - by rewrite (rt_len _ _ _ H2), (rt_len _ _ _ H1).
  - intros j cp Hj. rewrite (rt_ports _ _ _ H2 j _ (rt_ports _ _ _ H1 j cp Hj)).
    f_equal. rewrite pushed_to_app. unfold set_outputqueue. simpl. by rewrite app_assoc.
  - eapply untouched_trans; [apply (rt_untouched _ _ _ H1)|].
    eapply untouched_sub; [|apply (rt_untouched _ _ _ H2)].
    intros x. by apply (routed_packets _ _ _ _ H1).
  - intros ev [Hev|Hev]%elem_of_app; [|by apply (rt_stamped _ _ _ H2)].
    destruct (rt_stamped _ _ _ H1 ev Hev) as (pk & Hpk & Hts).
    exists pk. split; [|done].
    apply (rt_untouched _ _ _ H2); [|done]. by eapply routed_pushed.
Qed.

Lemma push_output_inv i sp ts s s' :
  push_output i sp ts s = Ok s' →
  ∃ cp, 0 ≤ i ∧ ports s !! Z.to_nat i = Some cp ∧
    s' = SwitchState
           (<[Z.to_nat i := set_outputqueue (outputqueue cp ++ [sp]) cp]> (ports s))
           (mem s) (rand_calls s) (pushlog s ++ [PushEvent i sp ts]).
Proof.
  unfold push_output. destruct (get_port s i) as [cp|] eqn:Hg; simpl; [|done].
  apply get_port_inv in Hg as [Hi Hcp]. intros [= <-]. by exists cp.
Qed.

Lemma packets_push (l : list port) n cp sp :
  l !! n = Some cp →
  mjoin (held <$> <[n := set_outputqueue (outputqueue cp ++ [sp]) cp]> l)
  ≡ₚ sp :: mjoin (held <$> l).
Proof.
  intros Hcp. rewrite join_insert_perm by (by eapply lookup_lt_Some).
  rewrite (join_lookup_perm held l n cp Hcp).
  assert (held (set_outputqueue (outputqueue cp ++ [sp]) cp) ≡ₚ sp :: held cp) as ->; [|done].
  unfold held. simpl. rewrite !app_assoc. by rewrite <- Permutation_cons_append.
Qed.

(** A push of a packet that is allocated. *)
Lemma push_output_routed i sp ts s s' pk :
  push_output i sp ts s = Ok s' →
  pkts (mem s) !! sp = Some pk → timestamp pk = ts →
  routed s s' [PushEvent i sp ts] ∧ mem s' = mem s ∧ packets s' ≡ₚ sp :: packets s.
Proof.
  intros (cp & Hi & Hcp & ->)%push_output_inv Hpk Hts.
  assert (Z.to_nat i < length (ports s))%nat as Hn by (by eapply lookup_lt_Some).
  split; [|split; [done|by apply packets_push]].
  constructor; simpl.
  - done.
  - intros ev ->%list_elem_of_singleton. simpl. lia.
  - by rewrite length_insert.
  - intros j cp' Hj. unfold pushed_to. rewrite filter_cons, filter_nil. simpl.
    destruct (decide (j = Z.to_nat i)) as [->|Hne].
    + rewrite list_lookup_insert_eq by done. rewrite decide_True by lia.
      rewrite Hcp in Hj. by injection Hj as <-.
    + rewrite list_lookup_insert_ne by done. rewrite decide_False by lia.
      rewrite Hj. f_equal. destruct cp'. unfold set_outputqueue. simpl.
      by rewrite app_nil_r.
  - apply untouched_refl.
  - intros ev ->%list_elem_of_singleton. simpl. eauto.
Qed.

Lemma routed_from s0 s s' evs :
  routed s0 s' evs → ports s0 = ports s → pushlog s0 = pushlog s →
  untouched (mem s) (mem s0) (packets s) → routed s s' evs.
Proof.
  intros [Hlog Hrg Hlen Hports Hun Hst] Hp Hl Hu. unfold packets in *. rewrite Hp in *.
  constructor; try done; [congruence|]. by eapply untouched_trans.
Qed.

Lemma routed_set_mem s s2 evs h :
  routed s s2 evs → untouched (mem s2) h (packets s2) → routed s (set_mem h s2) evs.
Proof.
  intros Hr Hu. pose proof Hr as [Hlog Hrg Hlen Hports Hun Hst].
  constructor; simpl; try done.
  - eapply untouched_trans; [exact Hun|]. eapply untouched_sub; [|exact Hu].
    intros x. by apply (routed_packets _ _ _ _ Hr).
  - intros ev Hev. destruct (Hst ev Hev) as (pk & Hpk & Hts). exists pk. split; [|done].
    apply Hu; [|done]. by eapply routed_pushed.
Qed.

Lemma load_bytes_length src n bs :
  load_bytes src 0 n = Ok bs → length bs = Z.to_nat n.
Proof.
  unfold load_bytes. case_decide as Hb; [|done]. intros [= <-].
  rewrite length_take, length_drop. lia.
Qed.

Lemma broadcast_copy_owned c x i s s' L p :
  owned c (mem s) (x :: L ++ packets s) → pkts (mem s) !! x = Some p →
  broadcast_copy c x i s = Ok s' →
  ∃ evs, owned c (mem s') (x :: L ++ packets s') ∧ pkts (mem s') !! x = Some p ∧
    routed s s' evs ∧ untouched (mem s) (mem s') L ∧ rand_calls s' = rand_calls s ∧
    ∀ ev, ev ∈ evs → ev_timestamp ev = timestamp p.
Proof.
  intros Ho Hp. unfold broadcast_copy, get_pkt. rewrite Hp. simpl.
  case_decide as Hsnd.
  2:{ intros [= <-]. exists []. split; [done|]. split; [done|].
      split; [apply routed_refl|]. split; [apply untouched_refl|].
      split; [done|]. by intros ev ?%elem_of_nil. }
  unfold get_buf. destruct (bufs (mem s) !! dat p) as [src|] eqn:Hsrc; simpl; [|done].
  destruct (load_bytes src 0 (DAT_BYTES c)) as [bs|] eqn:Hbs; simpl; [|done].
  apply load_bytes_length in Hbs.
  unfold alloc_pkt, alloc_buf. simpl. rewrite insert_insert_eq.
  set (tsp2 := fresh (dom (pkts (mem s)))). set (d2 := fresh (dom (bufs (mem s)))).
  set (pk2 := SwitchPacket _ d2 _ _ _).
  set (h3 := Heap _ _). intros Hpush.
  assert (pkts (mem s) !! tsp2 = None) as Hf1 by apply fresh_pkt.
  assert (bufs (mem s) !! dat pk2 = None) as Hf2 by apply fresh_buf.
  pose proof (owned_alloc c (mem s) _ tsp2 pk2 bs Ho Hf1 Hf2 Hbs) as Ho3.
  pose proof (untouched_alloc c (mem s) _ tsp2 pk2 bs Ho Hf1 Hf2) as Hu3.
  change (Heap _ _) with h3 in Ho3, Hu3.
  destruct (push_output_routed i tsp2 (timestamp p) (set_mem h3 s) s' pk2 Hpush)
    as (Hr & Hmem & Hperm).
  { simpl. by rewrite lookup_insert_eq. }
  { done. }
  simpl in Hmem. change (packets (set_mem h3 s)) with (packets s) in Hperm.
  exists [PushEvent i tsp2 (timestamp p)]. rewrite Hmem.
  split; [|split; [|split; [|split; [|split]]]].
  - eapply owned_perm; [|exact Ho3]. rewrite Hperm, <- Permutation_middle.
    apply perm_swap.
  - apply Hu3; [by left|done].
  - eapply routed_from; [exact Hr|done|done|].
    simpl. eapply untouched_sub; [|exact Hu3]. intros y Hy. right.
    apply elem_of_app. by right.
  - eapply untouched_sub; [|exact Hu3]. intros y Hy. right. apply elem_of_app. by left.
  - apply push_output_inv in Hpush as (cp & _ & _ & ->). done.
  - by intros ev ->%list_elem_of_singleton.
Qed.

Lemma broadcast_copies_owned c x L p l : ∀ s s',
  owned c (mem s) (x :: L ++ packets s) → pkts (mem s) !! x = Some p →
  foldM (broadcast_copy c x) l s = Ok s' →
  ∃ evs, owned c (mem s') (x :: L ++ packets s') ∧ pkts (mem s') !! x = Some p ∧
    routed s s' evs ∧ untouched (mem s) (mem s') L ∧ rand_calls s' = rand_calls s ∧
    ∀ ev, ev ∈ evs → ev_timestamp ev = timestamp p.
Proof.
  induction l as [|i l IH]; intros s s' Ho Hp; simpl.
  - intros [= <-]. exists []. split; [done|]. split; [done|].
    split; [apply routed_refl|]. split; [apply untouched_refl|].
    split; [done|]. by intros ev ?%elem_of_nil.
  - destruct (broadcast_copy c x i s) as [s1|] eqn:Hc; simpl; [|done]. intros Hf.
    destruct (broadcast_copy_owned _ _ _ _ _ _ _ Ho Hp Hc)
      as (e1 & Ho1 & Hp1 & Hr1 & Hu1 & Hk1 & Ht1).
    destruct (IH _ _ Ho1 Hp1 Hf) as (e2 & Ho2 & Hp2 & Hr2 & Hu2 & Hk2 & Ht2).
    exists (e1 ++ e2). split; [done|]. split; [done|].
    split; [by eapply routed_trans|]. split; [by eapply untouched_trans|].
    split; [congruence|]. intros ev [?|?]%elem_of_app; auto.
Qed.

(** One iteration of the routing loop, for the packet [x] taken from the
    queue in which the packets [L] stay. *)
Lemma route_packet_owned c x s s' L :
  owned c (mem s) (x :: L ++ packets s) → route_packet c x s = Ok s' →
  ∃ evs p, pkts (mem s) !! x = Some p ∧
    owned c (mem s') (L ++ packets s') ∧ routed s s' evs ∧
    untouched (mem s) (mem s') L ∧
    ∀ ev, ev ∈ evs → ev_timestamp ev = timestamp p.
Proof.
  intros Ho. unfold route_packet, get_pkt, get_buf.
  destruct (pkts (mem s) !! x) as [p|] eqn:Hp; simpl; [|done].
  destruct (bufs (mem s) !! dat p) as [d|] eqn:Hd; simpl; [|done].
  destruct (get_port_from_flit c d 0 (rand_calls s)) as [[port k']|]; simpl; [|done].
  assert (routed s (set_rand_calls k' s) []) as Hr0.
  { eapply routed_from; [apply routed_refl|done|done|apply untouched_refl]. }
  case_decide as Hb.
  - destruct (foldM _ _ _) as [s2|] eqn:Hf; simpl; [|done].
    destruct (broadcast_copies_owned c x L p _ (set_rand_calls k' s) s2 Ho Hp Hf)
      as (evs & Ho2 & Hp2 & Hr2 & Hu2 & _ & Ht2).
    unfold free_packet, get_pkt, get_buf. rewrite Hp2. simpl.
    destruct (bufs (mem s2) !! dat p) as [d2|]; simpl; [|done]. intros [= <-].
    destruct (owned_free c (mem s2) _ x p Ho2 Hp2) as [Ho3 Hu3].
    exists evs, p. split; [done|]. split; [done|]. split; [|split; [|done]].
    + assert (routed s s2 evs) as Hr by (eapply (routed_trans _ _ _ []); eauto).
      apply routed_set_mem; [done|]. simpl.
      eapply untouched_sub; [|exact Hu3]. intros y Hy. apply elem_of_app. by right.
    + simpl. eapply untouched_trans; [exact Hu2|].
      eapply untouched_sub; [|exact Hu3]. intros y Hy. apply elem_of_app. by left.
  - intros Hpush.
    destruct (push_output_routed port x (timestamp p) (set_rand_calls k' s) s' p Hpush)
      as (Hr & Hmem & Hperm); [done..|].
    simpl in Hmem. change (packets (set_rand_calls k' s)) with (packets s) in Hperm.
    exists [PushEvent port x (timestamp p)], p. rewrite Hmem.
    split; [done|]. split; [|split; [|split]].
    + eapply owned_perm; [|exact Ho]. rewrite Hperm. by rewrite <- Permutation_middle.
    + by eapply (routed_trans _ _ _ []).
    + apply untouched_refl.
    + by intros ev ->%list_elem_of_singleton.
Qed.

(** The state after phase 2: every input queue is empty. *)
Definition drained (s : switch) : switch :=
  SwitchState (set_inputqueue [] <$> ports s) (mem s) (rand_calls s) (pushlog s).

(** The timestamp of the packet at [sp]. *)
Definition stamp (h : heap) (sp : loc) : Z := default 0 (timestamp <$> pkts h !! sp).

Lemma packets_drained s : packets s ≡ₚ queued s ++ packets (drained s).
Proof.
  unfold packets, queued, drained. simpl.
  induction (ports s) as [|p l IH]; [done|].
  rewrite !fmap_cons. simpl. rewrite IH.
  assert (held p = inputqueue p ++ held (set_inputqueue [] p)) as -> by done.
  rewrite <- !app_assoc. apply Permutation_app_head.
  apply Permutation_app_swap_app.
Qed.

Lemma Sorted_fmap_filter {A} (f : A → Z) (P : A → Prop) `{∀ x, Decision (P x)} l :
  Sorted Z.le (f <$> l) → Sorted Z.le (f <$> filter P l).
Proof.
  intros Hs%Sorted_StronglySorted; [|intros ???; lia].
  apply StronglySorted_Sorted.
  induction l as [|a l IH]; [constructor|].
  rewrite fmap_cons in Hs. apply StronglySorted_inv in Hs as [Hs Hall].
  rewrite filter_cons. case_decide; [|by apply IH].
  rewrite fmap_cons. constructor; [by apply IH|].
  rewrite Forall_forall in Hall. apply Forall_forall.
  intros y (b & -> & Hb)%list_elem_of_fmap. apply Hall.
  apply list_elem_of_fmap_2. by apply list_elem_of_filter in Hb as [_ ?].
Qed.

Section Owned.
Context {Q : Type} `{PriorityQueue Q} (Hlaw : pq_lawful Q).

Lemma route_loop_owned c fuel : ∀ (q : Q) s s',
  owned c (mem s) ((switchpack <$> pq_contents q) ++ packets s) →
  route_loop c fuel q s = Ok s' →
  ∃ evs, owned c (mem s') (packets s') ∧ routed s s' evs.
Proof.
  assert (∀ (q : Q) s, pq_is_empty q = true →
            owned c (mem s) ((switchpack <$> pq_contents q) ++ packets s) →
            ∃ evs, owned c (mem s) (packets s) ∧ routed s s evs) as Hempty.
  { intros q s He Ho. apply (pq_is_empty_spec Q Hlaw) in He. rewrite He in Ho.
    exists []. split; [done|apply routed_refl]. }
  induction fuel as [|fuel IH]; intros q s s' Ho; simpl.
  - destruct (pq_is_empty q) eqn:He; [|done]. intros [= <-]. by eapply Hempty.
  - destruct (pq_is_empty q) eqn:He; [intros [= <-]; by eapply Hempty|].
    destruct (pq_top q) as [e|] eqn:Htop; [|done].
    destruct (route_packet c (switchpack e) s) as [s1|] eqn:Hrp; simpl; [|done].
    intros Hloop. pose proof (pq_top_pop Q Hlaw q e Htop) as Hperm.
    destruct (route_packet_owned c (switchpack e) s s1
                (switchpack <$> pq_contents (pq_pop q))) as (e1 & p & _ & Ho1 & Hr1 & _).
    { eapply owned_perm; [|exact Ho]. by rewrite Hperm, fmap_cons. }
    { done. }
    destruct (IH _ _ _ Ho1 Hloop) as (e2 & Ho2 & Hr2).
    exists (e1 ++ e2). split; [done|]. by eapply routed_trans.
Qed.

(** Phases 2 and 3 on a state whose packets are owned. *)
Lemma switching_spec c s fuel :
  wf_config c → Z.of_nat (length (ports s)) = NUMPORTS c →
  owned c (mem s) (packets s) → pushlog s = [] →
  (length (queued s) ≤ fuel)%nat →
  ∃ s', switching c fuel s = Ok s' ∧
    owned c (mem s') (packets s') ∧
    routed (drained s) s' (pushlog s') ∧
    Sorted Z.le (ev_timestamp <$> pushlog s').
Proof.
  intros Hwf Hports Ho Hlog Hfuel.
  assert (owned c (mem s) (queued s)) as [Hnd Hlive Hinj].
  { eapply owned_submseteq; [|exact Ho]. rewrite packets_drained.
    apply submseteq_inserts_r. done. }
  assert (Forall (λ sp, is_Some (pkts (mem s) !! sp)) (queued s)) as Hsome.
  { apply Forall_forall. intros sp Hsp. destruct (Hlive sp Hsp) as (p & d & Hp & _). eauto. }
  destruct (drain_ports Hlaw s pq_new (length (ports s)) Hsome (le_n _))
    as (s1 & q1 & Hf & Hmem & Hlog1 & Hrand1 & Hlen1 & Hports1 & Hq1).
  rewrite Hports in Hf. rewrite take_ge in Hq1 by done.
  rewrite (pq_new_contents Q Hlaw) in Hq1. simpl in Hq1. fold (queued s) in Hq1.
  assert (s1 = drained s) as ->.
  { destruct s1 as [ps1 m1 r1 l1]. simpl in *. unfold drained. f_equal; try done.
    apply list_eq. intros j. rewrite Hports1, list_lookup_fmap.
    case_decide as Hj; [done|]. rewrite lookup_ge_None_2 by lia. done. }
  assert (routing_inv c (drained s) (pq_contents q1)) as Hinv.
  { apply (routing_inv_perm c _ (entry (mem s) <$> queued s)); [done|].
    constructor; simpl.
    - by rewrite length_fmap.
    - by rewrite switchpack_entry.
    - apply Forall_forall. intros e (sp & -> & Hsp)%list_elem_of_fmap.
      destruct (Hlive sp Hsp) as (p & d & Hp & Hd & Hdl).
      exists p, d. unfold entry; simpl. rewrite Hp. done.
    - intros e1 e2 p1 p2 (sp1 & -> & Hsp1)%list_elem_of_fmap
        (sp2 & -> & Hsp2)%list_elem_of_fmap. simpl. by apply Hinj.
    - rewrite Hlog. constructor.
    - intros ev e. rewrite Hlog. by intros ?%elem_of_nil. }
  destruct (route_loop_spec Hlaw c fuel Hwf q1 (drained s) Hinv) as (s' & Hr & Hinv').
  { rewrite Hq1, length_fmap. done. }
  destruct (route_loop_owned c fuel q1 (drained s) s') as (evs & Ho' & Hrt); [|done|].
  { simpl. eapply owned_perm; [|exact Ho].
    rewrite Hq1, switchpack_entry. apply packets_drained. }
  exists s'. unfold switching, phase2. rewrite Hf; simpl.
  split; [done|]. split; [done|].
  pose proof (rt_log _ _ _ Hrt) as Hl. simpl in Hl. rewrite Hlog in Hl. simpl in Hl.
  rewrite Hl. split; [done|]. rewrite <- Hl. apply (ri_sorted _ _ _ Hinv').
Qed.

(** X7: phases 2 and 3 complete on a state whose packets are owned, and
    keep the heap discipline; afterwards every input queue is empty, every
    output queue is its old content followed by new packets, the packet
    under reassembly and the windows of each port are as before, and the
    packets that were under reassembly or waiting for output are
    untouched. *)
Theorem switching_keeps_ownership c s fuel :
  wf_config c → Z.of_nat (length (ports s)) = NUMPORTS c →
  owned c (mem s) (packets s) → pushlog s = [] →
  (length (queued s) ≤ fuel)%nat →
  ∃ s', switching c fuel s = Ok s' ∧
    owned c (mem s') (packets s') ∧
    (∀ j p, ports s !! j = Some p →
       ∃ new, ports s' !! j =
         Some (Port (current_input_buf p) (current_output_buf p)
                    (input_in_progress p) [] (outputqueue p ++ new))) ∧
    untouched (mem s) (mem s') (packets (drained s)).
Proof.
  intros Hwf Hports Ho Hlog Hfuel.
  destruct (switching_spec c s fuel Hwf Hports Ho Hlog Hfuel) as (s' & Hs & Ho' & Hr & _).
  exists s'. split; [done|]. split; [done|]. split.
  - intros j p Hj. exists (pushed_to j (pushlog s')).
    rewrite (rt_ports _ _ _ Hr j (set_inputqueue [] p)); [done|].
    simpl. by rewrite list_lookup_fmap, Hj.
  - apply (rt_untouched _ _ _ Hr).
Qed.

(** X8: each output queue receives the packets routed to it in the order
    of the pushes, and the timestamps of these packets, read from the
    packets themselves after the loop, are in nondecreasing order. *)
Theorem output_queues_in_timestamp_order c s fuel :
  wf_config c → Z.of_nat (length (ports s)) = NUMPORTS c →
  owned c (mem s) (packets s) → pushlog s = [] →
  (length (queued s) ≤ fuel)%nat →
  ∃ s', switching c fuel s = Ok s' ∧
    ∀ j p, ports s !! j = Some p →
      ∃ p', ports s' !! j = Some p' ∧
        outputqueue p' = outputqueue p ++ pushed_to j (pushlog s') ∧
        Sorted Z.le (stamp (mem s') <$> pushed_to j (pushlog s')).
Proof.
  intros Hwf Hports Ho Hlog Hfuel.
  destruct (switching_spec c s fuel Hwf Hports Ho Hlog Hfuel) as (s' & Hs & _ & Hr & Hsorted).
  exists s'. split; [done|]. intros j p Hj. eexists. split.
  { apply (rt_ports _ _ _ Hr j (set_inputqueue [] p)). simpl.
    by rewrite list_lookup_fmap, Hj. }
  split; [done|]. unfold pushed_to. rewrite <- list_fmap_compose.
  rewrite (Forall_fmap_ext_1 (stamp (mem s') ∘ ev_packet) ev_timestamp).
  - by apply Sorted_fmap_filter.
  - apply Forall_forall. intros ev [_ Hev]%list_elem_of_filter. simpl.
    destruct (rt_stamped _ _ _ Hr ev Hev) as (pk & Hpk & Hts).
    unfold stamp. by rewrite Hpk.
Qed.

(** X9: the three phases compose.  On a state whose packets are owned,
    if reassembly succeeds then routing does, and [do_fast_switching] is
    the flush of the output queues applied to a state in which the packets
    are owned, the pushes were made in timestamp order, every input queue
    is empty and every output queue has only grown. *)
Theorem do_fast_switching_phases c wfo s s1 fuel :
  wf_config c → Z.of_nat (length (ports s)) = NUMPORTS c →
  owned c (mem s) (packets s) → pushlog s = [] →
  phase1 c s = Ok s1 → (length (queued s1) ≤ fuel)%nat →
  ∃ s2, do_fast_switching c wfo fuel s = foldM wfo (seqZ 0 (NUMPORTS c)) s2 ∧
    owned c (mem s2) (packets s2) ∧
    Sorted Z.le (ev_timestamp <$> pushlog s2) ∧
    Forall2 (λ p p2, inputqueue p2 = [] ∧ ∃ new, outputqueue p2 = outputqueue p ++ new)
      (ports s) (ports s2).
Proof.
  intros Hwf Hports Ho Hlog H1 Hfuel.
  destruct (phase1_owned c s s1 Ho H1) as [Ho1 [Hg Hl1 _ _]].
  assert (Z.of_nat (length (ports s1)) = NUMPORTS c) as Hports1.
  { by rewrite <- (Forall2_length _ _ _ Hg). }
  destruct (switching_spec c s1 fuel Hwf Hports1 Ho1 ltac:(congruence) Hfuel)
    as (s2 & Hs & Ho2 & Hr & Hsorted).
  exists s2. unfold do_fast_switching. rewrite H1. simpl. rewrite Hs. simpl.
  split; [done|]. split; [done|]. split; [done|].
  apply Forall2_same_length_lookup. split.
  { rewrite (rt_len _ _ _ Hr). simpl. rewrite length_fmap.
    by apply Forall2_length in Hg. }
  intros j p p2 Hp Hp2.
  destruct (Forall2_lookup_l _ _ _ _ _ Hg Hp) as (p1 & Hp1 & _ & Hoq & _).
  rewrite (rt_ports _ _ _ Hr j (set_inputqueue [] p1)) in Hp2.
  2:{ simpl. by rewrite list_lookup_fmap, Hp1. }
  injection Hp2 as <-. simpl. split; [done|]. rewrite Hoq. eauto.
Qed.

End Owned.

(** X6: phase 1 keeps the heap discipline.  If the packets held by the
    ports are distinct allocated structs, each with a full-size buffer of
    its own, then so they are after phase 1; phase 1 only appends to input
    queues (output queues and input windows are as before) and leaves the
    packets already queued, and their buffers, untouched. *)
Theorem phase1_keeps_ownership c s s' :
  owned c (mem s) (packets s) → phase1 c s = Ok s' →
  owned c (mem s') (packets s') ∧
  Forall2 port_grows (ports s) (ports s') ∧
  pushlog s' = pushlog s ∧ rand_calls s' = rand_calls s ∧
  untouched (mem s) (mem s') (mjoin (settled <$> ports s)).
Proof.
  intros Ho H1. destruct (phase1_owned c s s' Ho H1) as [Ho' [Hg Hl Hr Hu]]. done.
Qed.

(** X10: a window in which [is_valid_flit] answers false for every token
    leaves the heap and the port as they are: nothing is allocated and
    nothing is queued. *)
Theorem reassemble_idle_window c i h p :
  (∀ t, 0 ≤ t < NUM_TOKENS c → is_valid_flit (current_input_buf p) t = Ok false) →
  reassemble c i (h, p) = Ok (h, p).
Proof.
  intros Hidle. unfold reassemble, reassemble_upto.
  assert (∀ l, (∀ t, t ∈ l → is_valid_flit (current_input_buf p) t = Ok false) →
               foldM (reassemble_token c i) l (h, p) = Ok (h, p)) as Hloop.
  { induction l as [|t l IH]; intros Hl; [done|]. cbn [foldM].
    assert (reassemble_token c i t (h, p) = Ok (h, p)) as ->.
    { unfold reassemble_token. cbn [fst snd]. cbv zeta.
      rewrite (Hl t) by (by left). done. }
    cbn [mbind res_bind]. apply IH. intros t' Ht'. apply Hl. by right. }
  apply Hloop. intros t Ht%elem_of_seqZ. apply Hidle. lia.
Qed.

(** X11: a packet whose first word has the multicast bit clear is moved
    by pointer: routing appends the packet to the output queue of exactly
    one port of the switch and leaves every other port and the heap
    unchanged; when the table entry of the destination is not
    [NUMDOWNLINKS] that port is the table entry and [rand()] is not
    called. *)
Theorem unicast_moves_pointer c x p d s :
  wf_config c → Z.of_nat (length (ports s)) = NUMPORTS c →
  pkts (mem s) !! x = Some p → bufs (mem s) !! dat p = Some d →
  (32 ≤ length d)%nat → Z.testbit (le_combine (take 8 d)) 16 = false →
  ∃ port cp s',
    route_packet c x s = Ok s' ∧
    0 ≤ port < NUMPORTS c ∧ ports s !! Z.to_nat port = Some cp ∧
    ports s' = <[Z.to_nat port := set_outputqueue (outputqueue cp ++ [x]) cp]> (ports s) ∧
    mem s' = mem s ∧
    (mac2port c (dest_mac_low (le_combine (take 8 d))) ≠ NUMDOWNLINKS c →
       port = mac2port c (dest_mac_low (le_combine (take 8 d))) ∧
       rand_calls s' = rand_calls s).
Proof.
  intros Hwf Hports Hp Hd Hl Hbit.
  destruct (get_port_from_flit_spec c d 0 (rand_calls s) Hwf Hl)
    as (port & k' & Hg & _ & Hb & Hu).
  destruct (Hu Hbit) as (Hne & _ & Hrange).
  assert (port ≠ BROADCAST_ADJUSTED) as Hnb.
  { intros Heq. apply Hb in Heq. congruence. }
  destruct (route_packet_unicast c x p d s port k' Hports Hp Hd Hg Hnb Hrange)
    as (cp & Hcp & Hr).
  eexists port, cp, _. split; [exact Hr|]. simpl.
  split; [done|]. split; [done|]. split; [done|]. split; [done|].
  intros Hm. by destruct (Hne Hm) as [-> ->].
Qed.

(** *** One valid flit *)

Lemma load_bytes_inv buf a n bs :
  load_bytes buf a n = Ok bs →
  0 ≤ a ∧ 0 ≤ n ∧ a + n ≤ Z.of_nat (length buf) ∧
  bs = take (Z.to_nat n) (drop (Z.to_nat a) buf) ∧ length bs = Z.to_nat n.
Proof.
  unfold load_bytes. case_decide as Hb; [|done]. intros [= <-].
  repeat split; try lia. rewrite length_take, length_drop. lia.
Qed.

Lemma append_flit_inv' h sp buf ptr h' :
  append_flit h sp buf ptr = Ok h' →
  ∃ pk d flit d', pkts h !! sp = Some pk ∧ bufs h !! dat pk = Some d ∧
    load_bytes buf ptr FLIT_SIZE_BYTES = Ok flit ∧
    store_bytes d (amtwritten pk * FLIT_SIZE_BYTES) flit = Ok d' ∧
    h' = Heap (<[sp := SwitchPacket (timestamp pk) (dat pk) (amtwritten pk + 1)
                                    (amtread pk) (sender pk)]> (pkts h))
              (<[dat pk := d']> (bufs h)).
Proof.
  unfold append_flit, get_pkt, get_buf.
  destruct (pkts h !! sp) as [pk|] eqn:Hpk; simpl; [|done].
  destruct (bufs h !! dat pk) as [d|] eqn:Hd; simpl; [|done].
  destruct (load_bytes _ _ _) as [flit|] eqn:Hfl; simpl; [|done].
  destruct (store_bytes _ _ _) as [d'|] eqn:Hst; simpl; [|done].
  intros [= <-]. by exists pk, d, flit, d'.
Qed.

Lemma reassemble_token_valid_inv c i t h p h' p' :
  is_valid_flit (current_input_buf p) t = Ok true →
  reassemble_token c i t (h, p) = Ok (h', p') →
  ∃ h1 p1 sp (last : bool),
    start_packet c i t h p = (h1, p1) ∧ input_in_progress p1 = Some sp ∧
    append_flit h1 sp (current_input_buf p) (get_flit_ptr t) = Ok h' ∧
    is_last_flit (current_input_buf p) t = Ok last ∧
    p' = if last then set_input_in_progress None
                        (set_inputqueue (inputqueue p1 ++ [sp]) p1)
         else p1.
Proof.
  intros Hv. unfold reassemble_token. cbn [fst snd]. cbv zeta.
  rewrite Hv. cbn [mbind res_bind].
  destruct (start_packet c i t h p) as [h1 p1].
  destruct (input_in_progress p1) as [sp|] eqn:Hip; [|done].
  destruct (append_flit _ _ _ _) as [h2|] eqn:Happ; simpl; [|done].
  destruct (is_last_flit _ _) as [last|] eqn:Hlast; simpl; [|done].
  intros Hr. exists h1, p1, sp, last.
  destruct last; injection Hr as <- <-; done.
Qed.

(** X12: the first flit of a packet.  With no packet under reassembly, a
    valid flit at token [t] of port [i] allocates a packet with timestamp
    [this_iter_cycles_start + t + switchlat] (as a [uint64_t]), sender
    [i], [amtwritten = 1], [amtread = 0] and a fresh zeroed buffer that
    starts with the flit; the packet is appended to the input queue if the
    flit is seen as last, and is the packet under reassembly otherwise. *)
Theorem first_flit_starts_packet c i t h p h' p' :
  input_in_progress p = None →
  is_valid_flit (current_input_buf p) t = Ok true →
  reassemble_token c i t (h, p) = Ok (h', p') →
  ∃ sp pk flit (last : bool),
    pkts h !! sp = None ∧ pkts h' !! sp = Some pk ∧
    timestamp pk = (this_iter_cycles_start c + t + switchlat c) `mod` 2 ^ 64 ∧
    sender pk = i ∧ amtwritten pk = 1 ∧ amtread pk = 0 ∧
    bufs h !! dat pk = None ∧
    get_flit (current_input_buf p) t = Ok flit ∧
    bufs h' !! dat pk = Some (flit ++ replicate (Z.to_nat (DAT_BYTES c) - 8) 0) ∧
    is_last_flit (current_input_buf p) t = Ok last ∧
    inputqueue p' = (if last then inputqueue p ++ [sp] else inputqueue p) ∧
    input_in_progress p' = (if last then None else Some sp).
Proof.
  intros Hip Hv Hr.
  destruct (reassemble_token_valid_inv _ _ _ _ _ _ _ Hv Hr)
    as (h1 & p1 & sp & last & Hsp & Hip1 & Happ & Hlast & ->).
  unfold start_packet in Hsp. rewrite Hip in Hsp.
  unfold alloc_buf, alloc_pkt in Hsp. simpl in Hsp. injection Hsp as <- <-.
  simpl in Hip1. injection Hip1 as <-.
  apply append_flit_inv' in Happ as (pk & d & flit & d' & Hpk & Hd & Hfl & Hst & ->).
  simpl in Hpk. rewrite lookup_insert_eq in Hpk. injection Hpk as <-.
  simpl in Hd. rewrite lookup_insert_eq in Hd. injection Hd as <-.
  simpl in Hst. unfold store_bytes in Hst. case_decide as Hb; [|done].
  injection Hst as <-.
  pose proof Hfl as (_ & _ & _ & _ & Hlen)%load_bytes_inv.
  change (Z.to_nat FLIT_SIZE_BYTES) with 8%nat in Hlen.
  change (Z.to_nat (0 * FLIT_SIZE_BYTES)) with 0%nat. simpl take. simpl "++".
  rewrite drop_replicate, Hlen. simpl.
  eexists _, _, flit, last. split; [apply fresh_pkt|].
  rewrite !lookup_insert_eq. split; [done|]. simpl.
  do 4 (split; [done|]). split; [apply fresh_buf|]. split; [done|].
  rewrite lookup_insert_eq. split; [done|]. split; [done|].
  destruct last; done.
Qed.

(** X13: a further flit of a packet.  With packet [sp] under reassembly,
    a valid flit is copied to offset [8 * amtwritten] of the packet buffer
    (which lies within the buffer whenever the step succeeds) and
    [amtwritten] grows by one; timestamp, sender and buffer pointer are
    kept; the packet is queued if the flit is seen as last. *)
Theorem next_flit_appends c i t h p h' p' sp pk d :
  input_in_progress p = Some sp → pkts h !! sp = Some pk → bufs h !! dat pk = Some d →
  is_valid_flit (current_input_buf p) t = Ok true →
  reassemble_token c i t (h, p) = Ok (h', p') →
  ∃ flit (last : bool),
    get_flit (current_input_buf p) t = Ok flit ∧
    0 ≤ amtwritten pk ∧ 8 * (amtwritten pk + 1) ≤ Z.of_nat (length d) ∧
    pkts h' !! sp = Some (SwitchPacket (timestamp pk) (dat pk) (amtwritten pk + 1)
                                       (amtread pk) (sender pk)) ∧
    bufs h' !! dat pk
      = Some (take (Z.to_nat (8 * amtwritten pk)) d ++ flit
              ++ drop (Z.to_nat (8 * amtwritten pk) + 8) d) ∧
    is_last_flit (current_input_buf p) t = Ok last ∧
    inputqueue p' = (if last then inputqueue p ++ [sp] else inputqueue p) ∧
    input_in_progress p' = (if last then None else Some sp).
Proof.
  intros Hip Hpk Hd Hv Hr.
  destruct (reassemble_token_valid_inv _ _ _ _ _ _ _ Hv Hr)
    as (h1 & p1 & sp1 & last & Hsp & Hip1 & Happ & Hlast & ->).
  unfold start_packet in Hsp. rewrite Hip in Hsp. injection Hsp as <- <-.
  rewrite Hip in Hip1. injection Hip1 as <-.
  apply append_flit_inv' in Happ as (pk1 & d1 & flit & d' & Hpk1 & Hd1 & Hfl & Hst & ->).
  rewrite Hpk in Hpk1. injection Hpk1 as <-.
  rewrite Hd in Hd1. injection Hd1 as <-.
  unfold store_bytes in Hst. case_decide as Hb; [|done]. injection Hst as <-.
  pose proof Hfl as (_ & _ & _ & _ & Hlen)%load_bytes_inv.
  change FLIT_SIZE_BYTES with 8 in *. change (Z.to_nat 8) with 8%nat in Hlen.
  rewrite Hlen in *. rewrite (Z.mul_comm (amtwritten pk) 8).
  exists flit, last. split; [done|]. split; [lia|]. split; [lia|].
  simpl. rewrite !lookup_insert_eq. split; [done|]. split; [done|]. split; [done|].
  destruct last; simpl; by rewrite ?Hip.
Qed.

(** *** Scenarios *)

Lemma owned_nil c h : owned c h [].
Proof.
  constructor; [constructor|by intros sp ?%elem_of_nil|].
  by intros sp1 sp2 p1 p2 ?%elem_of_nil.
Qed.

(** A window of one big-token in which flit 0 is valid and last and is
    addressed to MAC suffix 0x0201. *)
Definition unicast_window : list Z :=
  [0; 0; 0; 0; 0; 0x28; 0; 0] ++ [0; 0; 0; 0; 0; 0; 0x02; 0x01] ++ replicate 48 0.

(** Four idle ports, but for a one-flit packet that arrives on port 0. *)
Definition core_state : switch :=
  SwitchState [Port unicast_window [] None [] []; Port (replicate 64 0) [] None [] [];
               Port (replicate 64 0) [] None [] []; Port (replicate 64 0) [] None [] []]
    (Heap ∅ ∅) 0 [].

Lemma order_state_packets_owned : owned cfg4 (mem order_state) (packets order_state).
Proof.
  change (packets order_state) with [0%nat; 1%nat].
  constructor.
  - apply (bool_decide_unpack _). vm_compute. reflexivity.
  - intros sp [->|[->|?%elem_of_nil]%elem_of_cons]%elem_of_cons; [| |done];
      eexists _, _; (split; [reflexivity|split; reflexivity]).
  - intros sp1 sp2 p1 p2 H1 H2.
    apply elem_of_cons in H1 as [->|H1]; [|apply list_elem_of_singleton in H1 as ->];
    (apply elem_of_cons in H2 as [->|H2]; [|apply list_elem_of_singleton in H2 as ->]);
    try done; intros [= <-] [= <-]; done.
Qed.

Lemma phase1_keeps_ownership_witness :
  ∃ s', phase1 cfg4 core_state = Ok s' ∧ owned cfg4 (mem s') (packets s').
Proof.
  assert (∃ s', phase1 cfg4 core_state = Ok s') as [s' Hs']
    by (eexists; vm_compute; reflexivity).
  exists s'. split; [exact Hs'|].
  apply (phase1_keeps_ownership cfg4 core_state s' (owned_nil _ _) Hs').
Defined.

Lemma switching_keeps_ownership_witness :
  ∃ s', switching (Q:=list tspacket) cfg4 2 order_state = Ok s' ∧
        owned cfg4 (mem s') (packets s').
Proof.
  destruct (switching_keeps_ownership list_pq_lawful cfg4 order_state 2)
    as (s' & Hs & Ho & _).
  - exact cfg4_wf.
  - reflexivity.
  - exact order_state_packets_owned.
  - reflexivity.
  - simpl. lia.
  - exists s'. split; [exact Hs|exact Ho].
Defined.

Lemma output_queues_in_timestamp_order_witness :
  ∃ s' p', switching (Q:=list tspacket) cfg4 2 order_state = Ok s' ∧
    ports s' !! 2%nat = Some p' ∧
    Sorted Z.le (stamp (mem s') <$> pushed_to 2 (pushlog s')).
Proof.
  destruct (output_queues_in_timestamp_order list_pq_lawful cfg4 order_state 2)
    as (s' & Hs & Hq).
  - exact cfg4_wf.
  - reflexivity.
  - exact order_state_packets_owned.
  - reflexivity.
  - simpl. lia.
  - destruct (Hq 2%nat _ eq_refl) as (p' & Hp' & _ & Hsorted).
    exists s', p'. split; [exact Hs|]. split; [exact Hp'|exact Hsorted].
Defined.

Lemma do_fast_switching_phases_witness :
  ∃ s2, do_fast_switching (Q:=list tspacket) cfg4 (λ _ s, Ok s) 1 core_state
        = foldM (λ _ s, Ok s) (seqZ 0 (NUMPORTS cfg4)) s2 ∧
        owned cfg4 (mem s2) (packets s2).
Proof.
  assert (∃ s1, phase1 cfg4 core_state = Ok s1 ∧ (length (queued s1) ≤ 1)%nat)
    as (s1 & H1 & Hq).
  { eexists. split; [vm_compute; reflexivity|]. vm_compute. apply le_n. }
  destruct (do_fast_switching_phases list_pq_lawful cfg4 (λ _ s, Ok s) core_state s1 1)
    as (s2 & Hd & Ho & _).
  - exact cfg4_wf.
  - reflexivity.
  - apply owned_nil.
  - reflexivity.
  - exact H1.
  - exact Hq.
  - exists s2. split; [exact Hd|exact Ho].
Defined.

Lemma reassemble_idle_window_witness :
  reassemble cfg7 0 (Heap ∅ ∅, Port (replicate 64 0) [] None [] [])
  = Ok (Heap ∅ ∅, Port (replicate 64 0) [] None [] []).
Proof.
  apply reassemble_idle_window. intros t Ht. change (NUM_TOKENS cfg7) with 7 in Ht.
  simpl current_input_buf.
  assert (t = 0 ∨ t = 1 ∨ t = 2 ∨ t = 3 ∨ t = 4 ∨ t = 5 ∨ t = 6) as Hcases by lia.
  destruct Hcases as [->|[->|[->|[->|[->|[->| ->]]]]]]; vm_compute; reflexivity.
Defined.

Lemma unicast_moves_pointer_witness :
  ∃ s', route_packet cfg4 0%nat order_state = Ok s' ∧ mem s' = mem order_state.
Proof.
  destruct (unicast_moves_pointer cfg4 0%nat (SwitchPacket 1015 0 1 0 0)
              (flit_to_0201 ++ replicate 1568 0) order_state cfg4_wf)
    as (port & cp & s' & Hr & _ & _ & _ & Hm & _).
  - reflexivity.
  - reflexivity.
  - reflexivity.
  - vm_compute. lia.
  - vm_compute. reflexivity.
  - exists s'. split; [exact Hr|exact Hm].
Defined.

Lemma first_flit_starts_packet_witness :
  ∃ h' p' sp pk,
    reassemble_token cfg7 0 1 (Heap ∅ ∅, Port flit1_window [] None [] []) = Ok (h', p') ∧
    pkts h' !! sp = Some pk ∧ timestamp pk = 1011.
Proof.
  assert (∃ h' p', reassemble_token cfg7 0 1 (Heap ∅ ∅, Port flit1_window [] None [] [])
                   = Ok (h', p')) as (h' & p' & Hr)
    by (eexists _, _; vm_compute; reflexivity).
  destruct (first_flit_starts_packet cfg7 0 1 (Heap ∅ ∅) (Port flit1_window [] None [] [])
              h' p' eq_refl) as (sp & pk & _ & _ & _ & Hpk & Hts & _).
  - vm_compute. reflexivity.
  - exact Hr.
  - exists h', p', sp, pk. split; [exact Hr|]. split; [exact Hpk|]. rewrite Hts.
    vm_compute. reflexivity.
Defined.

(** The second flit of a packet whose first flit was taken from the
    previous window. *)
Definition second_flit_state : heap * port :=
  (Heap {[ 0%nat := SwitchPacket 1003 0 1 0 0 ]} {[ 0%nat := replicate 1600 0 ]},
   Port flit1_window [] (Some 0%nat) [] []).

Lemma next_flit_appends_witness :
  ∃ h' p' pk,
    reassemble_token cfg7 0 1 second_flit_state = Ok (h', p') ∧
    pkts h' !! 0%nat = Some pk ∧ amtwritten pk = 2 ∧ timestamp pk = 1003.
Proof.
  assert (∃ h' p', reassemble_token cfg7 0 1 second_flit_state = Ok (h', p'))
    as (h' & p' & Hr) by (eexists _, _; vm_compute; reflexivity).
  destruct (next_flit_appends cfg7 0 1 second_flit_state.1 second_flit_state.2
              h' p' 0%nat (SwitchPacket 1003 0 1 0 0)
              (replicate 1600 0) eq_refl eq_refl eq_refl)
    as (flit & last & _ & _ & _ & Hpk & _).
  - vm_compute. reflexivity.
  - exact Hr.
  - eexists h', p', _. split; [exact Hr|]. split; [exact Hpk|]. split; reflexivity.
Defined.

End OwnershipFacts.

(** ** switch.cc: every waiting packet is delivered, in timestamp order *)

Module DeliveryFacts.
Import Mem Flit Switch RoutingFacts OwnershipFacts.

(** The pushes [evs] that the body of the routing loop makes for the
    waiting packet at [sp] (struct [p], buffer [d] in the heap [h]), with
    [port] the answer of [get_port_from_flit] for its first flit: for a
    broadcast one push on every target port, each of a copy and with the
    timestamp of the packet; otherwise the one push of the packet itself
    on [port]. *)
Definition delivery (c : config) (h : heap) (sp : loc) (evs : list push_event)
  : Prop :=
  ∃ p d k port k',
    pkts h !! sp = Some p ∧ bufs h !! dat p = Some d ∧
    get_port_from_flit c d 0 k = Ok (port, k') ∧
    if decide (port = BROADCAST_ADJUSTED)
    then ev_port <$> evs = bcast_targets c (sender p) ∧
         Forall (λ ev, ev_timestamp ev = timestamp p ∧ ev_packet ev ≠ sp) evs
    else evs = [PushEvent port sp (timestamp p)].

Lemma copies_for_pushed_to j ts (copies : list (Z * loc * loc)) :
  copies_for (Z.of_nat j) copies
  = pushed_to j ((λ x, PushEvent x.1.1 x.1.2 ts) <$> copies).
Proof.
  unfold copies_for, pushed_to.
  induction copies as [|x cs IH]; [done|].
  rewrite fmap_cons, filter_cons. simpl.
  destruct (decide (x.1.1 = Z.of_nat j)); simpl; [f_equal|]; exact IH.
Qed.

Lemma delivery_heap c h h' sp evs :
  pkts h' !! sp = pkts h !! sp →
  (∀ p, pkts h !! sp = Some p → bufs h' !! dat p = bufs h !! dat p) →
  delivery c h' sp evs → delivery c h sp evs.
Proof.
  intros Hp Hd (p & d & k & port & k' & Hp' & Hd' & Hg & Hev).
  rewrite Hp in Hp'. rewrite (Hd p Hp') in Hd'.
  by exists p, d, k, port, k'.
Qed.

(** One iteration of the routing loop, with the pushes it makes: [x] is
    the packet on top of the queue, [es'] the packets that stay in it. *)
Lemma route_step_delivery c s es x es' :
  wf_config c → routing_inv c s es → es ≡ₚ x :: es' →
  ∃ s' evs,
    route_packet c (switchpack x) s = Ok s' ∧
    pushlog s' = pushlog s ++ evs ∧
    delivery c (mem s) (switchpack x) evs ∧
    (∀ j cp, ports s !! j = Some cp →
       ports s' !! j = Some (set_outputqueue (outputqueue cp ++ pushed_to j evs) cp)) ∧
    (∀ e, e ∈ es' → pkts (mem s') !! switchpack e = pkts (mem s) !! switchpack e) ∧
    (∀ e pe, e ∈ es' → pkts (mem s) !! switchpack e = Some pe →
       bufs (mem s') !! dat pe = bufs (mem s) !! dat pe).
Proof.
  intros Hwf [Hports Hnd Hlive Hinj Hsorted Hbound] Hperm.
  assert (x ∈ es) as Hx by (rewrite Hperm; by left).
  assert (∀ e, e ∈ es' → e ∈ es) as Hsub by (intros e He; rewrite Hperm; by right).
  rewrite Hperm, fmap_cons in Hnd. apply NoDup_cons in Hnd as [Hxn Hnd'].
  rewrite Forall_forall in Hlive.
  destruct (Hlive x Hx) as (p & d & Hp & Hts & Hd & Hdl).
  pose proof (wf_dat c Hwf) as Hdat.
  assert (32 ≤ length d)%nat as Hl32.
  { rewrite Hdl. unfold DAT_BYTES. change FLIT_SIZE_BYTES with 8. lia. }
  destruct (get_port_from_flit_spec c d 0 (rand_calls s) Hwf Hl32)
    as (port & k' & Hg & Hrange & Hb & Hu).
  assert (∀ e, e ∈ es' → switchpack e ≠ switchpack x) as Hother.
  { intros e He Heq. apply Hxn. rewrite <- Heq. by apply list_elem_of_fmap_2. }
  assert (∀ e pe, e ∈ es' → pkts (mem s) !! switchpack e = Some pe → dat pe ≠ dat p)
    as Hdat_other.
  { intros e pe He Hpe Heq. apply (Hother e He).
    apply (Hinj e x pe p); auto. }
  destruct (decide (port = BROADCAST_ADJUSTED)) as [->|Hne].
  - destruct (route_packet_broadcast c (switchpack x) p d s k' Hwf Hports Hp Hd Hdl Hg)
      as (s1 & copies & Hc & Hcs & ->).
    exists (set_mem (Heap (delete (switchpack x) (pkts (mem s1)))
                          (delete (dat p) (bufs (mem s1)))) s1),
           ((λ y, PushEvent y.1.1 y.1.2 (timestamp p)) <$> copies).
    split; [done|]. simpl.
    split; [apply (cp_log _ _ _ _ _ Hc)|].
    split.
    { exists p, d, (rand_calls s), BROADCAST_ADJUSTED, k'.
      split; [done|]. split; [done|]. split; [done|].
      rewrite decide_True by done. split.
      - rewrite <- Hcs, <- list_fmap_compose.
        rewrite <- list_fmap_compose. done.
      - apply Forall_fmap, Forall_forall. intros y Hy. simpl. split; [done|].
        pose proof (cp_fresh _ _ _ _ _ Hc) as Hf. rewrite Forall_forall in Hf.
        destruct (Hf y Hy) as (Hn & _). simpl in Hn. congruence. }
    split.
    { intros j cp Hj. rewrite (cp_ports _ _ _ _ _ Hc j cp Hj).
      by rewrite (copies_for_pushed_to j (timestamp p)). }
    split.
    { intros e He. rewrite lookup_delete_ne by (apply not_eq_sym, Hother, He).
      destruct (Hlive e (Hsub e He)) as (pe & de & Hpe & _). rewrite Hpe.
      by apply (cp_pkts_mono _ _ _ _ _ Hc). }
    { intros e pe He Hpe.
      rewrite lookup_delete_ne by (apply not_eq_sym; by eapply Hdat_other).
      destruct (Hlive e (Hsub e He)) as (pe' & de & Hpe' & _ & Hde & _).
      assert (pe' = pe) as -> by congruence. rewrite Hde.
      by apply (cp_bufs_mono _ _ _ _ _ Hc). }
  - assert (0 ≤ port < NUMPORTS c) as Hport.
    { destruct (Z.testbit _ 16) eqn:Hbit; [by destruct Hne; apply Hb|].
      by destruct (Hu eq_refl) as (_ & _ & ?). }
    destruct (route_packet_unicast c (switchpack x) p d s port k' Hports Hp Hd Hg Hne Hport)
      as (cp & Hcp & ->).
    eexists _, [PushEvent port (switchpack x) (timestamp p)].
    split; [done|]. simpl. split; [done|].
    split.
    { exists p, d, (rand_calls s), port, k'.
      split; [done|]. split; [done|]. split; [done|].
      by rewrite decide_False by done. }
    split; [|done].
    intros j cp' Hj. unfold pushed_to. rewrite filter_cons, filter_nil. simpl.
    destruct (decide (Z.to_nat port = j)) as [<-|Hj'].
    + rewrite list_lookup_insert_eq by (by eapply lookup_lt_Some).
      rewrite decide_True by lia. simpl. congruence.
    + rewrite list_lookup_insert_ne by done.
      rewrite decide_False by lia. simpl. by rewrite set_outputqueue_id.
Qed.

Lemma stamp_live c h e : live c h e → stamp h (switchpack e) = ts_timestamp e.
Proof. intros (p & d & Hp & Hts & _). unfold stamp. by rewrite Hp. Qed.

Section Delivery.
Context {Q : Type} `{PriorityQueue Q} (Hlaw : pq_lawful Q).

(** The routing loop pops every packet of the queue, by nondecreasing
    timestamp, and makes the pushes of each in turn. *)
Lemma route_loop_delivery c fuel :
  wf_config c →
  ∀ (q : Q) s,
    routing_inv c s (pq_contents q) →
    (length (pq_contents q) ≤ fuel)%nat →
    ∃ s' order groups,
      route_loop c fuel q s = Ok s' ∧
      routing_inv c s' [] ∧
      order ≡ₚ switchpack <$> pq_contents q ∧
      Sorted Z.le (stamp (mem s) <$> order) ∧
      pushlog s' = pushlog s ++ mjoin groups ∧
      Forall2 (delivery c (mem s)) order groups ∧
      (∀ j cp, ports s !! j = Some cp →
         ports s' !! j =
           Some (set_outputqueue (outputqueue cp ++ pushed_to j (mjoin groups)) cp)).
Proof.
  intros Hwf.
  assert (∀ (q : Q) s, pq_contents q = [] → routing_inv c s (pq_contents q) →
            ∃ s' order groups,
              Ok s = Ok s' ∧ routing_inv c s' [] ∧
              order ≡ₚ switchpack <$> pq_contents q ∧
              Sorted Z.le (stamp (mem s) <$> order) ∧
              pushlog s' = pushlog s ++ mjoin groups ∧
              Forall2 (delivery c (mem s)) order groups ∧
              (∀ j cp, ports s !! j = Some cp →
                 ports s' !! j =
                   Some (set_outputqueue
                           (outputqueue cp ++ pushed_to j (mjoin groups)) cp)))
    as Hempty.
  { intros q s Hnil Hinv. exists s, [], []. split; [done|].
    split; [by rewrite <- Hnil|]. split; [by rewrite Hnil|].
    split; [constructor|]. split; [simpl; by rewrite app_nil_r|].
    split; [constructor|].
    intros j cp Hj. rewrite Hj. unfold pushed_to. simpl.
    by rewrite set_outputqueue_id. }
  induction fuel as [|fuel IH]; intros q s Hinv Hlen.
  - assert (pq_contents q = []) as Hnil by (apply length_zero_iff_nil; lia).
    simpl. rewrite (proj2 (pq_is_empty_spec Q Hlaw q) Hnil). by apply Hempty.
  - simpl. destruct (pq_is_empty q) eqn:Hemp.
    { apply (pq_is_empty_spec Q Hlaw) in Hemp. by apply Hempty. }
    destruct (pq_top q) as [x|] eqn:Htop.
    2:{ apply (pq_top_none Q Hlaw) in Htop.
        apply (pq_is_empty_spec Q Hlaw) in Htop. congruence. }
    pose proof (pq_top_pop Q Hlaw q x Htop) as Hperm.
    assert (∀ y, y ∈ pq_contents q → ts_timestamp x ≤ ts_timestamp y) as Hmin.
    { intros y Hy. pose proof (pq_top_greatest Q Hlaw q x y Htop Hy) as Hgt.
      unfold tspacket_lt in Hgt. apply bool_decide_eq_false in Hgt. lia. }
    destruct (route_step c s _ x _ Hwf Hinv Hperm Hmin) as (s1 & Hrp & Hinv1).
    destruct (route_step_delivery c s _ x _ Hwf Hinv Hperm)
      as (s1' & evs & Hrp' & Hlog & Hdel & Hpo & Hpk & Hbf).
    rewrite Hrp in Hrp'. injection Hrp' as <-. rewrite Hrp. simpl.
    destruct (IH (pq_pop q) s1 Hinv1) as (s' & order & groups & Hloop & Hinv' & Hord
                                          & Hs & Hlog' & Hall & Hpo').
    { apply Permutation_length in Hperm. simpl in Hperm. lia. }
    pose proof (ri_live _ _ _ Hinv) as Hlive. rewrite Forall_forall in Hlive.
    assert (∀ sp, sp ∈ order → ∃ e, e ∈ pq_contents (pq_pop q) ∧ sp = switchpack e)
      as Hin.
    { intros sp Hsp. rewrite Hord in Hsp.
      apply list_elem_of_fmap in Hsp as (e & -> & He). eauto. }
    assert (∀ e, e ∈ pq_contents (pq_pop q) → e ∈ pq_contents q) as Hsub.
    { intros e He. rewrite Hperm. by right. }
    assert (∀ sp, sp ∈ order → stamp (mem s1) sp = stamp (mem s) sp) as Hst.
    { intros sp (e & He & ->)%Hin. unfold stamp. by rewrite Hpk. }
    exists s', (switchpack x :: order), (evs :: groups).
    split; [done|]. split; [done|].
    split; [by rewrite Hperm, fmap_cons, Hord|].
    split.
    { rewrite fmap_cons. constructor.
      - rewrite <- (Forall_fmap_ext_1 (stamp (mem s1)) (stamp (mem s)) order); [done|].
        apply Forall_forall. intros sp Hsp. by apply Hst.
      - destruct order as [|y order']; [constructor|]. rewrite fmap_cons. constructor.
        destruct (Hin y ltac:(by left)) as (e & He & ->).
        rewrite (stamp_live c (mem s) x) by (apply Hlive; rewrite Hperm; by left).
        rewrite (stamp_live c (mem s) e) by (by apply Hlive, Hsub).
        by apply Hmin, Hsub. }
    split; [rewrite Hlog', Hlog; simpl; by rewrite app_assoc|].
    split.
    { constructor; [done|].
      apply Forall2_same_length_lookup. split; [by eapply Forall2_length|].
      intros i sp g Hsp Hg.
      pose proof (Forall2_lookup_lr _ _ _ _ _ _ Hall Hsp Hg) as Hd1.
      destruct (Hin sp ltac:(by eapply list_elem_of_lookup_2)) as (e & He & ->).
      apply (delivery_heap c (mem s) (mem s1)); [by apply Hpk| |done].
      intros pe Hpe. by apply (Hbf e). }
    intros j cp Hj. rewrite (Hpo' j _ (Hpo j cp Hj)). simpl.
    rewrite pushed_to_app. unfold set_outputqueue. simpl. by rewrite app_assoc.
Qed.

(** C3: phases 2 and 3 run to completion on a well-formed state, and
    route every waiting packet in timestamp order.  The packets are popped
    in an order [order] that lists the waiting packets by nondecreasing
    timestamp; the pushes made are those of the first packet popped, then
    those of the second, and so on ([delivery]: the packet itself on its
    destination port, or a copy on every broadcast target, each push with
    the timestamp of the packet); every output queue receives the pushes
    to its port in that order and every input queue is left empty.  Hence
    of two pushes the one with the smaller timestamp is made first, and a
    packet with a smaller timestamp than another has all its pushes made
    before any of the other's. *)
Theorem routing_in_timestamp_order c s fuel :
  wf_config c →
  Z.of_nat (length (ports s)) = NUMPORTS c →
  queues_owned c s →
  pushlog s = [] →
  (length (queued s) ≤ fuel)%nat →
  ∃ s' order groups,
    switching c fuel s = Ok s' ∧
    order ≡ₚ queued s ∧
    Sorted Z.le (stamp (mem s) <$> order) ∧
    pushlog s' = mjoin groups ∧
    Forall2 (delivery c (mem s)) order groups ∧
    (∀ j p, ports s !! j = Some p →
       ports s' !! j =
         Some (Port (current_input_buf p) (current_output_buf p) (input_in_progress p)
                 [] (outputqueue p ++ pushed_to j (pushlog s')))) ∧
    Sorted Z.le (ev_timestamp <$> pushlog s') ∧
    (∀ i j a b,
       pushlog s' !! i = Some a → pushlog s' !! j = Some b →
       ev_timestamp a < ev_timestamp b → (i < j)%nat) ∧
    (∀ m n a b ga gb eva evb i j,
       order !! m = Some a → groups !! m = Some ga → eva ∈ ga →
       order !! n = Some b → groups !! n = Some gb → evb ∈ gb →
       stamp (mem s) a < stamp (mem s) b →
       pushlog s' !! i = Some eva → pushlog s' !! j = Some evb → (i < j)%nat).
Proof.
  intros Hwf Hports [Hnd Hlive Hinj] Hlog Hfuel.
  assert (Forall (λ sp, is_Some (pkts (mem s) !! sp)) (queued s)) as Hsome.
  { eapply Forall_impl; [exact Hlive|]. intros sp (p & d & Hp & _). eauto. }
  destruct (drain_ports Hlaw s pq_new (length (ports s)) Hsome (le_n _))
    as (s1 & q1 & Hf & Hmem & Hlog1 & _ & Hlen1 & Hports1 & Hq1).
  rewrite Hports in Hf. rewrite take_ge in Hq1 by done.
  rewrite (pq_new_contents Q Hlaw) in Hq1. simpl in Hq1. fold (queued s) in Hq1.
  assert (routing_inv c s1 (pq_contents q1)) as Hinv.
  { apply (routing_inv_perm c s1 (entry (mem s) <$> queued s)); [done|].
    rewrite Forall_forall in Hlive.
    constructor.
    - by rewrite Hlen1.
    - by rewrite switchpack_entry.
    - apply Forall_forall. intros e (sp & -> & Hsp)%list_elem_of_fmap.
      destruct (Hlive sp Hsp) as (p & d & Hp & Hd & Hdl).
      exists p, d. rewrite Hmem. unfold entry; simpl. rewrite Hp. done.
    - intros e1 e2 p1 p2 (sp1 & -> & Hsp1)%list_elem_of_fmap
        (sp2 & -> & Hsp2)%list_elem_of_fmap.
      rewrite Hmem. simpl. by apply Hinj.
    - rewrite Hlog1, Hlog. constructor.
    - intros ev e. rewrite Hlog1, Hlog. by intros ?%elem_of_nil. }
  destruct (route_loop_delivery c fuel Hwf q1 s1 Hinv)
    as (s' & order & groups & Hr & Hinv' & Hord & Hs & Hl & Hall & Hpo).
  { rewrite Hq1, length_fmap. done. }
  rewrite Hlog1, Hlog in Hl. simpl in Hl. rewrite Hmem in Hs, Hall.
  pose proof (ri_sorted _ _ _ Hinv') as Hsorted.
  assert (∀ i j a b,
            pushlog s' !! i = Some a → pushlog s' !! j = Some b →
            ev_timestamp a < ev_timestamp b → (i < j)%nat) as Hbefore.
  { intros i j a b Hi Hj Hlt.
    destruct (decide (i < j)%nat) as [|Hge]; [done|].
    assert (ev_timestamp b ≤ ev_timestamp a); [|lia].
    apply (Sorted_le_lookup (ev_timestamp <$> pushlog s') j i); [done| | |lia].
    - by rewrite list_lookup_fmap, Hj.
    - by rewrite list_lookup_fmap, Hi. }
  assert (∀ m a g ev, order !! m = Some a → groups !! m = Some g → ev ∈ g →
            ev_timestamp ev = stamp (mem s) a) as Hstamp.
  { intros m a g ev Ha Hg Hev.
    destruct (Forall2_lookup_lr _ _ _ _ _ _ Hall Ha Hg)
      as (p & d & k & port & k' & Hp & _ & _ & Hcase).
    unfold stamp. rewrite Hp. simpl. case_decide.
    - destruct Hcase as [_ Hfa]. rewrite Forall_forall in Hfa.
      by destruct (Hfa ev Hev).
    - subst g. by apply list_elem_of_singleton in Hev as ->. }
  exists s', order, groups. unfold switching, phase2. rewrite Hf; simpl.
  split; [done|].
  split; [by rewrite Hord, Hq1, switchpack_entry|].
  split; [done|]. split; [done|]. split; [done|].
  split.
  { intros j p Hj. rewrite (Hpo j (set_inputqueue [] p)).
    - by rewrite Hl.
    - rewrite Hports1. rewrite decide_True by (by eapply lookup_lt_Some).
      by rewrite Hj. }
  split; [done|]. split; [done|].
  intros m n a b ga gb eva evb i j Ha Hga Heva Hb Hgb Hevb Hlt Hi Hj.
  apply (Hbefore i j eva evb Hi Hj).
  by rewrite (Hstamp m a ga eva), (Hstamp n b gb evb).
Qed.

End Delivery.

Lemma routing_in_timestamp_order_witness :
  ∃ s' order groups,
    switching (Q:=list tspacket) cfg4 2 order_state = Ok s' ∧
    order ≡ₚ [0%nat; 1%nat] ∧
    pushlog s' = mjoin groups ∧
    Forall2 (delivery cfg4 (mem order_state)) order groups ∧
    pushlog s' = [PushEvent 2 1 1011; PushEvent 2 0 1015].
Proof.
  destruct (routing_in_timestamp_order list_pq_lawful cfg4 order_state 2)
    as (s' & order & groups & Hs & Hord & _ & Hlog & Hall & _).
  - exact cfg4_wf.
  - reflexivity.
  - exact order_state_owned.
  - reflexivity.
  - simpl. lia.
  - exists s', order, groups. do 4 (split; [done|]).
    pose proof order_scenario as Hsc. rewrite Hs in Hsc. by injection Hsc.
Defined.

End DeliveryFacts.

(** ** The NIC endpoint *)

Module NICFacts.
Import Mem SimpleNIC.

(** A stub platform: while [stub_windows] windows remain,
    [outgoing_count] reads [stub_outgoing]; no token waits on the input
    side; a pull delivers [stub_pulled] bytes and uses up a window; a push
    takes all its bytes; the peer publishes at once; files open. *)
Record stub : Type := Stub {
  stub_outgoing : Z;
  stub_pulled : Z;
  stub_windows : nat }.

#[global] Instance stub_host : Host stub := {
  mmio_read r s :=
    match r with
    | outgoing_count =>
        (match stub_windows s with O => 0 | S _ => stub_outgoing s end, s)
    | _ => (0, s)
    end;
  mmio_write _ _ s := s;
  dma_pull _ nbytes s :=
    ((replicate (Z.to_nat (stub_pulled s)) 0xab, stub_pulled s),
     Stub (stub_outgoing s) (stub_pulled s) (pred (stub_windows s)));
  dma_push _ _ nbytes s := (nbytes, s);
  peer_publish s := Some ([], s);
  fopen_ok _ _ := true }.

(** The loopback endpoint of link latency 7 on the stub [s], as the
    constructor builds it from [+linklatency0=7 +nic-loopback0]. *)
Definition nic7 (s : stub) : simplenic stub :=
  SimpleNic s true None 0 7 0 1 1 8 [0%nat; 1%nat] [0%nat; 1%nat]
    (<[0%nat := replicate 449 0]> (<[1%nat := replicate 449 0]> ∅)) 0 0 [].

(** *** [simplify_frac] *)




(** *** The constructor and [init] *)

Section Endpoint.
Context {E : Type} `{Host E}.








End Endpoint.


(** [atoi] returns an [int]. *)
Lemma atoi_range s : - 2 ^ 31 ≤ atoi s < 2 ^ 31.
Proof. unfold atoi, to_int. lia. Qed.

(** A link latency beyond [INT_MAX] reads as a negative [int], and the
    first [assert] of the constructor fails. *)
Example linklatency_beyond_int :
  atoi "2147483648" = - 2147483648 ∧
  simplenic_new (Stub 1 64 1) ["+linklatency0=2147483648"; "+nic-loopback0"]%string 0 0
  = CtorAbort [].
Proof. split; vm_compute; reflexivity. Qed.

(** *** A malformed MAC address *)

(** [err'] is [err] with the line [msg] inserted. *)
Definition inserted (msg : string) (err err' : list string) : Prop :=
  ∃ pre post, err = pre ++ post ∧ err' = pre ++ msg :: post.

(** [v'] is [v] but for one more line on [stderr]. *)
Definition with_msg (msg : string) (v v' : ctor_vars) : Prop :=
  ∃ err', inserted msg (v_stderr v) err' ∧
    v' = CtorVars (niclogfile v) (shmemportname v) (netbw v) (netburst v)
           (v_loopback v) (v_mac_lendian v) (v_LINKLATENCY v) err' (wild_store v).

Lemma inserted_snoc msg err err' x :
  inserted msg err err' → inserted msg (err ++ [x]) (err' ++ [x]).
Proof.
  intros (pre & post & -> & ->). exists pre, (post ++ [x]).
  by rewrite <- !app_assoc.
Qed.

Lemma with_msg_set msg v v' (g : ctor_vars → ctor_vars) :
  (∀ u, v_stderr (g u) = v_stderr u) →
  (∀ u err, g (set_stderr err u) = set_stderr err (g u)) →
  with_msg msg v v' → with_msg msg (g v) (g v').
Proof.
  intros Hg1 Hg2 (err' & Hins & ->). exists err'. rewrite Hg1. split; [done|].
  change (CtorVars (niclogfile v) (shmemportname v) (netbw v) (netburst v)
            (v_loopback v) (v_mac_lendian v) (v_LINKLATENCY v) err' (wild_store v))
    with (set_stderr err' v).
  rewrite Hg2. by destruct (g v).
Qed.

Lemma with_msg_stderr msg v v' x :
  with_msg msg v v' →
  with_msg msg (set_stderr (v_stderr v ++ [x]) v) (set_stderr (v_stderr v' ++ [x]) v').
Proof.
  intros (err' & Hins & ->). exists (err' ++ [x]). simpl.
  split; [by apply inserted_snoc|done].
Qed.

Lemma arg_macaddr_with_msg msg p arg v v' :
  with_msg msg v v' → with_msg msg (arg_macaddr p arg v) (arg_macaddr p arg v').
Proof.
  intros Hv. unfold arg_macaddr. destruct (starts_with p arg); [|done]. cbv zeta.
  assert (wild_store v' = wild_store v) as -> by (by destruct Hv as (? & ? & ->)).
  set (b := bool_decide _ || wild_store v).
  assert (with_msg msg (set_wild_store b v) (set_wild_store b v')) as Hw
    by (by apply with_msg_set).
  case_decide.
  - assert (v_mac_lendian (set_wild_store b v') = v_mac_lendian (set_wild_store b v))
      as -> by (by destruct Hv as (? & ? & ->)).
    by apply with_msg_set.
  - by apply with_msg_stderr.
Qed.

Lemma handle_arg_with_msg msg no v v' arg :
  with_msg msg v v' → with_msg msg (handle_arg no v arg) (handle_arg no v' arg).
Proof.
  intros Hv. unfold handle_arg. cbv zeta.
  unfold arg_shmemportname, arg_linklatency, arg_netburst, arg_netbw.
  repeat (match goal with
          | |- context [if starts_with ?p ?a then _ else _] => destruct (starts_with p a)
          end; [apply with_msg_set; [done..|]|]).
  all: apply arg_macaddr_with_msg.
  all: unfold arg_loopback, arg_niclog.
  all: repeat (match goal with
          | |- context [if starts_with ?p ?a then _ else _] => destruct (starts_with p a)
          end; [apply with_msg_set; [done..|]|]).
  all: done.
Qed.

Lemma parse_from_with_msg msg no args v v' :
  with_msg msg v v' →
  with_msg msg (foldl (handle_arg no) v args) (foldl (handle_arg no) v' args).
Proof.
  revert v v'. induction args as [|a args IH]; intros v v' Hv; [done|].
  simpl. apply IH. by apply handle_arg_with_msg.
Qed.

(** An argument that begins with [+macaddr] begins with no other option
    name. *)
Lemma prefix_cons a s1 s2 :
  String.prefix (String a s1) s2 = true →
  ∃ rest, s2 = String a rest ∧ String.prefix s1 rest = true.
Proof.
  destruct s2 as [|b s2]; cbn [String.prefix]; [done|].
  destruct (ascii_dec a b) as [<-|]; [eauto|done].
Qed.

Lemma macaddr_prefix x arg :
  starts_with ("+macaddr" +:+ x) arg = true → ∃ rest, arg = String "+" (String "m" rest).
Proof.
  unfold starts_with.
  change ("+macaddr" +:+ x)%string with (String "+" (String "m" ("acaddr" +:+ x))).
  intros (r1 & -> & (r2 & -> & _)%prefix_cons)%prefix_cons. eauto.
Qed.

Lemma handle_bad_mac no v arg :
  starts_with ("+macaddr" +:+ pretty no +:+ "=") arg = true →
  (sscanf_mac (after ("+macaddr" +:+ pretty no +:+ "=") arg)).1 ≠ 6 →
  (sscanf_mac (after ("+macaddr" +:+ pretty no +:+ "=") arg)).1 ≠ 7 →
  handle_arg no v arg = set_stderr (v_stderr v ++ [invalid_mac_msg]) v.
Proof.
  intros Hp H6 H7. destruct (macaddr_prefix _ _ Hp) as [rest ->].
  unfold handle_arg. cbv zeta.
  unfold arg_niclog, arg_loopback, arg_netbw, arg_netburst, arg_linklatency,
    arg_shmemportname.
  change (starts_with ("+niclog" +:+ _) (String "+" (String "m" rest))) with false.
  change (starts_with ("+nic-loopback" +:+ _) (String "+" (String "m" rest))) with false.
  change (starts_with ("+netbw" +:+ _) (String "+" (String "m" rest))) with false.
  change (starts_with ("+netburst" +:+ _) (String "+" (String "m" rest))) with false.
  change (starts_with ("+linklatency" +:+ _) (String "+" (String "m" rest))) with false.
  change (starts_with ("+shmemportname" +:+ _) (String "+" (String "m" rest))) with false.
  cbv iota. unfold arg_macaddr. rewrite Hp. cbv zeta.
  rewrite decide_False by (intros Heq; by apply H6).
  rewrite bool_decide_eq_false_2 by done. by destruct v.
Qed.

Section MalformedMac.
Context {E : Type} `{Host E}.

Lemma simplenic_new_with_msg msg (e : E) no dma args args' :
  with_msg msg (parse_args no args) (parse_args no args') →
  match simplenic_new e args no dma, simplenic_new e args' no dma with
  | Constructed n err, Constructed n' err' => n' = n ∧ inserted msg err err'
  | CtorAbort err, CtorAbort err' => inserted msg err err'
  | CtorUndefined, CtorUndefined => True
  | _, _ => False
  end.
Proof.
  intros (err' & Hins & Hv). unfold simplenic_new. rewrite Hv. simpl.
  destruct (wild_store _); [done|].
  destruct (negb (bool_decide (v_LINKLATENCY _ > 0))); [done|].
  destruct (negb (bool_decide (netburst _ < 256))); [done|].
  destruct (negb (bool_decide (netbw _ ≤ MAX_BANDWIDTH))); [done|].
  destruct (simplify_frac _ _) as [[inc period]|]; [|done].
  destruct (negb _); [by apply inserted_snoc|].
  destruct (_ && _); [done|].
  destruct (map_windows _ _) as [[rbufs wbufs] m]. done.
Qed.

(** C9, amended: an argument [+macaddrN=] whose value does not match six
    colon-separated hexadecimal fields makes the constructor write the
    line [INVALID MAC ADDRESS SUPPLIED WITH +macaddrN=] to [stderr], and
    nothing else: with the argument, construction ends as it does without
    it (with the same endpoint, or by [abort()] for another reason), with
    that one line more on [stderr].  The process does not exit. *)
Theorem malformed_mac_not_fatal (e : E) no dma l1 arg l2 :
  starts_with ("+macaddr" +:+ pretty no +:+ "=") arg = true →
  (sscanf_mac (after ("+macaddr" +:+ pretty no +:+ "=") arg)).1 ≠ 6 →
  (sscanf_mac (after ("+macaddr" +:+ pretty no +:+ "=") arg)).1 ≠ 7 →
  match simplenic_new e (l1 ++ l2) no dma, simplenic_new e (l1 ++ arg :: l2) no dma with
  | Constructed n err, Constructed n' err' => n' = n ∧ inserted invalid_mac_msg err err'
  | CtorAbort err, CtorAbort err' => inserted invalid_mac_msg err err'
  | CtorUndefined, CtorUndefined => True
  | _, _ => False
  end.
Proof.
  intros Hp H6 H7. apply simplenic_new_with_msg.
  unfold parse_args. rewrite !foldl_app. simpl.
  apply parse_from_with_msg. rewrite (handle_bad_mac no _ arg Hp H6 H7).
  eexists. split; [|reflexivity].
  exists (v_stderr (foldl (handle_arg no) ctor_init l1)), [].
  by rewrite app_nil_r.
Qed.

End MalformedMac.

(** With a MAC address that is not hexadecimal the stub endpoint is
    constructed all the same, with address 0. *)
Lemma malformed_mac_constructs :
  sscanf_mac "zz:11:22:33:44:55" = (0, []) ∧
  ∃ n,
    simplenic_new (Stub 1 64 1)
      ["+macaddr0=zz:11:22:33:44:55"; "+linklatency0=7"; "+nic-loopback0"]%string 0 0
      = Constructed n [invalid_mac_msg] ∧
    mac_lendian n = 0 ∧ LINKLATENCY n = 7.
Proof.
  split; [vm_compute; reflexivity|].
  eexists. split; [vm_compute; reflexivity|]. split; reflexivity.
Qed.

Lemma malformed_mac_not_fatal_witness :
  match simplenic_new (Stub 1 64 1) (["+linklatency0=7"%string] ++ ["+nic-loopback0"%string]) 0 0,
        simplenic_new (Stub 1 64 1)
          (["+linklatency0=7"%string]
           ++ "+macaddr0=zz:11:22:33:44:55"%string :: ["+nic-loopback0"%string]) 0 0 with
  | Constructed n err, Constructed n' err' => n' = n ∧ inserted invalid_mac_msg err err'
  | CtorAbort err, CtorAbort err' => inserted invalid_mac_msg err err'
  | CtorUndefined, CtorUndefined => True
  | _, _ => False
  end.
Proof.
  apply (malformed_mac_not_fatal (Stub 1 64 1) 0 0 ["+linklatency0=7"%string]
           "+macaddr0=zz:11:22:33:44:55"%string ["+nic-loopback0"%string]).
  - vm_compute. reflexivity.
  - vm_compute. congruence.
  - vm_compute. congruence.
Defined.

(** *** One iteration of [tick] *)

Definition is_dma (ev : event) : bool :=
  match ev with
  | EvPull _ _ _ | EvPush _ _ _ => true
  | _ => false
  end.

(** The DMA transfers among the events that [n'] has beyond [n]. *)
Definition dma_since {E} (n n' : simplenic E) : list event :=
  filter (λ ev, is_dma ev = true) (drop (length (trace n)) (trace n')).







Section Tick.
Context {E : Type} `{Host E}.













End Tick.

Lemma nic7_constructed s :
  simplenic_new s ["+linklatency0=7"; "+nic-loopback0"]%string 0 0 = Constructed (nic7 s) [].
Proof. vm_compute. reflexivity. Qed.




(** The lockstep scenario: three full windows, then none.  [tick] makes
    three pulls and three pushes, alternating between the two windows, and
    returns in round 1. *)
Example three_windows :
  ∃ n', tick 4 (nic7 (Stub 7 448 3)) = Returned n' ∧
        currentround n' = 1 ∧
        dma_since (nic7 (Stub 7 448 3)) n'
        = [EvPull 0 448 448; EvPush 0 448 448; EvPull 1 448 448; EvPush 1 448 448;
           EvPull 0 448 448; EvPush 0 448 448].
Proof.
  eexists. split; [vm_compute; reflexivity|].
  split; [reflexivity|vm_compute; reflexivity].
Qed.

End NICFacts.
